(** * aider-ce: the orchestration core of [aider/coders/domain]

    A shallow embedding of the edit-authorization, tool-call and
    context-budget managers, and the properties their specification
    states about them.

    Conventions of the embedding.
    - A Python [str] is a [string]; its characters are the code points
      below 256.  [str.lower], [str.upper] and [str.strip] act on that
      range as Python does, on the letters of ASCII and of Latin-1 and
      on the white space of the range; the two code points whose
      upper-case form lies beyond the range are named at [upper_char].
    - A Python [set] of paths is a [gset string]; an insertion-ordered
      [dict] whose order is observable is an association list.
    - The collaborators of the core (confirmation prompts, the version
      control backend, the summarizer, the tool servers) are oracles:
      records of functions, one per module, named [Env] or after the
      collaborator.
    - Everything printed through [io] is appended to a transcript, so
      that "a warning is emitted" is a statement about that list. *)

From Stdlib Require Import String Ascii List ZArith NArith Lia Bool.
From stdpp Require Import base gmap strings list.

#[global] Set Warnings "-register-all,-clear-no-such-hyp".

Open Scope string_scope.
Open Scope list_scope.

(** ** Characters and strings of Python *)

Module Py.

(** The double quote, written by its code: 34. *)
Definition dquote : ascii := "034"%char.
Definition backslash : ascii := "092"%char.

(** [quoted s] is [s] with every apostrophe replaced by a double quote,
    so that JSON texts can be written as literals. *)
Fixpoint quoted (s : string) : string :=
  match s with
  | EmptyString => EmptyString
  | String c r => String (if Ascii.eqb c "'" then dquote else c) (quoted r)
  end.

Definition code (c : ascii) : N := N_of_ascii c.

Definition codes (s : string) : list N := map code (list_ascii_of_string s).

(** [c.isspace()] for a code point below 256. *)
Definition isspace (c : ascii) : bool :=
  let n := code c in
  ((9 <=? n) && (n <=? 13) || (28 <=? n) && (n <=? 32)
   || (n =? 133) || (n =? 160))%N.

Fixpoint lstrip (s : string) : string :=
  match s with
  | EmptyString => EmptyString
  | String c r => if isspace c then lstrip r else s
  end.

(** [s.rstrip()]: a character stays when it is no white space or when
    something stays after it. *)
Fixpoint rstrip (s : string) : string :=
  match s with
  | EmptyString => EmptyString
  | String c r =>
      match rstrip r with
      | EmptyString => if isspace c then EmptyString else String c EmptyString
      | String c' r' => String c (String c' r')
      end
  end.

(** [s.strip()] *)
Definition strip (s : string) : string := rstrip (lstrip s).

(** [c.lower()] for a code point below 256: the letters A-Z and the
    letters from U+00C0 to U+00DE, which leaves out the multiplication
    sign U+00D7, are moved up by 32. *)
Definition lower_char (c : ascii) : ascii :=
  let n := code c in
  if ((65 <=? n) && (n <=? 90)
      || (192 <=? n) && (n <=? 222) && negb (n =? 215))%N
  then ascii_of_N (n + 32) else c.

(** [c.upper()] for a code point below 256: the letters a-z and the
    letters from U+00E0 to U+00FE, which leaves out the division sign
    U+00F7, are moved down by 32, and the sharp s U+00DF becomes SS.
    The upper-case forms of the micro sign U+00B5 and of the y with
    diaeresis U+00FF are U+039C and U+0178, beyond the code points of
    the embedding: these two are left as they are. *)
Definition upper_char (c : ascii) : string :=
  let n := code c in
  if ((97 <=? n) && (n <=? 122)
      || (224 <=? n) && (n <=? 254) && negb (n =? 247))%N
  then String (ascii_of_N (n - 32)) EmptyString
  else if (n =? 223)%N then "SS"
  else String c EmptyString.

Fixpoint map_string (f : ascii -> ascii) (s : string) : string :=
  match s with
  | EmptyString => EmptyString
  | String c r => String (f c) (map_string f r)
  end.

(** [s.lower()] and [s.upper()] *)
Definition lower : string -> string := map_string lower_char.

Fixpoint upper (s : string) : string :=
  match s with
  | EmptyString => EmptyString
  | String c r => upper_char c +:+ upper r
  end.

(** [s.startswith(p)], returning the rest of [s] after [p]. *)
Fixpoint after_prefix (p s : string) : option string :=
  match p, s with
  | EmptyString, _ => Some s
  | String a p', String b s' => if Ascii.eqb a b then after_prefix p' s' else None
  | String _ _, EmptyString => None
  end.

Definition startswith (s p : string) : bool :=
  match after_prefix p s with Some _ => true | None => false end.

(** Truth value of a string: [bool(s)]. *)
Definition truthy (s : string) : bool :=
  match s with EmptyString => false | _ => true end.

(** [sep.join(l)] *)
Fixpoint join (sep : string) (l : list string) : string :=
  match l with
  | [] => ""
  | [x] => x
  | x :: r => x +:+ sep +:+ join sep r
  end.

(** The line feed, the text of Python's backslash-n. *)
Definition nl : string := String "010"%char "".

(** [str(n)] for a natural number. *)
Definition digit_char (n : nat) : ascii := ascii_of_nat (48 + n).

Fixpoint str_of_nat_aux (fuel n : nat) (acc : string) : string :=
  match fuel with
  | O => acc
  | S f =>
      let acc' := String (digit_char (n mod 10)) acc in
      match n / 10 with
      | O => acc'
      | q => str_of_nat_aux f q acc'
      end
  end.

Definition str_of_nat (n : nat) : string := str_of_nat_aux (S n) n "".

End Py.

(** ** [json.loads] of the Python standard library

    The decoder of [json.decoder] and [json.scanner], on which
    [parse_partial_args] and the tool-call engine rest.  A position
    [end] in the text is kept as the suffix that starts there. *)

Module Json.
Import Py.

Inductive value :=
| JNull
| JBool (b : bool)
| JInt (z : Z)
| JFloat (lexeme : string)   (* a float, kept as the text it was read from *)
| JString (s : list N)       (* the code points of the decoded string *)
| JArray (l : list value)
| JObject (d : list (list N * value)).

(** The result of a scanning function: a value and the rest of the text,
    a [JSONDecodeError], or no more fuel (see [fuel_for]). *)
Inductive outcome (A : Type) :=
| Parsed (a : A) (rest : string)
| DecodeError
| NoFuel.
Arguments Parsed {A} a rest.
Arguments DecodeError {A}.
Arguments NoFuel {A}.

(** WHITESPACE: blank, tab, line feed, carriage return. *)
Definition is_ws (c : ascii) : bool :=
  let n := code c in ((n =? 32) || (n =? 9) || (n =? 10) || (n =? 13))%N.

Fixpoint skip_ws (s : string) : string :=
  match s with
  | EmptyString => EmptyString
  | String c r => if is_ws c then skip_ws r else s
  end.

Definition is_digit (c : ascii) : bool :=
  let n := code c in ((48 <=? n) && (n <=? 57))%N.

Definition hex_digit (c : ascii) : option N :=
  let n := code c in
  if ((48 <=? n) && (n <=? 57))%N then Some (n - 48)%N
  else if ((65 <=? n) && (n <=? 70))%N then Some (n - 55)%N
  else if ((97 <=? n) && (n <=? 102))%N then Some (n - 87)%N
  else None.

(** [_decode_uXXXX]: four hexadecimal digits, as the C scanner (the one
    in use by default) reads them. *)
Definition decode_uXXXX (a b c d : ascii) : option N :=
  match hex_digit a, hex_digit b, hex_digit c, hex_digit d with
  | Some x, Some y, Some z, Some w => Some (((x * 16 + y) * 16 + z) * 16 + w)%N
  | _, _, _, _ => None
  end.

(** BACKSLASH: the one-character escapes. *)
Definition backslash_table (esc : ascii) : option N :=
  let n := code esc in
  if (n =? 34)%N then Some 34%N              (* quote *)
  else if (n =? 92)%N then Some 92%N         (* backslash *)
  else if (n =? 47)%N then Some 47%N         (* / *)
  else if (n =? 98)%N then Some 8%N          (* b *)
  else if (n =? 102)%N then Some 12%N        (* f *)
  else if (n =? 110)%N then Some 10%N        (* n *)
  else if (n =? 114)%N then Some 13%N        (* r *)
  else if (n =? 116)%N then Some 9%N         (* t *)
  else None.

Definition is_high_surrogate (u : N) : bool := ((55296 <=? u) && (u <=? 56319))%N.
Definition is_low_surrogate (u : N) : bool := ((56320 <=? u) && (u <=? 57343))%N.
Definition join_surrogates (u u2 : N) : N :=
  (65536 + N.lor (N.shiftl (u - 55296) 10) (u2 - 56320))%N.

(** [scanstring(s, end, strict=True)], entered after the opening quote. *)
Fixpoint scanstring (s : string) (chunks : list N) {struct s} : outcome (list N) :=
  match s with
  | EmptyString => DecodeError                        (* unterminated string *)
  | String c r =>
      if Ascii.eqb c dquote then Parsed chunks r
      else if Ascii.eqb c backslash then
        match r with
        | EmptyString => DecodeError                  (* unterminated string *)
        | String esc r1 =>
            if Ascii.eqb esc "u" then
              match r1 with
              | String h1 (String h2 (String h3 (String h4 r5))) =>
                  match decode_uXXXX h1 h2 h3 h4 with
                  | None => DecodeError               (* invalid \uXXXX escape *)
                  | Some uni =>
                      if is_high_surrogate uni then
                        match r5 with
                        | String b (String u (String k1 (String k2 (String k3 (String k4 r11))))) =>
                            if Ascii.eqb b backslash && Ascii.eqb u "u" then
                              match decode_uXXXX k1 k2 k3 k4 with
                              | None => DecodeError
                              | Some uni2 =>
                                  if is_low_surrogate uni2
                                  then scanstring r11 (chunks ++ [join_surrogates uni uni2])
                                  else scanstring r5 (chunks ++ [uni])
                              end
                            else scanstring r5 (chunks ++ [uni])
                        | _ =>
                            (* fewer than six characters left: if they start
                               a \u escape it is too short, and the next
                               round reports it *)
                            scanstring r5 (chunks ++ [uni])
                        end
                      else scanstring r5 (chunks ++ [uni])
                  end
              | _ => DecodeError                      (* invalid \uXXXX escape *)
              end
            else
              match backslash_table esc with
              | None => DecodeError                   (* invalid \escape *)
              | Some ch => scanstring r1 (chunks ++ [ch])
              end
        end
      else if (code c <? 32)%N then DecodeError       (* invalid control character *)
      else scanstring r (chunks ++ [code c])
  end.

(** NUMBER_RE: an optional minus sign and either 0 or a digit 1-9
    followed by digits; then, optionally, a dot and digits; then,
    optionally, e or E, a sign and digits. *)
Fixpoint span_digits (s : string) : string * string :=
  match s with
  | EmptyString => ("", "")
  | String c r =>
      if is_digit c then let (d, rest) := span_digits r in (String c d, rest)
      else ("", s)
  end.

(** The integer group, without its sign. *)
Definition match_integer (s : string) : option (string * string) :=
  match s with
  | String c r =>
      if Ascii.eqb c "0" then Some ("0", r)
      else if is_digit c then let (d, rest) := span_digits r in Some (String c d, rest)
      else None
  | EmptyString => None
  end.

(** The optional fraction group: a dot and at least one digit. *)
Definition match_frac (s : string) : string * string :=
  match s with
  | String c r =>
      if Ascii.eqb c "." then
        match span_digits r with
        | (EmptyString, _) => ("", s)
        | (d, rest) => (String c d, rest)
        end
      else ("", s)
  | EmptyString => ("", s)
  end.

(** The optional exponent group: e or E, an optional sign, digits. *)
Definition match_exp (s : string) : string * string :=
  match s with
  | String c r =>
      if Ascii.eqb c "e" || Ascii.eqb c "E" then
        let (sign, r') :=
          match r with
          | String g r2 =>
              if Ascii.eqb g "-" || Ascii.eqb g "+" then (String g "", r2) else ("", r)
          | EmptyString => ("", r)
          end in
        match span_digits r' with
        | (EmptyString, _) => ("", s)
        | (d, rest) => (String c (sign +:+ d), rest)
        end
      else ("", s)
  | EmptyString => ("", s)
  end.

(** The groups (integer, frac, exp) and the rest, when the number matches. *)
Definition match_number (s : string) : option (string * string * string * string) :=
  let (sign, s') :=
    match s with
    | String c r => if Ascii.eqb c "-" then ("-", r) else ("", s)
    | EmptyString => ("", s)
    end in
  match match_integer s' with
  | None => None
  | Some (int, r1) =>
      let (frac, r2) := match_frac r1 in
      let (exp, r3) := match_exp r2 in
      Some (sign +:+ int, frac, exp, r3)
  end.

(** [int(lexeme)] for an optional minus sign followed by digits. *)
Fixpoint digits_value (s : string) (acc : Z) : Z :=
  match s with
  | EmptyString => acc
  | String c r => digits_value r (acc * 10 + Z.of_N (code c - 48))
  end.

Definition parse_int (lexeme : string) : Z :=
  match lexeme with
  | String c r => if Ascii.eqb c "-" then (- digits_value r 0)%Z else digits_value lexeme 0
  | EmptyString => 0%Z
  end.

(** [dict(pairs)]: a later pair with a known key replaces the value in
    place, a new key goes to the end. *)
Definition key_eqb (a b : list N) : bool := bool_decide (a = b).

Fixpoint dict_set (d : list (list N * value)) (k : list N) (v : value) :=
  match d with
  | [] => [(k, v)]
  | (k', v') :: r => if key_eqb k' k then (k', v) :: r else (k', v') :: dict_set r k v
  end.

Definition dict_of_pairs (pairs : list (list N * value)) : list (list N * value) :=
  fold_left (fun d kv => dict_set d (fst kv) (snd kv)) pairs [].

(** [scan_once], with the loops of [JSONObject] and [JSONArray].  The
    prologue of each of the two (the look-ahead for an empty object or
    array) stands in [scan_once]; [object_loop] is entered after the
    opening quote of a key, [array_loop] at the start of a value.  The
    fast paths of the Python code that step over one or two blanks before
    calling WHITESPACE.match amount to [skip_ws]. *)
Fixpoint scan_once (fuel : nat) (s : string) {struct fuel} : outcome value :=
  match fuel with
  | O => NoFuel
  | S f =>
      match s with
      | EmptyString => DecodeError                     (* StopIteration *)
      | String c r =>
          if Ascii.eqb c dquote then
            match scanstring r [] with
            | Parsed str rest => Parsed (JString str) rest
            | DecodeError => DecodeError
            | NoFuel => NoFuel
            end
          else if Ascii.eqb c "{" then
            match skip_ws r with
            | String c' r' =>
                if Ascii.eqb c' "}" then Parsed (JObject []) r'
                else if Ascii.eqb c' dquote then object_loop f r' []
                else DecodeError                       (* expecting property name *)
            | EmptyString => DecodeError
            end
          else if Ascii.eqb c "[" then
            match skip_ws r with
            | String c' r' =>
                if Ascii.eqb c' "]" then Parsed (JArray []) r'
                else array_loop f (String c' r') []
            | EmptyString => array_loop f EmptyString []
            end
          else
            match after_prefix "null" s, after_prefix "true" s, after_prefix "false" s with
            | Some rest, _, _ => Parsed JNull rest
            | None, Some rest, _ => Parsed (JBool true) rest
            | None, None, Some rest => Parsed (JBool false) rest
            | None, None, None =>
                match match_number s with
                | Some (int, frac, exp, rest) =>
                    if truthy frac || truthy exp
                    then Parsed (JFloat (int +:+ frac +:+ exp)) rest
                    else Parsed (JInt (parse_int int)) rest
                | None =>
                    match after_prefix "NaN" s, after_prefix "Infinity" s,
                          after_prefix "-Infinity" s with
                    | Some rest, _, _ => Parsed (JFloat "NaN") rest
                    | None, Some rest, _ => Parsed (JFloat "Infinity") rest
                    | None, None, Some rest => Parsed (JFloat "-Infinity") rest
                    | None, None, None => DecodeError  (* StopIteration *)
                    end
                end
            end
      end
  end
with object_loop (fuel : nat) (s : string) (pairs : list (list N * value))
       {struct fuel} : outcome value :=
  match fuel with
  | O => NoFuel
  | S f =>
      match scanstring s [] with
      | Parsed key r =>
          match skip_ws r with
          | String c r1 =>
              if Ascii.eqb c ":" then
                match scan_once f (skip_ws r1) with
                | Parsed v r2 =>
                    let pairs' := pairs ++ [(key, v)] in
                    match skip_ws r2 with
                    | String c' r3 =>
                        if Ascii.eqb c' "}" then Parsed (JObject (dict_of_pairs pairs')) r3
                        else if Ascii.eqb c' "," then
                          match skip_ws r3 with
                          | String c'' r4 =>
                              if Ascii.eqb c'' dquote then object_loop f r4 pairs'
                              else DecodeError         (* expecting property name *)
                          | EmptyString => DecodeError
                          end
                        else DecodeError               (* expecting ',' delimiter *)
                    | EmptyString => DecodeError
                    end
                | DecodeError => DecodeError           (* expecting value *)
                | NoFuel => NoFuel
                end
              else DecodeError                         (* expecting ':' delimiter *)
          | EmptyString => DecodeError
          end
      | DecodeError => DecodeError
      | NoFuel => NoFuel
      end
  end
with array_loop (fuel : nat) (s : string) (values : list value)
       {struct fuel} : outcome value :=
  match fuel with
  | O => NoFuel
  | S f =>
      match scan_once f s with
      | Parsed v r =>
          let values' := values ++ [v] in
          match skip_ws r with
          | String c r1 =>
              if Ascii.eqb c "]" then Parsed (JArray values') r1
              else if Ascii.eqb c "," then array_loop f (skip_ws r1) values'
              else DecodeError                         (* expecting ',' delimiter *)
          | EmptyString => DecodeError
          end
      | DecodeError => DecodeError                     (* expecting value *)
      | NoFuel => NoFuel
      end
  end.

(** Fuel that [scan_once] never uses up on [s] (see [scan_once_fuel]). *)
Definition fuel_for (s : string) : nat := 2 * String.length s + 2.

(** [JSONDecoder.raw_decode(s)] from the start of [s]. *)
Definition raw_decode (s : string) : outcome value := scan_once (fuel_for s) s.

(** [JSONDecoder.decode(s)]: white space, a value, white space, the end. *)
Definition decode (s : string) : outcome value :=
  match raw_decode (skip_ws s) with
  | Parsed v rest =>
      match skip_ws rest with
      | EmptyString => Parsed v EmptyString
      | String _ _ => DecodeError                      (* extra data *)
      end
  | DecodeError => DecodeError
  | NoFuel => NoFuel
  end.

(** [json.loads(s)]: [Some] value, or [None] for a [JSONDecodeError]. *)
Definition loads (s : string) : option value :=
  match decode s with
  | Parsed v _ => Some v
  | _ => None
  end.

End Json.

(** ** What the user sees and the messages of the chat *)

Module Chat.

(** One call on [coder.io].  [confirm_ask] is recorded when the question
    is put to the user, with the answer given. *)
Inductive event :=
| tool_output (text : string)
| tool_warning (text : string)
| tool_error (text : string)
| confirm_ask (question : string) (subject : option string) (answer : bool).

#[global] Instance event_eq_dec : EqDecision event.
Proof. solve_decision. Defined.

(** The user: the answer to a question, given everything shown so far. *)
Definition user := list event -> string -> option string -> bool.

(** A message of the conversation: a dict with a role, a content that
    may be missing, and, for a tool response, the identifier of the call. *)
Record Message := mkMessage {
  role : string;
  content : option string;
  tool_call_id : option string }.

#[global] Instance Message_eq_dec : EqDecision Message.
Proof. solve_decision. Defined.

Definition text_message (r c : string) : Message :=
  {| role := r; content := Some c; tool_call_id := None |}.

Definition tool_message (id c : string) : Message :=
  {| role := "tool"; content := Some c; tool_call_id := Some id |}.

End Chat.

(** ** response_parser.py *)

Module ResponseParser.
Import Py Json.

(** [parse_partial_args]: the buffer is the entry "arguments" of
    [coder.partial_response_function_call].  [None] is Python's bare
    [return] (and the fall through the last [except]). *)
Definition parse_partial_args (partial_response_function_call : gmap string string)
  : option value :=
  match partial_response_function_call !! "arguments" with
  | None => None
  | Some data =>
      if negb (truthy data) then None
      else
        match loads data with
        | Some v => Some v
        | None =>
            match loads (data +:+ "]}") with
            | Some v => Some v
            | None =>
                match loads (data +:+ "}]}") with
                | Some v => Some v
                | None =>
                    match loads (data +:+ String dquote "}]}") with
                    | Some v => Some v
                    | None => None
                    end
                end
            end
        end
  end.

End ResponseParser.

(** ** tool_use.py *)

Module ToolUse.
Import Py Chat.

Record Function := mkFunction {
  name : string;
  arguments : string }.

Record ToolCall := mkToolCall {
  id : string;
  type : string;
  function : Function }.

#[global] Instance Function_eq_dec : EqDecision Function.
Proof. solve_decision. Defined.
#[global] Instance ToolCall_eq_dec : EqDecision ToolCall.
Proof. solve_decision. Defined.

(** A tool schema as a server advertises it: a dict whose entry
    "function", when present, is a dict of strings. *)
Record Tool := mkTool {
  tool_function : option (gmap string string) }.

(** A server object.  Two objects are the same key of a dict when they
    are the same object: [ident] stands for the object's identity. *)
Record McpServer := mkServer {
  ident : nat;
  server_name : string;
  is_local : bool }.

#[global] Instance McpServer_eq_dec : EqDecision McpServer.
Proof. solve_decision. Defined.

(** The dict from servers to their calls, in insertion order. *)
Definition ServerToolCalls := list (McpServer * list ToolCall).

(** [if server not in d: d[server] = []] and [d[server].append(tool_call)] *)
Fixpoint dict_append (d : ServerToolCalls) (server : McpServer) (tool_call : ToolCall)
  : ServerToolCalls :=
  match d with
  | [] => [(server, [tool_call])]
  | (k, l) :: r =>
      if decide (k = server) then (k, l ++ [tool_call]) :: r
      else (k, l) :: dict_append r server tool_call
  end.

(** [d[server]], the empty list for a server that is no key. *)
Fixpoint dict_get (d : ServerToolCalls) (server : McpServer) : list ToolCall :=
  match d with
  | [] => []
  | (k, l) :: r => if decide (k = server) then l else dict_get r server
  end.

(** [tool.get("function", {}).get("name")] *)
Definition tool_name_from_schema (tool : Tool) : option string :=
  match tool_function tool with
  | Some f => f !! "name"
  | None => None
  end.

(** The test of line 135: the schema has a name, not empty, and it is the
    call's name up to case. *)
Definition name_matches (tool : Tool) (tool_call : ToolCall) : bool :=
  match tool_name_from_schema tool with
  | Some n => truthy n && String.eqb (lower n) (lower (name (function tool_call)))
  | None => false
  end.

(** The loop [for server in self.mcp_servers] with its [break]: the
    first server of that name receives the call. *)
Fixpoint add_to_named_server (mcp_servers : list McpServer) (name : string)
    (tool_call : ToolCall) (d : ServerToolCalls) : ServerToolCalls :=
  match mcp_servers with
  | [] => d
  | server :: r =>
      if String.eqb (server_name server) name then dict_append d server tool_call
      else add_to_named_server r name tool_call d
  end.

(** The loop [for tool in server_tools]. *)
Fixpoint scan_server_tools (mcp_servers : list McpServer) (name : string)
    (server_tools : list Tool) (tool_call : ToolCall) (d : ServerToolCalls)
  : ServerToolCalls :=
  match server_tools with
  | [] => d
  | tool :: r =>
      let d' := if name_matches tool tool_call
                then add_to_named_server mcp_servers name tool_call d
                else d in
      scan_server_tools mcp_servers name r tool_call d'
  end.

(** The loop [for server_name, server_tools in self.mcp_tools]. *)
Fixpoint scan_mcp_tools (mcp_servers : list McpServer)
    (mcp_tools : list (string * list Tool)) (tool_call : ToolCall)
    (d : ServerToolCalls) : ServerToolCalls :=
  match mcp_tools with
  | [] => d
  | (name, server_tools) :: r =>
      scan_mcp_tools mcp_servers r tool_call
        (scan_server_tools mcp_servers name server_tools tool_call d)
  end.

(** The loop [for tool_call in tool_calls]. *)
Fixpoint scan_tool_calls (mcp_servers : list McpServer)
    (mcp_tools : list (string * list Tool)) (tool_calls : list ToolCall)
    (d : ServerToolCalls) : ServerToolCalls :=
  match tool_calls with
  | [] => d
  | tool_call :: r =>
      scan_tool_calls mcp_servers mcp_tools r
        (scan_mcp_tools mcp_servers mcp_tools tool_call d)
  end.

(** [_gather_server_tool_calls]; [mcp_tools] that is [None] or empty
    gives [None]. *)
Definition _gather_server_tool_calls (mcp_servers : list McpServer)
    (mcp_tools : list (string * list Tool)) (tool_calls : list ToolCall)
  : option ServerToolCalls :=
  match mcp_tools with
  | [] => None
  | _ => Some (scan_tool_calls mcp_servers mcp_tools tool_calls [])
  end.

(** *** Expansion of concatenated arguments (process_tool_calls, lines 51-79) *)

(** [enumerate(l)] *)
Fixpoint enumerate_from {A} (i : nat) (l : list A) : list (nat * A) :=
  match l with
  | [] => []
  | x :: r => (i, x) :: enumerate_from (S i) r
  end.

Definition enumerate {A} (l : list A) : list (nat * A) := enumerate_from 0 l.

(** The derived call of lines 75-78. *)
Definition derived_call (tool_call : ToolCall) (i : nat) (chunk : string) : ToolCall :=
  {| id := id tool_call +:+ "-" +:+ str_of_nat i;
     type := type tool_call;
     function := {| name := name (function tool_call); arguments := chunk |} |}.

(** One round of the loop of line 53.  [split_concatenated_json] is
    [coder.utils.split_concatenated_json]. *)
Definition expand_tool_call (split_concatenated_json : string -> list string)
    (tool_call : ToolCall) : list ToolCall :=
  let args_string := strip (arguments (function tool_call)) in
  if negb (truthy args_string)
     || negb (startswith args_string "{" || startswith args_string "[")
  then [tool_call]
  else
    let json_chunks := split_concatenated_json args_string in
    if (List.length json_chunks <=? 1)%nat then [tool_call]
    else
      flat_map
        (fun ic : nat * string =>
           if negb (truthy (strip (snd ic))) then []
           else [derived_call tool_call (fst ic) (snd ic)])
        (enumerate json_chunks).

Definition expand_tool_calls (split_concatenated_json : string -> list string)
    (original_tool_calls : list ToolCall) : list ToolCall :=
  flat_map (expand_tool_call split_concatenated_json) original_tool_calls.

(** *** Execution (_execute_tool_calls) *)

(** What a collaborator may raise: [httpx.RemoteProtocolError], or any
    other [Exception]; [str_of_exception] is its text. *)
Inductive Exception :=
| RemoteProtocolError (text : string)
| OtherException (text : string).

Definition str_of_exception (e : Exception) : string :=
  match e with
  | RemoteProtocolError t => t
  | OtherException t => t
  end.

Inductive result (A : Type) :=
| Return (a : A)
| Raise (e : Exception).
Arguments Return {A} a.
Arguments Raise {A} e.

(** [base64.b64decode(resource.blob).decode("utf-8")]: the text, or a
    [UnicodeDecodeError] or [TypeError] (caught at line 223), or another
    exception (not caught there). *)
Inductive BlobDecoding :=
| Utf8Text (text : string)
| NotText
| DecodeRaises (e : Exception).

(** The items of [call_result.content], by the attributes the code tests. *)
Inductive Resource :=
| TextResourceContents (text : string)
| BlobResourceContents (blob : BlobDecoding) (name mimeType : option string)
| OtherResourceContents.

Inductive ContentItem :=
| EmbeddedResource (resource : Resource)
| TextContent (text : string)
| OtherContent.

(** The collaborators of the tool-call engine.  A session is known by
    the calls made in it so far: [call_openai_tool server earlier call]. *)
Record Env := mkEnv {
  split_concatenated_json : string -> list string;
  dumps : Json.value -> string;
  connect : McpServer -> result unit;
  call_openai_tool : McpServer -> list ToolCall -> ToolCall -> result (list ContentItem);
  execute_local_tool_calls : option (list ToolCall -> list Message) }.

(** Lines 213-234: the parts one item contributes. *)
Definition item_parts (item : ContentItem) : result (list string) :=
  match item with
  | EmbeddedResource (TextResourceContents text) => Return [text]
  | EmbeddedResource (BlobResourceContents blob name mimeType) =>
      match blob with
      | Utf8Text decoded_blob => Return [decoded_blob]
      | NotText =>
          Return ["[embedded binary resource: " +:+ default "unnamed" name
                  +:+ " (" +:+ default "unknown mime type" mimeType +:+ ")]"]
      | DecodeRaises e => Raise e
      end
  | EmbeddedResource OtherResourceContents => Return []
  | TextContent text => Return [text]
  | OtherContent => Return []
  end.

Fixpoint content_parts (items : list ContentItem) (parts : list string)
  : result (list string) :=
  match items with
  | [] => Return parts
  | item :: r =>
      match item_parts item with
      | Return l => content_parts r (parts ++ l)
      | Raise e => Raise e
      end
  end.

(** Lines 187-195: the chunks that parse, and a warning for each other. *)
Fixpoint parse_chunks (tool_call : ToolCall) (json_chunks : list string)
  : list Json.value * list event :=
  match json_chunks with
  | [] => ([], [])
  | chunk :: r =>
      let (parsed, warnings) := parse_chunks tool_call r in
      match Json.loads chunk with
      | Some v => (v :: parsed, warnings)
      | None =>
          (parsed,
           tool_warning ("Could not parse JSON chunk for tool "
                         +:+ name (function tool_call) +:+ ": " +:+ chunk) :: warnings)
      end
  end.

(** Lines 200-237: one remote call per parsed argument object; the
    first exception ends the loop.  Returns the session as well. *)
Fixpoint call_each (E : Env) (server : McpServer) (tool_call : ToolCall)
    (parsed_args_list : list Json.value) (session : list ToolCall)
    (all_results_content : list string) : result (list string) * list ToolCall :=
  match parsed_args_list with
  | [] => (Return all_results_content, session)
  | args :: r =>
      let new_tool_call :=
        {| id := id tool_call; type := type tool_call;
           function := {| name := name (function tool_call);
                          arguments := dumps E args |} |} in
      let session' := session ++ [new_tool_call] in
      match call_openai_tool E server session new_tool_call with
      | Return call_result_content =>
          match content_parts call_result_content [] with
          | Return content_parts =>
              call_each E server tool_call r session'
                (all_results_content ++ [join "" content_parts])
          | Raise e => (Raise e, session')
          end
      | Raise e => (Raise e, session')
      end
  end.

(** Lines 183-198: the argument objects of a call, and the warnings
    for the chunks that do not parse. *)
Definition parsed_args (E : Env) (tool_call : ToolCall) : list Json.value * list event :=
  let args_string := strip (arguments (function tool_call)) in
  let '(parsed, warnings) :=
    if truthy args_string
    then parse_chunks tool_call (split_concatenated_json E args_string)
    else ([], []) in
  let parsed_args_list :=
    match parsed with
    | [] => if negb (truthy args_string) then [Json.JObject []] else []
    | _ => parsed
    end in
  (parsed_args_list, warnings).

(** The text [tool_error] of line 248. *)
Definition tool_error_text (tool_call : ToolCall) (e : Exception) : string :=
  "Error executing tool call " +:+ name (function tool_call) +:+ ": "
  +:+ nl +:+ str_of_exception e.

(** Lines 180-255: the body of the loop over one server's calls, with
    its [except Exception].  Returns the response, the session and what
    was printed. *)
Definition exec_tool_call (E : Env) (server : McpServer) (tool_call : ToolCall)
    (session : list ToolCall) : Message * list ToolCall * list event :=
  let (parsed_args_list, warnings) := parsed_args E tool_call in
  match call_each E server tool_call parsed_args_list session [] with
  | (Return all_results_content, session') =>
      (tool_message (id tool_call) (join (nl +:+ nl) all_results_content),
       session', warnings)
  | (Raise e, session') =>
      (tool_message (id tool_call) (tool_error_text tool_call e), session',
       warnings ++
       [tool_warning ("Executing " +:+ name (function tool_call) +:+ " on "
                      +:+ server_name server +:+ " failed: " +:+ nl +:+ "  Error: "
                      +:+ str_of_exception e +:+ nl)])
  end.

(** The loop of line 179. *)
Fixpoint exec_tool_calls_list (E : Env) (server : McpServer)
    (tool_calls_list : list ToolCall) (session : list ToolCall)
  : list Message * list event :=
  match tool_calls_list with
  | [] => ([], [])
  | tool_call :: r =>
      let '(response, session', printed) := exec_tool_call E server tool_call session in
      let (tool_responses, printed') := exec_tool_calls_list E server r session' in
      (response :: tool_responses, printed ++ printed')
  end.

(** Lines 259-262 and 266-269: the same text for every call. *)
Definition connection_errors (connection_error : string) (tool_calls_list : list ToolCall)
  : list Message :=
  map (fun tool_call => tool_message (id tool_call) connection_error) tool_calls_list.

(** [_exec_server_tools].  Inside the loop every [Exception] is caught
    by line 247, so the handlers of lines 256 and 263 are reached from
    [server.connect()] only, with [tool_responses] still empty.  The
    [finally] clause disconnects in every case; it adds no response. *)
Definition _exec_server_tools (E : Env) (server : McpServer)
    (tool_calls_list : list ToolCall) : list Message * list event :=
  if is_local server then
    match execute_local_tool_calls E with
    | Some execute => (execute tool_calls_list, [])
    | None =>
        (map (fun tool_call =>
                tool_message (id tool_call)
                  ("Coder does not support local tool: " +:+ name (function tool_call)))
             tool_calls_list, [])
    end
  else
    match connect E server with
    | Return _ => exec_tool_calls_list E server tool_calls_list []
    | Raise (RemoteProtocolError e) =>
        let connection_error :=
          "Server " +:+ server_name server +:+ " disconnected unexpectedly: " +:+ e in
        (connection_errors connection_error tool_calls_list, [tool_warning connection_error])
    | Raise (OtherException e) =>
        let connection_error :=
          "Could not connect to server " +:+ server_name server +:+ nl +:+ e in
        (connection_errors connection_error tool_calls_list, [tool_warning connection_error])
    end.

(** [_execute_tool_calls] when no task is cancelled: the results of the
    servers' tasks, flattened in the order of the dict. *)
Fixpoint _execute_tool_calls (E : Env) (tool_calls : ServerToolCalls)
  : list Message * list event :=
  match tool_calls with
  | [] => ([], [])
  | (server, tool_calls_list) :: r =>
      let (server_results, printed) := _exec_server_tools E server tool_calls_list in
      let (tool_responses, printed') := _execute_tool_calls E r in
      (server_results ++ tool_responses, printed ++ printed')
  end.

(** *** process_tool_calls *)

Record Choice := mkChoice {
  message_tool_calls : option (list ToolCall) }.

Record Response := mkResponse {
  choices : list Choice }.

Record Coder := mkCoder {
  mcp_servers : list McpServer;
  mcp_tools : list (string * list Tool);
  num_tool_calls : nat;
  max_tool_calls : nat;
  verbose : bool;
  cur_messages : list Message;
  io : list event }.

Definition print (c : Coder) (l : list event) : Coder :=
  {| mcp_servers := mcp_servers c; mcp_tools := mcp_tools c;
     num_tool_calls := num_tool_calls c; max_tool_calls := max_tool_calls c;
     verbose := verbose c; cur_messages := cur_messages c; io := io c ++ l |}.

Definition append_messages (c : Coder) (l : list Message) : Coder :=
  {| mcp_servers := mcp_servers c; mcp_tools := mcp_tools c;
     num_tool_calls := num_tool_calls c; max_tool_calls := max_tool_calls c;
     verbose := verbose c; cur_messages := cur_messages c ++ l; io := io c |}.

(** [_print_tool_call_info] *)
Definition call_info (verbose : bool) (server : McpServer) (tool_call : ToolCall)
  : list event :=
  [tool_output ("Tool Call: " +:+ name (function tool_call));
   tool_output ("Arguments: " +:+ arguments (function tool_call));
   tool_output ("MCP Server: " +:+ server_name server)]
  ++ (if verbose
      then [tool_output ("Tool ID: " +:+ id tool_call);
            tool_output ("Tool type: " +:+ type tool_call)]
      else [])
  ++ [tool_output nl].

Definition _print_tool_call_info (verbose : bool) (server_tool_calls : ServerToolCalls)
  : list event :=
  tool_output "Preparing to run MCP tools"
  :: flat_map (fun st => flat_map (call_info verbose (fst st)) (snd st)) server_tool_calls.

(** The tool calls of a response, when it has any (lines 30-49). *)
Definition original_tool_calls (tool_call_response : option Response)
  : option (list ToolCall) :=
  match tool_call_response with
  | Some {| choices := choice :: _ |} =>
      match message_tool_calls choice with
      | Some (tc :: l) => Some (tc :: l)
      | _ => None
      end
  | _ => None
  end.

Definition nonempty (d : option ServerToolCalls) : option ServerToolCalls :=
  match d with
  | Some (kv :: r) => Some (kv :: r)
  | _ => None
  end.

(** [process_tool_calls] *)
Definition process_tool_calls (E : Env) (ask : user) (c : Coder)
    (tool_call_response : option Response) : bool * Coder :=
  match original_tool_calls tool_call_response with
  | None => (false, c)
  | Some calls =>
      let expanded_tool_calls := expand_tool_calls (split_concatenated_json E) calls in
      let server_tool_calls :=
        _gather_server_tool_calls (mcp_servers c) (mcp_tools c) expanded_tool_calls in
      match nonempty server_tool_calls, (num_tool_calls c <? max_tool_calls c)%nat with
      | Some d, true =>
          let c1 := print c (_print_tool_call_info (verbose c) d) in
          let answer := ask (io c1) "Run tools?" None in
          let c2 := print c1 [confirm_ask "Run tools?" None answer] in
          if answer then
            let (tool_responses, printed) := _execute_tool_calls E d in
            (true, append_messages (print c2 printed) tool_responses)
          else (false, c2)
      | _, _ =>
          if (max_tool_calls c <=? num_tool_calls c)%nat
          then (false,
                print c [tool_warning ("Only " +:+ str_of_nat (max_tool_calls c)
                                       +:+ " tool calls allowed, stopping.")])
          else (false, c)
      end
  end.

End ToolUse.

(** ** runtime.py *)

Module Runtime.
Import Py Chat.

(** [coder.summarizer] and the prompt it is given. *)
Inductive SummaryOutcome :=
| Summary (messages : list Message)
| ValueError (text : string)           (* caught by the worker *)
| WorkerDies.                          (* any other exception ends the thread *)

Inductive TextOutcome :=
| Text (summary_text : string)
| Raises (text : string).              (* an [Exception], with its text *)

Record Summarizer := mkSummarizer {
  (* check_max_tokens(messages, max_tokens=None) *)
  check_max_tokens : list Message -> option nat -> bool;
  summarize : list Message -> SummaryOutcome;
  (* summarize_all_as_text(messages, prompt, max_tokens) *)
  summarize_all_as_text : list Message -> string -> nat -> TextOutcome }.

(** How far the worker thread has come: started, past its first line
    (the snapshot), or finished. *)
Inductive Thread :=
| Started
| Snapshotted
| Finished.

Record State := mkState {
  done_messages : list Message;
  summarizer_thread : option Thread;
  summarizing_messages : option (list Message);
  summarized_done_messages : list Message;
  enable_context_compaction : bool;
  context_compaction_max_tokens : nat;
  context_compaction_summary_tokens : nat;
  compaction_prompt : string;
  verbose : bool;
  io : list event }.

Definition set_done (st : State) (l : list Message) : State :=
  {| done_messages := l; summarizer_thread := summarizer_thread st;
     summarizing_messages := summarizing_messages st;
     summarized_done_messages := summarized_done_messages st;
     enable_context_compaction := enable_context_compaction st;
     context_compaction_max_tokens := context_compaction_max_tokens st;
     context_compaction_summary_tokens := context_compaction_summary_tokens st;
     compaction_prompt := compaction_prompt st;
     verbose := verbose st; io := io st |}.

Definition set_thread (st : State) (t : option Thread) : State :=
  {| done_messages := done_messages st; summarizer_thread := t;
     summarizing_messages := summarizing_messages st;
     summarized_done_messages := summarized_done_messages st;
     enable_context_compaction := enable_context_compaction st;
     context_compaction_max_tokens := context_compaction_max_tokens st;
     context_compaction_summary_tokens := context_compaction_summary_tokens st;
     compaction_prompt := compaction_prompt st;
     verbose := verbose st; io := io st |}.

Definition set_summarizing (st : State) (l : option (list Message)) : State :=
  {| done_messages := done_messages st; summarizer_thread := summarizer_thread st;
     summarizing_messages := l;
     summarized_done_messages := summarized_done_messages st;
     enable_context_compaction := enable_context_compaction st;
     context_compaction_max_tokens := context_compaction_max_tokens st;
     context_compaction_summary_tokens := context_compaction_summary_tokens st;
     compaction_prompt := compaction_prompt st;
     verbose := verbose st; io := io st |}.

Definition set_summarized (st : State) (l : list Message) : State :=
  {| done_messages := done_messages st; summarizer_thread := summarizer_thread st;
     summarizing_messages := summarizing_messages st;
     summarized_done_messages := l;
     enable_context_compaction := enable_context_compaction st;
     context_compaction_max_tokens := context_compaction_max_tokens st;
     context_compaction_summary_tokens := context_compaction_summary_tokens st;
     compaction_prompt := compaction_prompt st;
     verbose := verbose st; io := io st |}.

Definition print (st : State) (l : list event) : State :=
  {| done_messages := done_messages st; summarizer_thread := summarizer_thread st;
     summarizing_messages := summarizing_messages st;
     summarized_done_messages := summarized_done_messages st;
     enable_context_compaction := enable_context_compaction st;
     context_compaction_max_tokens := context_compaction_max_tokens st;
     context_compaction_summary_tokens := context_compaction_summary_tokens st;
     compaction_prompt := compaction_prompt st;
     verbose := verbose st; io := io st ++ l |}.

(** *** summarize_worker, in the two steps another thread can see *)

(** Line 81: [self.summarizing_messages = list(self.coder.done_messages)] *)
Definition worker_snapshot (st : State) : State :=
  set_thread (set_summarizing st (Some (done_messages st))) (Some Snapshotted).

(** Lines 82-91, on the snapshot taken before. *)
Definition worker_finish (sm : Summarizer) (st : State) : State :=
  let snapshot := default [] (summarizing_messages st) in
  let st' :=
    match summarize sm snapshot with
    | Summary l => set_summarized st l
    | ValueError text => set_summarized (print st [tool_warning text]) snapshot
    | WorkerDies => st
    end in
  let st'' :=
    match summarize sm snapshot with
    | WorkerDies => st'
    | _ => if verbose st then print st' [tool_output "Finished summarizing chat history."]
           else st'
    end in
  set_thread st'' (Some Finished).

(** [self.summarizer_thread.join()]: the worker runs to its end. *)
Definition join (sm : Summarizer) (st : State) : State :=
  match summarizer_thread st with
  | Some Started => worker_finish sm (worker_snapshot st)
  | Some Snapshotted => worker_finish sm st
  | _ => st
  end.

(** [summarize_end] *)
Definition summarize_end (sm : Summarizer) (st : State) : State :=
  match summarizer_thread st with
  | None => st
  | Some _ =>
      let st1 := set_thread (join sm st) None in
      let st2 :=
        if decide (summarizing_messages st1 = Some (done_messages st1))
        then set_done st1 (summarized_done_messages st1)
        else st1 in
      set_summarized (set_summarizing st2 None) []
  end.

(** [summarize_start] *)
Definition summarize_start (sm : Summarizer) (st : State) : State :=
  if negb (check_max_tokens sm (done_messages st) None) then st
  else
    let st1 := summarize_end sm st in
    let st2 := if verbose st1
               then print st1 [tool_output "Starting to summarize chat history."]
               else st1 in
    set_thread st2 (Some Started).

(** The two messages of lines 128-140. *)
Definition compacted (summary_text : string) : list Message :=
  [text_message "user" summary_text;
   text_message "assistant"
     "Ok, I will use this summary as the context for our conversation going forward."].

(** Lines 142-146. *)
Definition compaction_failed (sm : Summarizer) (st : State) (e : string) : State :=
  summarize_start sm
    (print st [tool_warning ("Context compaction failed: " +:+ e);
               tool_warning "Proceeding with full history for now."]).

(** [compact_context_if_needed] *)
Definition compact_context_if_needed (sm : Summarizer) (st : State) : State :=
  if negb (enable_context_compaction st) then summarize_start sm st
  else if negb (check_max_tokens sm (done_messages st)
                  (Some (context_compaction_max_tokens st)))
  then st
  else
    let st1 := print st [tool_output "Compacting chat history to make room for new messages..."] in
    match summarize_all_as_text sm (done_messages st1) (compaction_prompt st1)
            (context_compaction_summary_tokens st1) with
    | Text summary_text =>
        if negb (truthy summary_text)
        then compaction_failed sm st1 "Summarization returned an empty result."
        else print (set_done st1 (compacted summary_text))
                   [tool_output "...chat history compacted."]
    | Raises e => compaction_failed sm st1 e
    end.

(** What the main flow may do while the worker runs: settle a message
    into the done list; and the worker's own steps. *)
Inductive action :=
| Append (m : Message)
| WorkerSnapshot
| WorkerFinish.

Definition act (sm : Summarizer) (st : State) (a : action) : State :=
  match a, summarizer_thread st with
  | Append m, _ => set_done st (done_messages st ++ [m])
  | WorkerSnapshot, Some Started => worker_snapshot st
  | WorkerFinish, Some Snapshotted => worker_finish sm st
  | _, _ => st
  end.

Definition run (sm : Summarizer) (st : State) (l : list action) : State :=
  fold_left (act sm) l st.

End Runtime.

(** ** The state of the coder that file_manager.py and editor.py share *)

Module Session.
Import Py Chat.

(** [repo.commit(fnames=..., context=..., aider_edits=..., coder=...)] *)
Record CommitRequest := mkCommitRequest {
  fnames : gset string;
  context : option string;
  aider_edits : bool }.

Inductive CommitOutcome :=
| Committed (commit_hash commit_message : string)   (* a pair *)
| NothingToCommit                                   (* None *)
| GitError (text : string).                         (* ANY_GIT_ERROR *)

(** What the core has asked of the repository so far. *)
Inductive GitAction :=
| git_add (full_path : string)
| git_commit (request : CommitRequest).

(** [coder.repo]: its answers may depend on what was done before. *)
Record Repo := mkRepo {
  path_in_repo : list GitAction -> string -> bool;
  git_ignored_file : list GitAction -> string -> bool;
  is_dirty : list GitAction -> string -> bool;
  commit : list GitAction -> CommitRequest -> CommitOutcome }.

(** A prompt template of [coder.gpt_prompts], by its literal texts and
    its replacement fields. *)
Inductive Piece :=
| Literal (text : string)
| Field (name : string).

(** The collaborators and constants that are not among the sources. *)
Record Env := mkEnv {
  abs_root_path : string -> string;
  ask : user;
  (* utils.touch_file(full_path), given the files that exist *)
  touch_file : gset string -> string -> bool;
  is_image_file : string -> bool;
  (* main_model.token_count(io.read_text(fname)) *)
  file_tokens : string -> nat;
  edit_errors : string;                      (* coder.urls.edit_errors *)
  files_content_gpt_edits : list Piece;
  files_content_gpt_no_edits : string;
  (* coder.show_auto_commit_outcome(res): what it prints *)
  show_auto_commit_outcome : string -> string -> list event }.

Record Coder := mkCoder {
  repo : option Repo;
  dry_run : bool;
  dirty_commits : bool;
  auto_commits : bool;
  cur_messages : list Message;
  git : list GitAction;
  files : gset string;                       (* the paths that exist on disk *)
  abs_fnames : gset string;
  need_commit_before_edits : gset string;
  warning_given : bool;
  io : list event }.

Definition set_git (c : Coder) (g : list GitAction) : Coder :=
  {| repo := repo c; dry_run := dry_run c; dirty_commits := dirty_commits c;
     auto_commits := auto_commits c; cur_messages := cur_messages c;
     git := g; files := files c; abs_fnames := abs_fnames c;
     need_commit_before_edits := need_commit_before_edits c;
     warning_given := warning_given c; io := io c |}.

Definition set_files (c : Coder) (f : gset string) : Coder :=
  {| repo := repo c; dry_run := dry_run c; dirty_commits := dirty_commits c;
     auto_commits := auto_commits c; cur_messages := cur_messages c;
     git := git c; files := f; abs_fnames := abs_fnames c;
     need_commit_before_edits := need_commit_before_edits c;
     warning_given := warning_given c; io := io c |}.

Definition set_abs_fnames (c : Coder) (a : gset string) : Coder :=
  {| repo := repo c; dry_run := dry_run c; dirty_commits := dirty_commits c;
     auto_commits := auto_commits c; cur_messages := cur_messages c;
     git := git c; files := files c; abs_fnames := a;
     need_commit_before_edits := need_commit_before_edits c;
     warning_given := warning_given c; io := io c |}.

Definition set_need_commit (c : Coder) (n : gset string) : Coder :=
  {| repo := repo c; dry_run := dry_run c; dirty_commits := dirty_commits c;
     auto_commits := auto_commits c; cur_messages := cur_messages c;
     git := git c; files := files c; abs_fnames := abs_fnames c;
     need_commit_before_edits := n;
     warning_given := warning_given c; io := io c |}.

Definition set_warning_given (c : Coder) (w : bool) : Coder :=
  {| repo := repo c; dry_run := dry_run c; dirty_commits := dirty_commits c;
     auto_commits := auto_commits c; cur_messages := cur_messages c;
     git := git c; files := files c; abs_fnames := abs_fnames c;
     need_commit_before_edits := need_commit_before_edits c;
     warning_given := w; io := io c |}.

Definition print (c : Coder) (l : list event) : Coder :=
  {| repo := repo c; dry_run := dry_run c; dirty_commits := dirty_commits c;
     auto_commits := auto_commits c; cur_messages := cur_messages c;
     git := git c; files := files c; abs_fnames := abs_fnames c;
     need_commit_before_edits := need_commit_before_edits c;
     warning_given := warning_given c; io := io c ++ l |}.

(** [io.confirm_ask] is a coroutine function: a call builds a coroutine
    object, and the question is put to the user when that object is
    awaited.  As any object without [__bool__] or [__len__], a coroutine
    object counts as true. *)
Record Coroutine := mkCoroutine {
  question : string;
  subject : option string }.

Definition io_confirm_ask (question : string) (subject : option string) : Coroutine :=
  {| question := question; subject := subject |}.

Definition object_truth (co : Coroutine) : bool := true.

Definition await (E : Env) (co : Coroutine) (c : Coder) : bool * Coder :=
  let answer := ask E (io c) (question co) (subject co) in
  (answer, print c [confirm_ask (question co) (subject co) answer]).

End Session.

(** ** file_manager.py *)

Module FileManager.
Import Py Chat Session.

Definition too_many_files_warning : string :=
  "Warning: it's best to only add files that need changes to the chat.".

(** Lines 229-234: the tokens of the files in chat that are no images. *)
Definition chat_tokens (E : Env) (c : Coder) : nat :=
  set_fold (fun fname tokens =>
              if is_image_file E fname then tokens else tokens + file_tokens E fname)
           0 (abs_fnames c).

(** [check_added_files] *)
Definition check_added_files (E : Env) (c : Coder) : Coder :=
  if warning_given c then c
  else
    let warn_number_of_files := 4 in
    let warn_number_of_tokens := 20 * 1024 in
    let num_files := size (abs_fnames c) in
    if (num_files <? warn_number_of_files)%nat then c
    else if (chat_tokens E c <? warn_number_of_tokens)%nat then c
    else
      set_warning_given
        (print c [tool_warning too_many_files_warning; tool_warning (edit_errors E)])
        true.

(** [add_rel_fname] *)
Definition add_rel_fname (E : Env) (rel_fname : string) (c : Coder) : Coder :=
  check_added_files E (set_abs_fnames c (abs_fnames c ∪ {[abs_root_path E rel_fname]})).

(** [drop_rel_fname]: [True] when the file was in chat, [None] otherwise. *)
Definition drop_rel_fname (E : Env) (fname : string) (c : Coder) : bool * Coder :=
  let abs_fname := abs_root_path E fname in
  if bool_decide (abs_fname ∈ abs_fnames c)
  then (true, set_abs_fnames c (abs_fnames c ∖ {[abs_fname]}))
  else (false, c).

(** What may happen to a file manager during its life. *)
Inductive op :=
| AddRelFname (rel_fname : string)
| DropRelFname (fname : string)
| CheckAddedFiles
| SetChatFiles (fnames : gset string).     (* other code assigns or updates the set *)

Definition apply (E : Env) (c : Coder) (o : op) : Coder :=
  match o with
  | AddRelFname rel_fname => add_rel_fname E rel_fname c
  | DropRelFname fname => snd (drop_rel_fname E fname c)
  | CheckAddedFiles => check_added_files E c
  | SetChatFiles fnames => set_abs_fnames c fnames
  end.

Definition life (E : Env) (c : Coder) (ops : list op) : Coder :=
  fold_left (apply E) ops c.

End FileManager.

(** ** editor.py *)

Module Editor.
Import Py Chat Session.

(** A function returns, or an exception leaves it. *)
Inductive outcome (A : Type) :=
| Returns (a : A)
| Throws (text : string).
Arguments Returns {A} a.
Arguments Throws {A} text.

(** [check_for_dirty_commit] *)
Definition check_for_dirty_commit (path : string) (c : Coder) : Coder :=
  match repo c with
  | None => c
  | Some r =>
      if negb (dirty_commits c) then c
      else if negb (is_dirty r (git c) path) then c
      else
        set_need_commit
          (print c [tool_output ("Committing " +:+ path +:+ " before applying edits.")])
          (need_commit_before_edits c ∪ {[path]})
  end.

(** [self.coder.repo.repo.git.add(full_path)], under [if need_to_add]. *)
Definition stage (need_to_add : bool) (full_path : string) (c : Coder) : Coder :=
  if need_to_add then set_git c (git c ++ [git_add full_path]) else c.

(** Lines 46-47 and 60-61. *)
Definition add_to_chat (E : Env) (full_path : string) (c : Coder) : Coder :=
  FileManager.check_added_files E (set_abs_fnames c (abs_fnames c ∪ {[full_path]})).

(** [allowed_to_edit]: [True], or [None] (here [false]).  Line 31 tests
    the coroutine object itself; line 50 awaits it. *)
Definition allowed_to_edit (E : Env) (path : string) (c : Coder) : bool * Coder :=
  let full_path := abs_root_path E path in
  let need_to_add :=
    match repo c with
    | Some r => negb (path_in_repo r (git c) path)
    | None => false
    end in
  if bool_decide (full_path ∈ abs_fnames c) then
    (true, check_for_dirty_commit path c)
  else if match repo c with Some r => git_ignored_file r (git c) path | None => false end
  then
    (false, print c [tool_warning ("Skipping edits to " +:+ path
                                   +:+ " that matches gitignore spec.")])
  else if negb (bool_decide (full_path ∈ files c)) then
    if negb (object_truth (io_confirm_ask "Create new file?" (Some path))) then
      (false, print c [tool_output ("Skipping edits to " +:+ path)])
    else if negb (dry_run c) then
      if negb (touch_file E (files c) full_path) then
        (false, print c [tool_error ("Unable to create " +:+ path +:+ ", skipping edits.")])
      else
        let c1 := set_files c (files c ∪ {[full_path]}) in
        (true, add_to_chat E full_path (stage need_to_add full_path c1))
    else
      (true, add_to_chat E full_path c)
  else
    let (answer, c1) :=
      await E (io_confirm_ask "Allow edits to file that has not been added to the chat?"
                 (Some path)) c in
    if negb answer then
      (false, print c1 [tool_output ("Skipping edits to " +:+ path)])
    else
      (true, check_for_dirty_commit path
               (add_to_chat E full_path (stage need_to_add full_path c1))).

(** A proposed edit: [edit[0]] is its path, or [None]. *)
Record Edit := mkEdit {
  path : option string;
  body : string }.

(** [dirty_commit]; an error of the repository is not caught here. *)
Definition dirty_commit (c : Coder) : outcome Coder :=
  if bool_decide (need_commit_before_edits c = ∅) then Returns c
  else if negb (dirty_commits c) then Returns c
  else
    match repo c with
    | None => Returns c
    | Some r =>
        let request := {| fnames := need_commit_before_edits c; context := None;
                          aider_edits := false |} in
        match commit r (git c) request with
        | GitError text => Throws text
        | _ => Returns (set_git c (git c ++ [git_commit request]))
        end
    end.

(** The loop of lines 90-104.  [asked] lists the paths on which
    [allowed_to_edit] was called, in the order of the calls. *)
Fixpoint prepare_loop (E : Env) (edits : list Edit) (seen : gmap string bool)
    (res : list Edit) (asked : list string) (c : Coder)
  : list Edit * gmap string bool * list string * Coder :=
  match edits with
  | [] => (res, seen, asked, c)
  | edit :: r =>
      match path edit with
      | None => prepare_loop E r seen (res ++ [edit]) asked c
      | Some p =>
          match (seen !! p : option bool) with
          | Some allowed =>
              prepare_loop E r seen (if allowed then res ++ [edit] else res) asked c
          | None =>
              let (allowed, c') := allowed_to_edit E p c in
              prepare_loop E r (<[p := allowed]> seen)
                (if allowed then res ++ [edit] else res) (asked ++ [p]) c'
          end
      end
  end.

(** [prepare_to_edit] *)
Definition prepare_to_edit (E : Env) (edits : list Edit) (c : Coder)
  : outcome (list Edit * Coder) :=
  let '(res, _, _, c1) :=
    prepare_loop E edits ∅ [] [] (set_need_commit c ∅) in
  match dirty_commit c1 with
  | Returns c2 => Returns (res, set_need_commit c2 ∅)
  | Throws text => Throws text
  end.

(** [get_context_from_history] *)
Fixpoint get_context_from_history (history : list Message) : string :=
  match history with
  | [] => ""
  | msg :: r =>
      (nl +:+ upper (role msg) +:+ ": " +:+ default "" (content msg) +:+ nl)
      +:+ get_context_from_history r
  end.

(** [template.format] with keyword arguments and fields that are plain names; a
    field that is no keyword raises a [KeyError]. *)
Fixpoint lookup_field (kwargs : list (string * string)) (name : string) : option string :=
  match kwargs with
  | [] => None
  | (k, v) :: r => if String.eqb k name then Some v else lookup_field r name
  end.

Fixpoint format (template : list Piece) (kwargs : list (string * string))
  : option string :=
  match template with
  | [] => Some ""
  | Literal text :: r => option_map (String.append text) (format r kwargs)
  | Field name :: r =>
      match lookup_field kwargs name, format r kwargs with
      | Some v, Some rest => Some (v +:+ rest)
      | _, _ => None
      end
  end.

(** [auto_commit]: the text returned, or [None]. *)
Definition auto_commit (E : Env) (edited : gset string) (context : option string)
    (c : Coder) : outcome (option string * Coder) :=
  match repo c with
  | None => Returns (None, c)
  | Some r =>
      if negb (auto_commits c) || dry_run c then Returns (None, c)
      else
        let context :=
          match context with
          | Some text => if truthy text then text
                         else get_context_from_history (cur_messages c)
          | None => get_context_from_history (cur_messages c)
          end in
        let request := {| fnames := edited; context := Some context;
                          aider_edits := true |} in
        let c1 := set_git c (git c ++ [git_commit request]) in
        match commit r (git c) request with
        | Committed commit_hash commit_message =>
            let c2 := print c1 (show_auto_commit_outcome E commit_hash commit_message) in
            match format (files_content_gpt_edits E)
                    [("hash", commit_hash); ("message", commit_message)] with
            | Some text => Returns (Some text, c2)
            | None => Throws "KeyError"
            end
        | NothingToCommit => Returns (Some (files_content_gpt_no_edits E), c1)
        | GitError text =>
            Returns (None, print c1 [tool_error ("Unable to commit: " +:+ text)])
        end
  end.

End Editor.

(** ** utils.split_concatenated_json *)

Module Utils.
Import Py Json.

(** The first [n] characters of [s]. *)
Fixpoint take_string (n : nat) (s : string) : string :=
  match n, s with
  | S m, String c r => String c (take_string m r)
  | _, _ => EmptyString
  end.

(** Modelled from the spec: the scan of [split_concatenated_json], one
    top-level JSON value per round (see below). *)
Fixpoint split_from (fuel : nat) (s : string) : list string :=
  match fuel with
  | O => []
  | S f =>
      match s with
      | EmptyString => []
      | String _ _ =>
          match raw_decode s with
          | Parsed _ rest =>
              take_string (String.length s - String.length rest) s
              :: split_from f (lstrip rest)
          | _ => [s]
          end
      end
  end.

(** Modelled from the spec: [aider.utils.split_concatenated_json] is not
    among the sources.  The specification calls it a lenient scanner
    that splits a buffer into its top-level concatenated JSON values and
    tolerates a trailing value that is left open: the values are read
    one after the other, and a rest that is no JSON value is the last
    chunk. *)
Definition split_concatenated_json (s : string) : list string :=
  let s := strip s in split_from (String.length s) s.

End Utils.

(** ** More of Python's strings *)

Module Text.
Import Py.

(** [s[n:]] and [s[:n]] for [n] at least 0, and [s[a:b]]. *)
Fixpoint drop (n : nat) (s : string) : string :=
  match n, s with
  | S m, String _ r => drop m r
  | _, _ => s
  end.

Fixpoint take (n : nat) (s : string) : string :=
  match n, s with
  | S m, String c r => String c (take m r)
  | _, _ => EmptyString
  end.

Definition slice (a b : nat) (s : string) : string := take (b - a) (drop a s).

(** The lowest position, counted from [pos], at which [sub] starts in
    [s]; the empty string starts at every position, the end included. *)
Fixpoint find_in (sub s : string) (pos : nat) : option nat :=
  match s with
  | EmptyString => if startswith EmptyString sub then Some pos else None
  | String _ r => if startswith s sub then Some pos else find_in sub r (S pos)
  end.

(** [s.find(sub, start)] for [start] at least 0; [None] is -1. *)
Definition find (s sub : string) (start : nat) : option nat :=
  if (String.length s <? start)%nat then None else find_in sub (drop start s) start.

(** [sub in s] *)
Definition contains (sub s : string) : bool :=
  match find_in sub s 0 with Some _ => true | None => false end.

(** [c in chars] for a character. *)
Fixpoint has_char (chars : string) (c : ascii) : bool :=
  match chars with
  | EmptyString => false
  | String a r => Ascii.eqb a c || has_char r c
  end.

(** [s.lstrip(chars)], [s.rstrip(chars)] and [s.strip(chars)]. *)
Fixpoint lstrip_chars (chars s : string) : string :=
  match s with
  | EmptyString => EmptyString
  | String c r => if has_char chars c then lstrip_chars chars r else s
  end.

Fixpoint rstrip_chars (chars s : string) : string :=
  match s with
  | EmptyString => EmptyString
  | String c r =>
      match rstrip_chars chars r with
      | EmptyString => if has_char chars c then EmptyString else String c EmptyString
      | String c' r' => String c (String c' r')
      end
  end.

Definition strip_chars (chars s : string) : string :=
  rstrip_chars chars (lstrip_chars chars s).

(** [s.replace(a, b)] for single characters [a] and [b]. *)
Definition replace_char (a b : ascii) (s : string) : string :=
  map_string (fun c => if Ascii.eqb c a then b else c) s.

(** [s.split()]: the words between runs of white space. *)
Fixpoint split_words (s word : string) : list string :=
  match s with
  | EmptyString => if truthy word then [word] else []
  | String c r =>
      if isspace c
      then (if truthy word then [word] else []) ++ split_words r EmptyString
      else split_words r (word +:+ String c EmptyString)
  end.

Definition split (s : string) : list string := split_words s EmptyString.

(** [s.splitlines()]: a line ends at a line feed, a carriage return
    (with the line feed after it, if any), a vertical tab, a form feed,
    a file, group or record separator, or a next-line character. *)
Definition is_line_end (c : ascii) : bool :=
  let n := code c in
  ((n =? 10) || (n =? 11) || (n =? 12) || (n =? 28) || (n =? 29) || (n =? 30)
   || (n =? 133))%N.

Fixpoint split_lines (s line : string) : list string :=
  match s with
  | EmptyString => if truthy line then [line] else []
  | String c r =>
      if (code c =? 13)%N then
        match r with
        | String c' r' =>
            if (code c' =? 10)%N then line :: split_lines r' EmptyString
            else line :: split_lines r EmptyString
        | EmptyString => [line]
        end
      else if is_line_end c then line :: split_lines r EmptyString
      else split_lines r (line +:+ String c EmptyString)
  end.

Definition splitlines (s : string) : list string := split_lines s EmptyString.

(** Membership in a list of strings. *)
Definition among (x : string) (l : list string) : bool := existsb (String.eqb x) l.

End Text.

(** ** response_parser.py: occurrences and mentions *)

Module Mentions.
Import Py Text.

(** The test of lines 52-58: the context is within 200 characters of the
    match. *)
Definition near (content pattern near_context : string) (index : nat) : bool :=
  let window_start := Nat.max 0 (index - 200) in
  let window_end := Nat.min (String.length content) (index + String.length pattern + 200) in
  contains near_context (slice window_start window_end content).

(** Whether the match at [index] is recorded (lines 52-60). *)
Definition recorded (content pattern : string) (near_context : option string)
    (index : nat) : bool :=
  match near_context with
  | Some context => if truthy context then near content pattern context index else true
  | None => true
  end.

(** The loop of [_find_occurrences]; [None] when the fuel runs out. *)
Fixpoint occurrences_loop (fuel : nat) (content pattern : string)
    (near_context : option string) (start : nat) (occurrences : list nat)
  : option (list nat) :=
  match fuel with
  | O => None
  | S f =>
      match find content pattern start with
      | None => Some occurrences
      | Some index =>
          occurrences_loop f content pattern near_context (index + 1)
            (if recorded content pattern near_context index
             then occurrences ++ [index] else occurrences)
      end
  end.

(** [_find_occurrences] *)
Definition _find_occurrences (content pattern : string) (near_context : option string)
  : option (list nat) :=
  occurrences_loop (String.length content + 2) content pattern near_context 0 [].

(** What [get_file_mentions] and [get_ident_filename_matches] ask of the
    coder and of [os.path] and [pathlib]. *)
Record Env := mkEnv {
  get_all_relative_files : gset string;
  get_addable_relative_files : gset string;
  get_inchat_relative_files : list string;
  abs_read_only_fnames : list string;
  abs_read_only_stubs_fnames : list string;
  get_rel_fname : string -> string;
  basename : string -> string;               (* os.path.basename *)
  (* Path(fname).stem, or None for a ValueError *)
  stem : string -> option string }.

(** The quotes stripped from a word: double quote, apostrophe, backquote,
    star and underscore. *)
Definition quotes : string := String dquote "'`*_".

(** Lines 67-74: the words of the content. *)
Definition words_of (content : string) : list string :=
  map (strip_chars quotes) (map (rstrip_chars ",.!;:?") (split content)).

Definition normalized (s : string) : string := replace_char backslash "/" s.

(** The test of line 101 on a basename. *)
Definition not_a_plain_word (fname : string) : bool :=
  has_char fname "/" || has_char fname backslash || has_char fname "."
  || has_char fname "_" || has_char fname "-".

(** One round of the loop of line 92. *)
Definition scan_addable (E : Env) (words : list string)
    (acc : gset string * gmap string (list string)) (rel_fname : string)
  : gset string * gmap string (list string) :=
  let '(mentioned_rel_fnames, fname_to_rel_fnames) := acc in
  let mentioned_rel_fnames :=
    if among (normalized rel_fname) (map normalized words)
    then mentioned_rel_fnames ∪ {[rel_fname]} else mentioned_rel_fnames in
  let fname := basename E rel_fname in
  let fname_to_rel_fnames :=
    if not_a_plain_word fname
    then <[fname := default [] (fname_to_rel_fnames !! fname) ++ [rel_fname]]>
           fname_to_rel_fnames
    else fname_to_rel_fnames in
  (mentioned_rel_fnames, fname_to_rel_fnames).

(** One round of the loop of line 106. *)
Definition scan_basename (words existing_basenames : list string)
    (mentioned_rel_fnames : gset string) (item : string * list string) : gset string :=
  let (fname, rel_fnames) := item in
  if among fname existing_basenames then mentioned_rel_fnames
  else
    match rel_fnames with
    | [rel_fname] =>
        if among fname words then mentioned_rel_fnames ∪ {[rel_fname]}
        else mentioned_rel_fnames
    | _ => mentioned_rel_fnames
    end.

(** Lines 76-90: the files that may be mentioned, and the basenames of
    the files the chat holds already. *)
Definition addable_rel_fnames (E : Env) (ignore_current : bool) : gset string :=
  if ignore_current then get_all_relative_files E else get_addable_relative_files E.

Definition existing_basenames (E : Env) (ignore_current : bool) : list string :=
  if ignore_current then []
  else map (basename E) (get_inchat_relative_files E)
       ++ map (fun f => basename E (get_rel_fname E f))
            (abs_read_only_fnames E ++ abs_read_only_stubs_fnames E).

(** [get_file_mentions] *)
Definition get_file_mentions (E : Env) (content : string) (ignore_current : bool)
  : gset string :=
  let words := words_of content in
  let '(mentioned_rel_fnames, fname_to_rel_fnames) :=
    fold_left (scan_addable E words) (elements (addable_rel_fnames E ignore_current))
      (∅, ∅) in
  fold_left (scan_basename words (existing_basenames E ignore_current))
    (map_to_list fname_to_rel_fnames) mentioned_rel_fnames.

(** Lines 126-139: the files by the lower-cased stem of their name. *)
Definition index_file (E : Env) (all_fnames : gmap string (gset string)) (fname : string)
  : gmap string (gset string) :=
  if negb (truthy fname) || String.eqb fname "." then all_fnames
  else
    match stem E fname with
    | None => all_fnames
    | Some s =>
        let base := lower s in
        if (5 <=? String.length base)%nat
        then <[base := default ∅ (all_fnames !! base) ∪ {[fname]}]> all_fnames
        else all_fnames
    end.

(** Lines 141-145. *)
Definition match_ident (all_fnames : gmap string (gset string)) (matches : gset string)
    (ident : string) : gset string :=
  if (String.length ident <? 5)%nat then matches
  else matches ∪ default ∅ (all_fnames !! lower ident).

(** [get_ident_filename_matches] *)
Definition get_ident_filename_matches (E : Env) (idents : list string) : gset string :=
  let all_fnames := fold_left (index_file E) (elements (get_all_relative_files E)) ∅ in
  fold_left (match_ident all_fnames) idents ∅.

End Mentions.

(** ** file_manager.py: the path cache and the content of the files *)

Module Content.
Import Py Chat Session.

(** [abs_root_path] with its cache.  [resolve] is
    [utils.safe_abs_path(Path(self.coder.root) / path)]. *)
Definition abs_root_path (resolve : string -> string) (abs_root_path_cache : gmap string string)
    (path : string) : string * gmap string string :=
  match abs_root_path_cache !! path with
  | Some res => (res, abs_root_path_cache)
  | None =>
      let res := resolve path in
      (res, <[path := res]> abs_root_path_cache)
  end.

(** What the content functions ask of the coder.  [read_text] is
    [io.read_text]: what it prints itself, and the text, or [None] for a
    file it cannot read. *)
Record Env := mkEnv {
  read_text : string -> list event * option string;
  get_rel_fname : string -> string;
  is_image_file : string -> bool;            (* utils.is_image_file *)
  token_count : string -> nat;               (* main_model.token_count *)
  fence : string * string;
  context_management_enabled : bool;
  large_file_token_threshold : nat }.

(** One round of the generator [get_abs_fnames_content]: the pair it
    yields, if any. *)
Definition next_content (E : Env) (fname : string) (c : Coder)
  : option (string * string) * Coder :=
  let (printed, content) := read_text E fname in
  let c := print c printed in
  match content with
  | None =>
      let relative_fname := get_rel_fname E fname in
      let c := print c [tool_warning ("Dropping " +:+ relative_fname +:+ " from the chat.")] in
      (None, set_abs_fnames c (abs_fnames c ∖ {[fname]}))
  | Some content => (Some (fname, content), c)
  end.

Fixpoint contents_of (E : Env) (fnames : list string) (c : Coder)
  : list (string * string) * Coder :=
  match fnames with
  | [] => ([], c)
  | fname :: r =>
      let (yielded, c) := next_content E fname c in
      let (l, c) := contents_of E r c in
      (match yielded with Some y => y :: l | None => l end, c)
  end.

(** [get_abs_fnames_content], run to its end: the loop goes over
    [list(self.abs_fnames)], a copy taken at the start. *)
Definition get_abs_fnames_content (E : Env) (c : Coder) : list (string * string) * Coder :=
  contents_of E (elements (abs_fnames c)) c.

(** [lines[-n:]] for [n] at least 0: with [n] zero it is [lines[0:]]. *)
Definition last_lines (n : nat) (lines : list string) : list string :=
  match n with
  | O => lines
  | S _ => skipn (List.length lines - n) lines
  end.

(** Lines 75-79: the two chunks kept of a large file. *)
Definition chunks (threshold : nat) (lines : list string) : list string * list string :=
  let keep_lines := threshold / 40 in
  let first_chunk := firstn (keep_lines / 2) lines in
  let last_chunk := last_lines (keep_lines / 2) lines in
  (first_chunk, last_chunk).

(** Lines 72-88. *)
Definition truncated_content (E : Env) (file_tokens : nat) (content : string) : string :=
  let lines := Text.splitlines content in
  let (first_chunk, last_chunk) := chunks (large_file_token_threshold E) lines in
  join nl first_chunk
  +:+ (nl +:+ nl +:+ "... [File truncated due to size (" +:+ str_of_nat file_tokens
       +:+ " tokens). Use /context-management to toggle truncation off] ..." +:+ nl +:+ nl)
  +:+ join nl last_chunk.

(** The notice of line 91; its first two characters, a warning sign and
    a variation selector, are written in UTF-8. *)
Definition large_file_notice (relative_fname : string) (file_tokens : nat) : string :=
  "⚠️ '" +:+ relative_fname +:+ "' is very large (" +:+ str_of_nat file_tokens
  +:+ " tokens). Use /context-management to toggle truncation off if needed.".

(** Lines 61-103: what one yielded file adds to the prompt. *)
Definition file_block (E : Env) (fname content : string) (c : Coder) : string * Coder :=
  if is_image_file E fname then (EmptyString, c)
  else
    let relative_fname := get_rel_fname E fname in
    let head := nl +:+ relative_fname +:+ (nl +:+ fst (fence E) +:+ nl) in
    let (body, c) :=
      if context_management_enabled E then
        let file_tokens := token_count E content in
        if (large_file_token_threshold E <? file_tokens)%nat
        then (truncated_content E file_tokens content,
              print c [tool_output (large_file_notice relative_fname file_tokens)])
        else (content, c)
      else (content, c) in
    (head +:+ body +:+ (snd (fence E) +:+ nl), c).

Fixpoint files_content_loop (E : Env) (fnames : list string) (prompt : string) (c : Coder)
  : string * Coder :=
  match fnames with
  | [] => (prompt, c)
  | fname :: r =>
      let (yielded, c) := next_content E fname c in
      match yielded with
      | Some (fname, content) =>
          let (block, c) := file_block E fname content c in
          files_content_loop E r (prompt +:+ block) c
      | None => files_content_loop E r prompt c
      end
  end.

(** [get_files_content]; its argument [fnames] is assigned and never
    read. *)
Definition get_files_content (E : Env) (fnames : option (gset string)) (c : Coder)
  : string * Coder :=
  files_content_loop E (elements (abs_fnames c)) EmptyString c.

End Content.

(** ** file_manager.py: the lists of relative files *)

Module Listing.

(** The file manager with what it asks of the coder: [tracked] is
    [repo.get_tracked_files()], or [None] when the coder has no
    repository; [get_rel_fname] is [os.path.relpath] from the root, or
    the name itself when that raises ValueError (lines 168-173).  A
    sorted list without repetition is known by its elements. *)
Record Manager := mkManager {
  abs_fnames : gset string;
  abs_read_only_fnames : gset string;
  abs_read_only_stubs_fnames : gset string;
  tracked : option (list string);
  get_rel_fname : string -> string }.

(** [get_inchat_relative_files] *)
Definition get_inchat_relative_files (M : Manager) : gset string :=
  set_map (get_rel_fname M) (abs_fnames M).

(** [get_all_relative_files] *)
Definition get_all_relative_files (M : Manager) : gset string :=
  match tracked M with
  | Some files => list_to_set files
  | None => get_inchat_relative_files M
  end.

(** [get_addable_relative_files] *)
Definition get_addable_relative_files (M : Manager) : gset string :=
  let all_files := get_all_relative_files M in
  let inchat_files := get_inchat_relative_files M in
  let read_only_files : gset string := set_map (get_rel_fname M) (abs_read_only_fnames M) in
  let stub_files : gset string := set_map (get_rel_fname M) (abs_read_only_stubs_fnames M) in
  all_files ∖ inchat_files ∖ read_only_files ∖ stub_files.

End Listing.

(** ** tool_use.py: the tools of the servers *)

Module McpInit.
Import Py Chat ToolUse.

(** [get_server_tools]: [load] is [server.connect()] followed by
    [load_mcp_tools]; any [Exception] is caught and the server gives
    [None]. *)
Definition get_server_tools (load : McpServer -> result (list Tool)) (server : McpServer)
  : option (string * list Tool) * list event :=
  match load server with
  | Return server_tools => (Some (server_name server, server_tools), [])
  | Raise e =>
      (None,
       [tool_warning ("Error initializing MCP server " +:+ server_name server +:+ ":" +:+ nl
                      +:+ str_of_exception e)])
  end.

(** [get_all_server_tools] when no task is cancelled; the warnings are
    given in the order of the servers. *)
Fixpoint get_all_server_tools (load : McpServer -> result (list Tool))
    (mcp_servers : list McpServer) : list (string * list Tool) * list event :=
  match mcp_servers with
  | [] => ([], [])
  | server :: r =>
      let (result, printed) := get_server_tools load server in
      let (results, printed') := get_all_server_tools load r in
      (match result with Some t => t :: results | None => results end,
       printed ++ printed')
  end.

(** [s.split(nl)[0]] *)
Fixpoint first_line (s : string) : string :=
  match s with
  | EmptyString => EmptyString
  | String c r => if (code c =? 10)%N then EmptyString else String c (first_line r)
  end.

(** Lines 350-354: the line printed for a tool when verbose. *)
Definition tool_line (tool : Tool) : event :=
  let f := default ∅ (tool_function tool) in
  let tool_name := default "unknown" (f !! "name") in
  let tool_desc := first_line (default "" (f !! "description")) in
  tool_output ("    - " +:+ tool_name +:+ ": " +:+ tool_desc).

Definition server_lines (verbose : bool) (entry : string * list Tool) : list event :=
  tool_output ("  - " +:+ fst entry)
  :: (if verbose then map tool_line (snd entry) else []).

(** [initialize_mcp_tools] when no task is cancelled. *)
Definition initialize_mcp_tools (load : McpServer -> result (list Tool)) (c : Coder) : Coder :=
  let (tools, printed) :=
    match mcp_servers c with
    | [] => ([], [])
    | _ => get_all_server_tools load (mcp_servers c)
    end in
  let listing :=
    match tools with
    | [] => []
    | _ => tool_output "MCP servers configured:" :: flat_map (server_lines (verbose c)) tools
    end in
  {| mcp_servers := mcp_servers c; mcp_tools := tools;
     num_tool_calls := num_tool_calls c; max_tool_calls := max_tool_calls c;
     verbose := verbose c; cur_messages := cur_messages c;
     io := io c ++ printed ++ listing |}.

(** [get_tool_list] *)
Definition get_tool_list (c : Coder) : list Tool :=
  flat_map snd (mcp_tools c).

End McpInit.

(** * Properties *)

(** ** The JSON decoder always answers *)

Module JsonFacts.
Import Py Json.

(** A scanning function did not run out of fuel, and what it left is
    shorter than [n]. *)
Definition good {A} (n : nat) (o : outcome A) : Prop :=
  match o with
  | Parsed _ rest => String.length rest < n
  | DecodeError => True
  | NoFuel => False
  end.

Lemma good_mono {A} (n m : nat) (o : outcome A) : good n o -> n <= m -> good m o.
Proof. destruct o; simpl; auto; lia. Qed.

Lemma skip_ws_length (s : string) : String.length (skip_ws s) <= String.length s.
Proof.
  induction s as [|c r IH]; simpl; [lia|].
  destruct (is_ws c); simpl; lia.
Qed.

Lemma after_prefix_length (p s rest : string) :
  after_prefix p s = Some rest -> String.length rest + String.length p = String.length s.
Proof.
  revert s; induction p as [|a p IH]; intros s H; simpl in H.
  - inversion H; subst; simpl; lia.
  - destruct s as [|b s]; [discriminate|].
    destruct (Ascii.eqb a b); [|discriminate].
    apply IH in H. simpl. lia.
Qed.

Lemma span_digits_length (s : string) :
  String.length (snd (span_digits s)) <= String.length s.
Proof.
  induction s as [|c r IH]; simpl; [lia|].
  destruct (is_digit c); simpl; [|lia].
  destruct (span_digits r); simpl in *; lia.
Qed.

Lemma match_integer_length (s int rest : string) :
  match_integer s = Some (int, rest) -> String.length rest < String.length s.
Proof.
  destruct s as [|c r]; simpl; [discriminate|].
  destruct (Ascii.eqb c "0").
  - intros H; inversion H; subst; simpl; lia.
  - destruct (is_digit c); [|discriminate].
    pose proof (span_digits_length r) as L.
    destruct (span_digits r); simpl in *.
    intros H; inversion H; subst; lia.
Qed.

Lemma match_frac_length (s : string) :
  String.length (snd (match_frac s)) <= String.length s.
Proof.
  destruct s as [|c r]; simpl; [lia|].
  destruct (Ascii.eqb c "."); simpl; [|lia].
  pose proof (span_digits_length r) as L.
  destruct (span_digits r) as [[|d ds] rest]; simpl in *; lia.
Qed.

Lemma match_exp_length (s : string) :
  String.length (snd (match_exp s)) <= String.length s.
Proof.
  destruct s as [|c r]; simpl; [lia|].
  destruct (Ascii.eqb c "e" || Ascii.eqb c "E"); simpl; [|lia].
  destruct r as [|g r2]; simpl; [lia|].
  destruct (Ascii.eqb g "-" || Ascii.eqb g "+").
  - pose proof (span_digits_length r2) as L.
    destruct (span_digits r2) as [[|d ds] rest]; simpl in *; lia.
  - pose proof (span_digits_length (String g r2)) as L.
    destruct (span_digits (String g r2)) as [[|d ds] rest]; simpl in *; lia.
Qed.

Lemma match_number_length (s int frac exp rest : string) :
  match_number s = Some (int, frac, exp, rest) -> String.length rest < String.length s.
Proof.
  unfold match_number.
  assert (Hs : forall s', match_integer s' = None \/
            exists i r1, match_integer s' = Some (i, r1)
                         /\ String.length r1 < String.length s').
  { intros s'. destruct (match_integer s') as [[i r1]|] eqn:E; [right|left; reflexivity].
    exists i, r1. split; [reflexivity|]. eapply match_integer_length; eauto. }
  set (p := match s with
            | EmptyString => ("", s)
            | String c r => if Ascii.eqb c "-" then ("-", r) else ("", s)
            end).
  assert (Hp : String.length (snd p) <= String.length s).
  { subst p. destruct s as [|c r]; simpl; [lia|].
    destruct (Ascii.eqb c "-"); simpl; lia. }
  destruct p as [sign s']. simpl in Hp.
  destruct (Hs s') as [E | (i & r1 & E & L)]; rewrite E; [discriminate|].
  pose proof (match_frac_length r1) as Lf.
  destruct (match_frac r1) as [fr r2]. simpl in Lf.
  pose proof (match_exp_length r2) as Le.
  destruct (match_exp r2) as [ex r3]. simpl in Le.
  intros H; inversion H; subst. lia.
Qed.

(** [scanstring] is total and consumes the closing quote. *)
Lemma scanstring_good (n : nat) :
  forall s chunks, String.length s <= n -> good (String.length s) (scanstring s chunks).
Proof.
  induction n as [|n IH]; intros s chunks Hn.
  - destruct s; simpl in *; [exact I | lia].
  - destruct s as [|c r]; [exact I|].
    simpl scanstring.
    repeat case_match; subst;
      try exact I;
      try (simpl; lia);
      (eapply good_mono; [apply IH; simpl in *; lia | simpl; lia]).
Qed.

Lemma good_after_prefix {A} (p s rest : string) (v : A) :
  after_prefix p s = Some rest -> 0 < String.length p ->
  good (String.length s) (Parsed v rest).
Proof. intros H Hp. apply after_prefix_length in H. simpl. lia. Qed.

(** With fuel for twice the length of the text, the three mutually
    recursive scanning functions never run out of it, and each consumes
    at least one character when it succeeds. *)
Lemma scanners_good (fuel : nat) :
  (forall s, 2 * String.length s + 2 <= fuel ->
             good (String.length s) (scan_once fuel s))
  /\ (forall s pairs, 2 * String.length s + 1 <= fuel ->
                      good (String.length s) (object_loop fuel s pairs))
  /\ (forall s values, 2 * String.length s + 3 <= fuel ->
                       good (String.length s) (array_loop fuel s values)).
Proof.
  induction fuel as [|f (IHs & IHo & IHa)].
  { repeat split; intros; lia. }
  repeat split.
  - (* scan_once *)
    intros s Hf. destruct s as [|c r]; [exact I|].
    cbn [scan_once].
    destruct (Ascii.eqb c dquote).
    { pose proof (scanstring_good _ r [] (Nat.le_refl _)) as G.
      destruct (scanstring r []); simpl in *; auto; lia. }
    destruct (Ascii.eqb c "{").
    { pose proof (skip_ws_length r) as L.
      destruct (skip_ws r) as [|c' r']; [exact I|]. simpl in L.
      destruct (Ascii.eqb c' "}"); [simpl; lia|].
      destruct (Ascii.eqb c' dquote); [|exact I].
      eapply good_mono; [apply IHo; simpl in *; lia | simpl; lia]. }
    destruct (Ascii.eqb c "[").
    { pose proof (skip_ws_length r) as L.
      destruct (skip_ws r) as [|c' r'].
      - eapply good_mono; [apply IHa; simpl in *; lia | simpl; lia].
      - simpl in L. destruct (Ascii.eqb c' "]"); [simpl; lia|].
        eapply good_mono; [apply IHa; simpl in *; lia | simpl; lia]. }
    destruct (after_prefix "null" (String c r)) eqn:E1.
    { eapply good_after_prefix; [exact E1 | simpl; lia]. }
    destruct (after_prefix "true" (String c r)) eqn:E2.
    { eapply good_after_prefix; [exact E2 | simpl; lia]. }
    destruct (after_prefix "false" (String c r)) eqn:E3.
    { eapply good_after_prefix; [exact E3 | simpl; lia]. }
    destruct (match_number (String c r)) as [[[[int frac] exp] rest]|] eqn:En.
    { apply match_number_length in En.
      destruct (truthy frac || truthy exp); simpl in *; lia. }
    destruct (after_prefix "NaN" (String c r)) eqn:E4.
    { eapply good_after_prefix; [exact E4 | simpl; lia]. }
    destruct (after_prefix "Infinity" (String c r)) eqn:E5.
    { eapply good_after_prefix; [exact E5 | simpl; lia]. }
    destruct (after_prefix "-Infinity" (String c r)) eqn:E6.
    { eapply good_after_prefix; [exact E6 | simpl; lia]. }
    exact I.
  - (* object_loop *)
    intros s pairs Hf. cbn [object_loop].
    pose proof (scanstring_good _ s [] (Nat.le_refl _)) as G.
    destruct (scanstring s []) as [key r| |]; simpl in G; [|exact I|contradiction].
    pose proof (skip_ws_length r) as L.
    destruct (skip_ws r) as [|c r1]; [exact I|]. simpl in L.
    destruct (Ascii.eqb c ":"); [|exact I].
    pose proof (skip_ws_length r1) as L1.
    assert (G2 : good (String.length (skip_ws r1)) (scan_once f (skip_ws r1))).
    { apply IHs. lia. }
    destruct (scan_once f (skip_ws r1)) as [v r2| |]; simpl in G2; [|exact I|contradiction].
    pose proof (skip_ws_length r2) as L2.
    destruct (skip_ws r2) as [|c' r3]; [exact I|]. simpl in L2.
    destruct (Ascii.eqb c' "}"); [simpl; lia|].
    destruct (Ascii.eqb c' ","); [|exact I].
    pose proof (skip_ws_length r3) as L3.
    destruct (skip_ws r3) as [|c'' r4]; [exact I|]. simpl in L3.
    destruct (Ascii.eqb c'' dquote); [|exact I].
    eapply good_mono; [apply IHo; lia | lia].
  - (* array_loop *)
    intros s values Hf. cbn [array_loop].
    assert (G : good (String.length s) (scan_once f s)) by (apply IHs; lia).
    destruct (scan_once f s) as [v r| |]; simpl in G; [|exact I|contradiction].
    pose proof (skip_ws_length r) as L.
    destruct (skip_ws r) as [|c r1]; [exact I|]. simpl in L.
    destruct (Ascii.eqb c "]"); [simpl; lia|].
    destruct (Ascii.eqb c ","); [|exact I].
    pose proof (skip_ws_length r1) as L1.
    eapply good_mono; [apply IHa; lia | lia].
Qed.

Lemma raw_decode_good (s : string) : good (String.length s) (raw_decode s).
Proof.
  unfold raw_decode, fuel_for.
  apply (proj1 (scanners_good _)). lia.
Qed.

(** [json.loads] answers on every text: a value or a [JSONDecodeError]. *)
Lemma decode_total (s : string) : decode s <> NoFuel.
Proof.
  unfold decode.
  pose proof (raw_decode_good (skip_ws s)) as G.
  destruct (raw_decode (skip_ws s)); simpl in G; try contradiction; try discriminate.
  destruct (skip_ws rest); discriminate.
Qed.

Lemma loads_None (s : string) : loads s = None <-> decode s = DecodeError.
Proof.
  unfold loads. pose proof (decode_total s).
  destruct (decode s); split; intros; congruence.
Qed.

End JsonFacts.

(** ** response_parser.py: the parse-recovery policy *)

Module ResponseParserSpec.
Import Py Json ResponseParser.

(** The policy in the specification's words: a strict parse, then a
    parse with each of three endings appended, in this order; the first
    parse that succeeds is the answer. *)
Definition endings : list string := [""; "]}"; "}]}"; String dquote "}]}"].

Fixpoint first_parse (data : string) (l : list string) : option value :=
  match l with
  | [] => None
  | ending :: r =>
      match loads (data +:+ ending) with
      | Some v => Some v
      | None => first_parse data r
      end
  end.

Definition parse_recovery (data : option string) : option value :=
  match data with
  | Some (String c r) => first_parse (String c r) endings
  | _ => None
  end.

Definition buffer (data : string) : gmap string string :=
  {[ "arguments" := quoted data ]}.

Lemma append_empty (s : string) : s +:+ "" = s.
Proof.
  induction s as [|c r IH]; [reflexivity|].
  change (String c (r +:+ "") = String c r). now rewrite IH.
Qed.

(** C2, as the code has it.  [parse_partial_args] follows the recovery
    policy: nothing for a missing or empty buffer, otherwise the first
    parse that succeeds among the strict one and the ones with the
    endings ]} then }]} then quote-}]} appended, and nothing when all
    four fail; every attempt ends with a value or a decode error.  The
    endings close an object that holds an array of objects (below, an
    apostrophe stands for a double quote): for the buffer {'e':[{'a':1}
    the ending ]} is the first to succeed, for {'e':[{'a':1 it is }]},
    for {'e':[{'a':'x it is quote-}]}.  For the buffers [{'a':1 and
    [{'a':1} and [{'a':'x all four attempts fail. *)
Theorem parse_partial_args_recovery :
  (forall call : gmap string string,
      parse_partial_args call = parse_recovery (call !! "arguments"))
  /\ (forall s, decode s <> NoFuel)
  /\ (loads (quoted "{'e':[{'a':1}") = None
      /\ parse_partial_args (buffer "{'e':[{'a':1}")
         = loads (quoted "{'e':[{'a':1}" +:+ "]}")
      /\ parse_partial_args (buffer "{'e':[{'a':1}")
         = Some (JObject [(codes "e", JArray [JObject [(codes "a", JInt 1)]])]))
  /\ (first_parse (quoted "{'e':[{'a':1") [""; "]}"] = None
      /\ parse_partial_args (buffer "{'e':[{'a':1")
         = loads (quoted "{'e':[{'a':1" +:+ "}]}")
      /\ parse_partial_args (buffer "{'e':[{'a':1")
         = Some (JObject [(codes "e", JArray [JObject [(codes "a", JInt 1)]])]))
  /\ (first_parse (quoted "{'e':[{'a':'x") [""; "]}"; "}]}"] = None
      /\ parse_partial_args (buffer "{'e':[{'a':'x")
         = loads (quoted "{'e':[{'a':'x" +:+ String dquote "}]}")
      /\ parse_partial_args (buffer "{'e':[{'a':'x")
         = Some (JObject [(codes "e", JArray [JObject [(codes "a", JString (codes "x"))]])]))
  /\ (parse_partial_args (buffer "[{'a':1") = None
      /\ parse_partial_args (buffer "[{'a':1}") = None
      /\ parse_partial_args (buffer "[{'a':'x") = None).
Proof.
  split; [|split; [exact JsonFacts.decode_total|]].
  - intros call. unfold parse_partial_args, parse_recovery.
    destruct (call !! "arguments") as [[|c r]|]; try reflexivity.
    unfold endings, first_parse.
    rewrite (append_empty (String c r)).
    cbn [truthy negb].
    repeat (destruct (loads _); [reflexivity|]); reflexivity.
  - repeat split; vm_compute; reflexivity.
Qed.

(** C2 as stated fails: for the buffer [{'a':1 the attempt with ]}
    appended does not parse (nor does any other), and nothing is
    returned; the same holds for [{'a':1} with }]} and for [{'a':'x
    with quote-}]}. *)
Lemma parse_partial_args_array_buffers :
  loads (quoted "[{'a':1" +:+ "]}") = None
  /\ parse_partial_args (buffer "[{'a':1") = None
  /\ loads (quoted "[{'a':1}" +:+ "}]}") = None
  /\ parse_partial_args (buffer "[{'a':1}") = None
  /\ loads (quoted "[{'a':'x" +:+ String dquote "}]}") = None
  /\ parse_partial_args (buffer "[{'a':'x") = None.
Proof. repeat split; vm_compute; reflexivity. Qed.

End ResponseParserSpec.

(** ** tool_use.py: routing *)

Module RoutingSpec.
Import Py Chat ToolUse.

(** The first configured server of a name: the one the loop of line 140
    stops at. *)
Definition named_server (mcp_servers : list McpServer) (n : string) : option McpServer :=
  List.find (fun server => String.eqb (server_name server) n) mcp_servers.

(** The servers a call is sent to: one for every advertised tool whose
    name matches, in the order of the scan. *)
Definition advertisers (mcp_servers : list McpServer)
    (mcp_tools : list (string * list Tool)) (tool_call : ToolCall) : list McpServer :=
  flat_map
    (fun nt : string * list Tool =>
       flat_map
         (fun tool =>
            if name_matches tool tool_call
            then match named_server mcp_servers (fst nt) with
                 | Some server => [server]
                 | None => []
                 end
            else [])
         (snd nt))
    mcp_tools.

Definition routed (mcp_servers : list McpServer) (mcp_tools : list (string * list Tool))
    (tool_calls : list ToolCall) : list (McpServer * ToolCall) :=
  flat_map
    (fun tool_call =>
       map (fun server => (server, tool_call)) (advertisers mcp_servers mcp_tools tool_call))
    tool_calls.

Definition dict_extend (d : ServerToolCalls) (l : list (McpServer * ToolCall))
  : ServerToolCalls :=
  fold_left (fun d st => dict_append d (fst st) (snd st)) l d.

Definition sent_to (server : McpServer) (l : list (McpServer * ToolCall)) : list ToolCall :=
  map snd (List.filter (fun st => bool_decide (fst st = server)) l).

Lemma dict_extend_app d l1 l2 :
  dict_extend d (l1 ++ l2) = dict_extend (dict_extend d l1) l2.
Proof. apply fold_left_app. Qed.

Lemma add_to_named_server_extend mcp_servers n tool_call d :
  add_to_named_server mcp_servers n tool_call d
  = dict_extend d (match named_server mcp_servers n with
                   | Some server => [(server, tool_call)]
                   | None => []
                   end).
Proof.
  unfold named_server.
  induction mcp_servers as [|server r IH]; simpl; [reflexivity|].
  destruct (String.eqb (server_name server) n); [reflexivity | exact IH].
Qed.

Lemma scan_server_tools_extend mcp_servers n server_tools tool_call :
  forall d,
    scan_server_tools mcp_servers n server_tools tool_call d
    = dict_extend d
        (map (fun server => (server, tool_call))
           (flat_map (fun tool =>
                        if name_matches tool tool_call
                        then match named_server mcp_servers n with
                             | Some server => [server]
                             | None => []
                             end
                        else [])
                     server_tools)).
Proof.
  induction server_tools as [|tool r IH]; intros d; simpl; [reflexivity|].
  rewrite IH, map_app, dict_extend_app. f_equal.
  destruct (name_matches tool tool_call); [|reflexivity].
  rewrite add_to_named_server_extend.
  destruct (named_server mcp_servers n); reflexivity.
Qed.

Lemma scan_mcp_tools_extend mcp_servers mcp_tools tool_call :
  forall d,
    scan_mcp_tools mcp_servers mcp_tools tool_call d
    = dict_extend d
        (map (fun server => (server, tool_call))
           (advertisers mcp_servers mcp_tools tool_call)).
Proof.
  unfold advertisers.
  induction mcp_tools as [|[n server_tools] r IH]; intros d; simpl; [reflexivity|].
  rewrite IH, scan_server_tools_extend, map_app, dict_extend_app. reflexivity.
Qed.

Lemma scan_tool_calls_extend mcp_servers mcp_tools tool_calls :
  forall d,
    scan_tool_calls mcp_servers mcp_tools tool_calls d
    = dict_extend d (routed mcp_servers mcp_tools tool_calls).
Proof.
  unfold routed.
  induction tool_calls as [|tool_call r IH]; intros d; simpl; [reflexivity|].
  rewrite IH, scan_mcp_tools_extend, dict_extend_app. reflexivity.
Qed.

Lemma dict_get_append d server tool_call s :
  dict_get (dict_append d server tool_call) s
  = if decide (server = s) then dict_get d s ++ [tool_call] else dict_get d s.
Proof.
  induction d as [|[k l] r IH]; simpl.
  - destruct (decide (server = s)); reflexivity.
  - destruct (decide (k = server)) as [->|Hk]; simpl.
    + destruct (decide (server = s)); reflexivity.
    + destruct (decide (k = s)) as [->|Hs].
      * destruct (decide (server = s)); [congruence | reflexivity].
      * exact IH.
Qed.

Lemma dict_get_extend l s :
  forall d, dict_get (dict_extend d l) s = dict_get d s ++ sent_to s l.
Proof.
  unfold sent_to.
  induction l as [|[server tool_call] r IH]; intros d; simpl.
  - now rewrite app_nil_r.
  - unfold dict_extend in *. simpl. rewrite IH, dict_get_append.
    destruct (decide (server = s)) as [->|Hs].
    + rewrite bool_decide_true by reflexivity. simpl. now rewrite <- app_assoc.
    + rewrite bool_decide_false by assumption. reflexivity.
Qed.

Lemma keys_append d server tool_call :
  map fst (dict_append d server tool_call)
  = if bool_decide (server ∈ map fst d) then map fst d else map fst d ++ [server].
Proof.
  induction d as [|[k l] r IH]; simpl; [reflexivity|].
  destruct (decide (k = server)) as [->|Hk]; simpl.
  - rewrite bool_decide_true by set_solver. reflexivity.
  - rewrite IH. destruct (bool_decide (server ∈ map fst r)) eqn:E.
    + apply bool_decide_eq_true in E.
      rewrite bool_decide_true by set_solver. reflexivity.
    + apply bool_decide_eq_false in E.
      rewrite bool_decide_false by set_solver. reflexivity.
Qed.

Lemma keys_extend l :
  forall d, NoDup (map fst d) ->
    NoDup (map fst (dict_extend d l))
    /\ (forall s, s ∈ map fst (dict_extend d l) <-> s ∈ map fst d \/ s ∈ map fst l).
Proof.
  induction l as [|[server tool_call] r IH]; intros d Hd; simpl.
  - split; [exact Hd | intros s; set_solver].
  - assert (Hk := keys_append d server tool_call).
    assert (Hd' : NoDup (map fst (dict_append d server tool_call))).
    { rewrite Hk. destruct (bool_decide (server ∈ map fst d)) eqn:E; [exact Hd|].
      apply bool_decide_eq_false in E.
      apply NoDup_app. repeat split; [exact Hd | set_solver | apply NoDup_singleton]. }
    destruct (IH _ Hd') as [N M]. split; [exact N|].
    intros s. unfold dict_extend in M. simpl in M. rewrite M, Hk.
    destruct (bool_decide (server ∈ map fst d)) eqn:E.
    + apply bool_decide_eq_true in E. set_solver.
    + set_solver.
Qed.

Lemma sent_to_app s l1 l2 : sent_to s (l1 ++ l2) = sent_to s l1 ++ sent_to s l2.
Proof. unfold sent_to. now rewrite List.filter_app, map_app. Qed.

Lemma sent_to_one_call s tool_call l :
  sent_to s (map (fun server => (server, tool_call)) l)
  = repeat tool_call (count_occ McpServer_eq_dec l s).
Proof.
  unfold sent_to. induction l as [|server r IH]; simpl; [reflexivity|].
  destruct (McpServer_eq_dec server s) as [->|Hs].
  - rewrite bool_decide_true by reflexivity. simpl. now rewrite IH.
  - rewrite bool_decide_false by assumption. exact IH.
Qed.

Lemma count_occ_repeat (x y : ToolCall) n :
  count_occ ToolCall_eq_dec (repeat x n) y = if decide (x = y) then n else 0.
Proof.
  induction n as [|n IH]; simpl.
  - destruct (decide (x = y)); reflexivity.
  - destruct (ToolCall_eq_dec x y) as [e|ne]; rewrite IH;
      destruct (decide (x = y)); try reflexivity; contradiction.
Qed.

Lemma sent_to_routed_count mcp_servers mcp_tools tool_calls s tool_call :
  count_occ ToolCall_eq_dec (sent_to s (routed mcp_servers mcp_tools tool_calls)) tool_call
  = count_occ ToolCall_eq_dec tool_calls tool_call
    * count_occ McpServer_eq_dec (advertisers mcp_servers mcp_tools tool_call) s.
Proof.
  unfold routed. induction tool_calls as [|tc r IH]; simpl; [reflexivity|].
  rewrite sent_to_app, count_occ_app, IH, sent_to_one_call, count_occ_repeat.
  destruct (ToolCall_eq_dec tc tool_call) as [e|ne];
    destruct (decide (tc = tool_call)); try contradiction; subst; lia.
Qed.

Lemma routed_servers mcp_servers mcp_tools tool_calls s :
  s ∈ map fst (routed mcp_servers mcp_tools tool_calls)
  <-> exists tool_call, tool_call ∈ tool_calls
                        /\ s ∈ advertisers mcp_servers mcp_tools tool_call.
Proof.
  unfold routed. rewrite list_elem_of_In, in_map_iff. split.
  - intros ([s' tc] & <- & H). apply in_flat_map in H as (tc' & Hc & H).
    apply in_map_iff in H as (s'' & E & H). inversion E; subst.
    exists tc. split; apply list_elem_of_In; assumption.
  - intros (tc & Hc & H). apply list_elem_of_In in Hc. apply list_elem_of_In in H.
    exists (s, tc). split; [reflexivity|].
    apply in_flat_map. exists tc. split; [assumption|].
    apply in_map_iff. exists s. split; [reflexivity | assumption].
Qed.

Lemma name_matches_spec tool tool_call :
  name_matches tool tool_call = true
  <-> exists n, tool_name_from_schema tool = Some n /\ n <> ""
                /\ lower n = lower (name (function tool_call)).
Proof.
  unfold name_matches. destruct (tool_name_from_schema tool) as [n|].
  - rewrite andb_true_iff, String.eqb_eq. split.
    + intros [T L]. exists n. repeat split; [|exact L].
      intros ->. discriminate.
    + intros (n' & E & T & L). inversion E; subst. split; [|exact L].
      destruct n'; [contradiction | reflexivity].
  - split; [discriminate | intros (n & E & _); discriminate].
Qed.

(** A call is routed by its function name alone. *)
Lemma advertisers_by_name mcp_servers mcp_tools tc tc' :
  name (function tc) = name (function tc') ->
  advertisers mcp_servers mcp_tools tc = advertisers mcp_servers mcp_tools tc'.
Proof.
  intros H. unfold advertisers, name_matches. now rewrite H.
Qed.

Lemma expand_tool_call_name split tool_call tc :
  tc ∈ expand_tool_call split tool_call ->
  name (function tc) = name (function tool_call).
Proof.
  unfold expand_tool_call.
  destruct (_ || _); [intros H; apply list_elem_of_singleton in H; now subst|].
  destruct (_ <=? _)%nat; [intros H; apply list_elem_of_singleton in H; now subst|].
  rewrite list_elem_of_In, in_flat_map. intros ([i chunk] & _ & H). simpl in H.
  destruct (negb _); [destruct H|]. destruct H as [<-|[]]. reflexivity.
Qed.

Lemma routed_nil mcp_servers mcp_tools tool_calls :
  (forall tc, tc ∈ tool_calls -> advertisers mcp_servers mcp_tools tc = []) ->
  routed mcp_servers mcp_tools tool_calls = [].
Proof.
  unfold routed. induction tool_calls as [|tc r IH]; intros H; simpl; [reflexivity|].
  rewrite (H tc) by set_solver. simpl. apply IH. intros; apply H; set_solver.
Qed.

(** When no call of a response matches an advertised tool, nothing is
    run and no message is added. *)
Lemma process_tool_calls_no_match E ask c response :
  (forall tc, tc ∈ default [] (original_tool_calls response) ->
              advertisers (ToolUse.mcp_servers c) (ToolUse.mcp_tools c) tc = []) ->
  fst (process_tool_calls E ask c response) = false
  /\ cur_messages (snd (process_tool_calls E ask c response)) = cur_messages c.
Proof.
  intros H. unfold process_tool_calls.
  destruct (original_tool_calls response) as [calls|]; [|split; reflexivity].
  simpl in H.
  assert (G : nonempty (_gather_server_tool_calls (ToolUse.mcp_servers c)
                          (ToolUse.mcp_tools c)
                          (expand_tool_calls (split_concatenated_json E) calls)) = None).
  { unfold _gather_server_tool_calls.
    destruct (ToolUse.mcp_tools c) eqn:Et; [reflexivity|]. rewrite <- Et.
    rewrite scan_tool_calls_extend, routed_nil; [reflexivity|].
    intros tc Htc. unfold expand_tool_calls in Htc.
    apply list_elem_of_In, in_flat_map in Htc as (tc0 & H0 & Htc).
    apply list_elem_of_In in H0, Htc.
    rewrite (advertisers_by_name _ _ tc tc0) by (eapply expand_tool_call_name; eauto).
    rewrite Et. now apply H. }
  rewrite G. destruct (_ <=? _)%nat; split; reflexivity.
Qed.

(** Two servers and the tools they advertise. *)
Definition alpha : McpServer := {| ident := 0; server_name := "alpha"; is_local := false |}.
Definition beta : McpServer := {| ident := 1; server_name := "beta"; is_local := false |}.

Definition tool (n : string) : Tool := {| tool_function := Some {[ "name" := n ]} |}.

Definition call (i n : string) : ToolCall :=
  {| id := i; type := "function"; function := {| name := n; arguments := "{}" |} |}.

End RoutingSpec.

(** ** tool_use.py: expansion of concatenated arguments *)

Module ExpansionSpec.
Import Py Chat ToolUse.

Lemma rstrip_empty (x : string) :
  rstrip x = "" -> x = "" \/ exists c r, x = String c r /\ isspace c = true.
Proof.
  destruct x as [|c r]; [now left|]. simpl.
  destruct (rstrip r); [|discriminate].
  destruct (isspace c) eqn:E; [|discriminate].
  intros _. right. eauto.
Qed.

Lemma lstrip_head (s : string) c r : lstrip s = String c r -> isspace c = false.
Proof.
  induction s as [|a s IH]; simpl; [discriminate|].
  destruct (isspace a) eqn:E; [exact IH|].
  intros H. inversion H; subst. exact E.
Qed.

Lemma strip_empty (s : string) : strip s = "" -> lstrip s = "".
Proof.
  unfold strip. intros H. apply rstrip_empty in H as [H | (c & r & H & Hc)]; [exact H|].
  apply lstrip_head in H. congruence.
Qed.

(** A character that Python strips and JSON does not skip starts no
    JSON value. *)
Lemma scan_once_space f c r :
  isspace c = true -> Json.is_ws c = false ->
  Json.scan_once (S f) (String c r) = Json.DecodeError.
Proof.
  intros H1 H2.
  destruct c as [[] [] [] [] [] [] [] []];
    try (vm_compute in H1; discriminate);
    try (vm_compute in H2; discriminate);
    reflexivity.
Qed.

Lemma skip_ws_blank (s : string) :
  lstrip s = "" ->
  Json.skip_ws s = ""
  \/ exists c r, Json.skip_ws s = String c r /\ isspace c = true /\ Json.is_ws c = false.
Proof.
  induction s as [|a s IH]; simpl; [now left|].
  destruct (isspace a) eqn:E; [|discriminate].
  intros H. destruct (Json.is_ws a) eqn:W; [exact (IH H)|].
  right. eauto.
Qed.

(** A text that parses as JSON is not blank. *)
Lemma loads_nonblank (chunk : string) v :
  Json.loads chunk = Some v -> truthy (strip chunk) = true.
Proof.
  intros H. destruct (strip chunk) eqn:E; [|reflexivity]. exfalso.
  apply strip_empty, skip_ws_blank in E.
  unfold Json.loads, Json.decode, Json.raw_decode, Json.fuel_for in H.
  destruct E as [E | (c & r & E & Hc & Hw)]; rewrite E in H.
  - simpl in H. discriminate.
  - replace (2 * String.length (String c r) + 2) with (S (2 * String.length (String c r) + 1))
      in H by lia.
    rewrite scan_once_space in H by assumption. discriminate.
Qed.


Definition two_objects : ToolCall :=
  {| id := "call_7"; type := "function";
     function := {| name := "search"; arguments := quoted " {'a':1}{'b':2} " |} |}.

Definition one_object : ToolCall :=
  {| id := "call_8"; type := "function";
     function := {| name := "search"; arguments := quoted "{'a':1}" |} |}.


End ExpansionSpec.

(** ** tool_use.py: execution of one server's calls *)

Module ExecutionSpec.
Import Py Chat ToolUse.

(** What the loop does with one call in a session: the results of its
    remote calls, or the first exception. *)
Definition call_outcome (E : Env) (server : McpServer) (tool_call : ToolCall)
    (session : list ToolCall) : result (list string) * list ToolCall :=
  call_each E server tool_call (fst (parsed_args E tool_call)) session [].

(** A response that answers [tool_call]: its success payload, or the
    error text of its own exception. *)
Inductive answers (tool_call : ToolCall) : Message -> Prop :=
| answers_success (all_results_content : list string) :
    answers tool_call
      (tool_message (id tool_call) (join (nl +:+ nl) all_results_content))
| answers_error (e : Exception) :
    answers tool_call (tool_message (id tool_call) (tool_error_text tool_call e)).

Lemma exec_tool_call_response E server tool_call session :
  exec_tool_call E server tool_call session
  = match call_outcome E server tool_call session with
    | (Return all_results_content, session') =>
        (tool_message (id tool_call) (join (nl +:+ nl) all_results_content),
         session', snd (parsed_args E tool_call))
    | (Raise e, session') =>
        (tool_message (id tool_call) (tool_error_text tool_call e), session',
         snd (parsed_args E tool_call) ++
         [tool_warning ("Executing " +:+ name (function tool_call) +:+ " on "
                        +:+ server_name server +:+ " failed: " +:+ nl +:+ "  Error: "
                        +:+ str_of_exception e +:+ nl)])
    end.
Proof.
  unfold exec_tool_call, call_outcome.
  destruct (parsed_args E tool_call) as [l w]. reflexivity.
Qed.

Lemma exec_tool_call_answers E server tool_call session :
  answers tool_call (fst (fst (exec_tool_call E server tool_call session))).
Proof.
  rewrite exec_tool_call_response.
  destruct (call_outcome E server tool_call session) as [[l|e] session']; constructor.
Qed.

(** The loop answers every call, in order, whatever the calls before it
    did. *)
Lemma exec_tool_calls_list_answers E server tool_calls_list :
  forall session,
    Forall2 answers tool_calls_list
      (fst (exec_tool_calls_list E server tool_calls_list session)).
Proof.
  induction tool_calls_list as [|tc r IH]; intros session; simpl; [constructor|].
  pose proof (exec_tool_call_answers E server tc session) as A.
  destruct (exec_tool_call E server tc session) as [[response session'] printed].
  specialize (IH session').
  destruct (exec_tool_calls_list E server r session') as [responses printed'].
  constructor; assumption.
Qed.

Lemma answers_id tool_call response :
  answers tool_call response -> tool_call_id response = Some (id tool_call).
Proof. intros []; reflexivity. Qed.

Lemma Forall2_answers_ids tool_calls responses :
  Forall2 answers tool_calls responses ->
  map tool_call_id responses = map (fun tc => Some (id tc)) tool_calls.
Proof.
  induction 1 as [|tc response l l' A _ IH]; simpl; [reflexivity|].
  now rewrite (answers_id _ _ A), IH.
Qed.

Lemma connection_errors_ids text tool_calls :
  map tool_call_id (connection_errors text tool_calls)
  = map (fun tc => Some (id tc)) tool_calls.
Proof. unfold connection_errors. rewrite map_map. reflexivity. Qed.

(** A call that raises gets its own error text, and the calls after it
    are run in the session it left. *)
Lemma exec_tool_calls_list_raise E server tc rest session e session' :
  call_outcome E server tc session = (Raise e, session') ->
  fst (exec_tool_calls_list E server (tc :: rest) session)
  = tool_message (id tc) (tool_error_text tc e)
    :: fst (exec_tool_calls_list E server rest session').
Proof.
  intros H. simpl. rewrite exec_tool_call_response, H.
  destruct (exec_tool_calls_list E server rest session'). reflexivity.
Qed.

Lemma exec_tool_calls_list_return E server tc rest session l session' :
  call_outcome E server tc session = (Return l, session') ->
  fst (exec_tool_calls_list E server (tc :: rest) session)
  = tool_message (id tc) (join (nl +:+ nl) l)
    :: fst (exec_tool_calls_list E server rest session').
Proof.
  intros H. simpl. rewrite exec_tool_call_response, H.
  destruct (exec_tool_calls_list E server rest session'). reflexivity.
Qed.

Lemma exec_tool_calls_list_app E server l1 l2 :
  forall session,
    exists session',
      fst (exec_tool_calls_list E server (l1 ++ l2) session)
      = fst (exec_tool_calls_list E server l1 session)
        ++ fst (exec_tool_calls_list E server l2 session').
Proof.
  induction l1 as [|tc r IH]; intros session; simpl.
  - exists session. reflexivity.
  - destruct (exec_tool_call E server tc session) as [[response s1] printed].
    destruct (IH s1) as [session' H]. exists session'.
    destruct (exec_tool_calls_list E server (r ++ l2) s1).
    destruct (exec_tool_calls_list E server r s1).
    destruct (exec_tool_calls_list E server l2 session').
    simpl in *. now rewrite H.
Qed.

(** On a server that is not local, the responses carry the identifiers
    of the routed calls, one each, in order. *)
Lemma exec_server_tools_ids E server tool_calls_list :
  is_local server = false \/ execute_local_tool_calls E = None ->
  map tool_call_id (fst (_exec_server_tools E server tool_calls_list))
  = map (fun tc => Some (id tc)) tool_calls_list.
Proof.
  intros H. unfold _exec_server_tools.
  destruct (is_local server) eqn:Hl.
  - destruct H as [H | H]; [discriminate|]. rewrite H. simpl.
    rewrite map_map. reflexivity.
  - destruct (connect E server) as [u|[text|text]]; simpl;
      [apply Forall2_answers_ids, exec_tool_calls_list_answers
      | apply connection_errors_ids | apply connection_errors_ids].
Qed.

Lemma execute_tool_calls_ids E (d : ServerToolCalls) :
  execute_local_tool_calls E = None ->
  map tool_call_id (fst (_execute_tool_calls E d))
  = flat_map (fun st => map (fun tc => Some (id tc)) (snd st)) d.
Proof.
  intros H. induction d as [|[server calls] r IH]; simpl; [reflexivity|].
  pose proof (exec_server_tools_ids E server calls (or_intror H)) as Hs.
  destruct (_exec_server_tools E server calls) as [responses printed].
  destruct (_execute_tool_calls E r) as [responses' printed'].
  simpl in *. now rewrite map_app, Hs, IH.
Qed.

(** The remote call made for one argument object of [tool_call], and
    the remote calls of [tool_call], in order. *)
Definition request (E : Env) (tool_call : ToolCall) (args : Json.value) : ToolCall :=
  {| id := id tool_call; type := type tool_call;
     function := {| name := name (function tool_call); arguments := dumps E args |} |}.

Definition requests (E : Env) (tool_call : ToolCall) : list ToolCall :=
  map (request E tool_call) (fst (parsed_args E tool_call)).

(** What the server gives for the [k]-th of the calls [calls], made in a
    session that began with [session]: the texts of the items of its
    result put end to end, or the exception raised by the call or by the
    decoding of an item. *)
Definition reply (E : Env) (server : McpServer) (session calls : list ToolCall) (k : nat)
  : option (result string) :=
  match calls !! k with
  | Some new_tool_call =>
      Some match call_openai_tool E server (session ++ take k calls) new_tool_call with
           | Return call_result_content =>
               match content_parts call_result_content [] with
               | Return parts => Return (join "" parts)
               | Raise e => Raise e
               end
           | Raise e => Raise e
           end
  | None => None
  end.

Lemma reply_next E server session new_tool_call calls k :
  reply E server session (new_tool_call :: calls) (S k)
  = reply E server (session ++ [new_tool_call]) calls k.
Proof.
  unfold reply. cbn [lookup list_lookup take firstn]. rewrite <- app_assoc. reflexivity.
Qed.

(** When every remote call of a call returns, the results are the
    replies, in order. *)
Lemma call_each_returns E server tool_call args_list :
  forall session all_results_content texts,
    List.length texts = List.length args_list ->
    (forall k t, texts !! k = Some t ->
                 reply E server session (map (request E tool_call) args_list) k
                 = Some (Return t)) ->
    call_each E server tool_call args_list session all_results_content
    = (Return (all_results_content ++ texts),
       session ++ map (request E tool_call) args_list).
Proof.
  induction args_list as [|args r IH]; intros session acc texts Hl Hr.
  - destruct texts; [|discriminate]. cbn. rewrite !app_nil_r. reflexivity.
  - destruct texts as [|t ts]; [discriminate|]. cbn [call_each map].
    fold (request E tool_call args).
    pose proof (Hr 0 t eq_refl) as H0. unfold reply in H0.
    cbn [lookup list_lookup take firstn map] in H0. rewrite app_nil_r in H0.
    destruct (call_openai_tool E server session (request E tool_call args))
      as [items|e]; [|discriminate].
    destruct (content_parts items []) as [parts|e]; [|discriminate].
    injection H0 as <-.
    rewrite (IH (session ++ [request E tool_call args]) (acc ++ [join "" parts]) ts).
    + rewrite <- !app_assoc. reflexivity.
    + cbn in Hl. lia.
    + intros k t Hk. rewrite <- reply_next. apply (Hr (S k) t). exact Hk.
Qed.

(** The first remote call that raises ends the loop: the calls after it
    are not made. *)
Lemma call_each_raises E server tool_call args_list :
  forall session all_results_content k e,
    reply E server session (map (request E tool_call) args_list) k = Some (Raise e) ->
    (forall j, j < k ->
               exists t, reply E server session (map (request E tool_call) args_list) j
                         = Some (Return t)) ->
    call_each E server tool_call args_list session all_results_content
    = (Raise e, session ++ take (S k) (map (request E tool_call) args_list)).
Proof.
  induction args_list as [|args r IH]; intros session acc k e Hk Hj.
  - unfold reply in Hk. cbn in Hk. destruct k; discriminate.
  - cbn [call_each map]. fold (request E tool_call args). destruct k as [|k].
    + unfold reply in Hk. cbn [lookup list_lookup take firstn map] in Hk.
      rewrite app_nil_r in Hk. rewrite firstn_cons, take_0.
      destruct (call_openai_tool E server session (request E tool_call args))
        as [items|e']; [|congruence].
      destruct (content_parts items []) as [parts|e']; congruence.
    + destruct (Hj 0 ltac:(lia)) as [t H0]. unfold reply in H0.
      cbn [lookup list_lookup take firstn map] in H0. rewrite app_nil_r in H0.
      destruct (call_openai_tool E server session (request E tool_call args))
        as [items|e']; [|discriminate].
      destruct (content_parts items []) as [parts|e']; [|discriminate].
      rewrite (IH (session ++ [request E tool_call args]) (acc ++ [join "" parts]) k e).
      * cbn [take firstn]. rewrite <- app_assoc. reflexivity.
      * rewrite <- reply_next. exact Hk.
      * intros j Hlt. rewrite <- reply_next. apply Hj. lia.
Qed.

(** C7, as the code has it.  On a server that is not local: when the
    connection is made, every routed call gets exactly one response, in
    the order of the calls: its success payload, or the error text of
    its own exception; an exception of any kind raised by one call, a
    remote disconnect included, is turned into that call's own error
    response and the calls after it are still run.  The success payload
    of a call is made of the replies of the server to the remote calls
    of that call (one for every argument object): the texts of every
    reply put end to end, and the replies separated by an empty line;
    the call fails with the first exception among its remote calls.
    When connecting fails, with a remote disconnect or otherwise, no
    call is run and every routed call gets the same connection-error
    text.  Either way each routed call ends with exactly one
    response. *)
Theorem exec_server_tools_one_response_each
    (E : Env) (server : McpServer) (tool_calls_list : list ToolCall) :
  is_local server = false ->
  let responses := fst (_exec_server_tools E server tool_calls_list) in
  map tool_call_id responses = map (fun tc => Some (id tc)) tool_calls_list
  /\ match connect E server with
     | Return _ =>
         Forall2 answers tool_calls_list responses
         /\ responses = fst (exec_tool_calls_list E server tool_calls_list [])
     | Raise (RemoteProtocolError text) =>
         responses = connection_errors
                       ("Server " +:+ server_name server
                        +:+ " disconnected unexpectedly: " +:+ text) tool_calls_list
     | Raise (OtherException text) =>
         responses = connection_errors
                       ("Could not connect to server " +:+ server_name server
                        +:+ nl +:+ text) tool_calls_list
     end
  /\ (forall tc rest session e session',
        call_outcome E server tc session = (Raise e, session') ->
        fst (exec_tool_calls_list E server (tc :: rest) session)
        = tool_message (id tc) (tool_error_text tc e)
          :: fst (exec_tool_calls_list E server rest session'))
  /\ (forall tc rest session all_results_content session',
        call_outcome E server tc session = (Return all_results_content, session') ->
        fst (exec_tool_calls_list E server (tc :: rest) session)
        = tool_message (id tc) (join (nl +:+ nl) all_results_content)
          :: fst (exec_tool_calls_list E server rest session'))
  /\ (forall tc session texts,
        List.length texts = List.length (requests E tc) ->
        (forall k t, texts !! k = Some t ->
                     reply E server session (requests E tc) k = Some (Return t)) ->
        call_outcome E server tc session = (Return texts, session ++ requests E tc))
  /\ (forall tc session k e,
        reply E server session (requests E tc) k = Some (Raise e) ->
        (forall j, j < k ->
                   exists t, reply E server session (requests E tc) j = Some (Return t)) ->
        call_outcome E server tc session
        = (Raise e, session ++ take (S k) (requests E tc)))
  /\ (forall before after session,
        exists session',
          fst (exec_tool_calls_list E server (before ++ after) session)
          = fst (exec_tool_calls_list E server before session)
            ++ fst (exec_tool_calls_list E server after session')).
Proof.
  intros Hlocal responses. subst responses.
  unfold _exec_server_tools. rewrite Hlocal.
  repeat split.
  - pose proof (exec_server_tools_ids E server tool_calls_list (or_introl Hlocal)) as Hi.
    unfold _exec_server_tools in Hi. rewrite Hlocal in Hi. exact Hi.
  - destruct (connect E server) as [u|[text|text]]; simpl; try reflexivity.
    split; [apply exec_tool_calls_list_answers | reflexivity].
  - intros. now apply exec_tool_calls_list_raise.
  - intros. now apply exec_tool_calls_list_return.
  - intros tc session texts Hl Hr. unfold call_outcome, requests in *.
    rewrite length_map in Hl.
    rewrite (call_each_returns E server tc _ session [] texts Hl Hr). reflexivity.
  - intros tc session k e Hk Hj. unfold call_outcome, requests in *.
    apply call_each_raises; assumption.
  - intros. apply exec_tool_calls_list_app.
Qed.

(** A server that answers every call but one: the remote end drops
    during the call named drop. *)
Definition dropping : Env :=
  {| split_concatenated_json := fun s => [s];
     dumps := fun _ => "{}";
     connect := fun _ => Return tt;
     call_openai_tool := fun _ _ tc =>
       if String.eqb (name (function tc)) "drop"
       then Raise (RemoteProtocolError "peer closed connection")
       else Return [TextContent "ok"];
     execute_local_tool_calls := None |}.

(** A server that cannot be reached. *)
Definition unreachable : Env :=
  {| split_concatenated_json := fun s => [s];
     dumps := fun _ => "{}";
     connect := fun _ => Raise (RemoteProtocolError "peer closed connection");
     call_openai_tool := fun _ _ _ => Return [TextContent "ok"];
     execute_local_tool_calls := None |}.

(** On the server that drops during the call named drop: that call gets
    its own error text, and the call after it gets its success payload,
    the text the server replied. *)
Lemma exec_server_tools_witness :
  is_local RoutingSpec.alpha = false
  /\ fst (exec_tool_calls_list dropping RoutingSpec.alpha
            [RoutingSpec.call "1" "drop"; RoutingSpec.call "2" "echo"] [])
     = [tool_message "1"
          ("Error executing tool call drop: " +:+ nl +:+ "peer closed connection");
        tool_message "2" "ok"].
Proof.
  split; [reflexivity|].
  pose proof (exec_server_tools_one_response_each dropping RoutingSpec.alpha
                [RoutingSpec.call "1" "drop"; RoutingSpec.call "2" "echo"] eq_refl) as H.
  cbv zeta in H. destruct H as (_ & _ & Hraise & Hreturn & _).
  etransitivity.
  - apply (Hraise (RoutingSpec.call "1" "drop") [RoutingSpec.call "2" "echo"] []
             (RemoteProtocolError "peer closed connection")
             [request dropping (RoutingSpec.call "1" "drop") (Json.JObject [])]).
    vm_compute. reflexivity.
  - refine (f_equal (cons _) _).
    apply (Hreturn (RoutingSpec.call "2" "echo") []
             [request dropping (RoutingSpec.call "1" "drop") (Json.JObject [])]
             ["ok"]
             [request dropping (RoutingSpec.call "1" "drop") (Json.JObject []);
              request dropping (RoutingSpec.call "2" "echo") (Json.JObject [])]).
    vm_compute. reflexivity.
Defined.

(** On the server that cannot be reached no call is run: both calls get
    the text of the connection error. *)
Example unreachable_server_answers_alike :
  fst (_exec_server_tools unreachable RoutingSpec.alpha
         [RoutingSpec.call "1" "drop"; RoutingSpec.call "2" "echo"])
  = connection_errors "Server alpha disconnected unexpectedly: peer closed connection"
      [RoutingSpec.call "1" "drop"; RoutingSpec.call "2" "echo"].
Proof. vm_compute. reflexivity. Qed.

(** C7 as stated fails: the remote end drops during the first of two
    calls; the first call gets its own error text, and the second call
    is not aborted: it is run and gets its success payload, not a
    connection-error text shared with the first. *)
Lemma remote_disconnect_in_a_call_aborts_nothing :
  fst (_exec_server_tools dropping RoutingSpec.alpha
         [RoutingSpec.call "1" "drop"; RoutingSpec.call "2" "echo"])
  = [tool_message "1"
       ("Error executing tool call drop: " +:+ nl +:+ "peer closed connection");
     tool_message "2" "ok"].
Proof. vm_compute. reflexivity. Qed.

End ExecutionSpec.

(** ** tool_use.py: what routing promises *)

Module DispatchSpec.
Import Py Chat ToolUse RoutingSpec.




(** The match up to case is that of [str.lower]: the letters of
    Latin-1 are folded with those of ASCII.  The call is named CAF and
    U+00C9, the tool caf and U+00E9. *)
Example gather_folds_latin1_letters :
  _gather_server_tool_calls [alpha]
    [("alpha", [tool ("caf" +:+ String "233" "")])]
    [call "1" ("CAF" +:+ String "201" "")]
  = Some [(alpha, [call "1" ("CAF" +:+ String "201" "")])].
Proof. vm_compute. reflexivity. Qed.

End DispatchSpec.


(** ** runtime.py: background summarization and compaction *)

Module RuntimeSpec.
Import Py Chat Runtime.

(** The messages that settled into the done list during [acts]. *)
Definition appended (acts : list action) : list Message :=
  flat_map (fun a => match a with Append m => [m] | _ => [] end) acts.

(** The worker has taken its snapshot. *)
Definition snapshot_taken (snapshot : list Message) (st : State) : Prop :=
  summarizing_messages st = Some snapshot
  /\ (summarizer_thread st = Some Snapshotted \/ summarizer_thread st = Some Finished).

Lemma worker_finish_frame sm st :
  summarizing_messages (worker_finish sm st) = summarizing_messages st
  /\ done_messages (worker_finish sm st) = done_messages st
  /\ summarizer_thread (worker_finish sm st) = Some Finished.
Proof.
  unfold worker_finish.
  destruct (summarize sm (default [] (summarizing_messages st)));
    destruct (verbose st); repeat split; reflexivity.
Qed.

Lemma act_keeps_snapshot sm snapshot st a :
  snapshot_taken snapshot st ->
  snapshot_taken snapshot (act sm st a)
  /\ done_messages (act sm st a)
     = done_messages st ++ match a with Append m => [m] | _ => [] end.
Proof.
  intros [Hs Ht]. unfold snapshot_taken.
  destruct a as [m| |]; simpl.
  - repeat split; auto.
  - destruct Ht as [Ht | Ht]; rewrite Ht, app_nil_r; repeat split; auto.
  - destruct Ht as [Ht | Ht]; rewrite Ht, app_nil_r.
    + destruct (worker_finish_frame sm st) as (F1 & F2 & F3).
      rewrite F1, F2, F3. repeat split; auto.
    + repeat split; auto.
Qed.

Lemma run_keeps_snapshot sm snapshot acts :
  forall st,
    snapshot_taken snapshot st ->
    snapshot_taken snapshot (run sm st acts)
    /\ done_messages (run sm st acts) = done_messages st ++ appended acts.
Proof.
  unfold run. induction acts as [|a r IH]; intros st H; simpl.
  - rewrite app_nil_r. split; [exact H | reflexivity].
  - destruct (act_keeps_snapshot sm snapshot st a H) as [H1 H2].
    destruct (IH _ H1) as [H3 H4]. split; [exact H3|].
    rewrite H4, H2, <- app_assoc. reflexivity.
Qed.

Lemma join_frame sm snapshot st :
  snapshot_taken snapshot st ->
  summarizing_messages (join sm st) = Some snapshot
  /\ done_messages (join sm st) = done_messages st.
Proof.
  intros [Hs Ht]. unfold join.
  destruct Ht as [-> | ->]; [|split; [exact Hs | reflexivity]].
  destruct (worker_finish_frame sm st) as (F1 & F2 & F3).
  rewrite F1, F2. split; [exact Hs | reflexivity].
Qed.

Lemma summarize_end_after_snapshot sm snapshot st :
  snapshot_taken snapshot st ->
  done_messages (summarize_end sm st)
  = if decide (snapshot = done_messages st)
    then summarized_done_messages (join sm st)
    else done_messages st.
Proof.
  intros H. destruct (join_frame sm snapshot st H) as [J1 J2].
  unfold summarize_end.
  destruct H as [Hs [Ht | Ht]]; rewrite Ht; simpl; rewrite J1, J2;
    destruct (decide (snapshot = done_messages st)) as [e|ne];
    try (rewrite decide_True by congruence; reflexivity);
    try (rewrite decide_False by congruence; exact J2).
Qed.

Lemma summarize_end_resets sm st t :
  summarizer_thread st = Some t ->
  summarizer_thread (summarize_end sm st) = None
  /\ summarizing_messages (summarize_end sm st) = None
  /\ summarized_done_messages (summarize_end sm st) = [].
Proof.
  intros H. unfold summarize_end. rewrite H.
  destruct (decide (summarizing_messages (set_thread (join sm st) None)
                    = Some (done_messages (set_thread (join sm st) None))));
    repeat split; reflexivity.
Qed.

Lemma app_not_self {A} (l k : list A) : k <> [] -> l <> l ++ k.
Proof.
  intros Hk H. apply (f_equal (@List.length A)) in H.
  rewrite length_app in H. destruct k; [contradiction | simpl in H; lia].
Qed.

(** C5.  The worker snapshots the done list; then messages may settle
    into the done list, and the worker may finish, in any order.  If at
    least one message was appended before [summarize_end] runs, the
    worker's summary is discarded and the done list, with the new
    messages, is left as it is; if none was, the summarized replacement
    is swapped in.  Either way the thread and both buffers are reset. *)
Theorem summarize_end_checks_snapshot
    (sm : Summarizer) (st : State) (acts : list action) :
  let live := run sm (worker_snapshot st) acts in
  (appended acts <> [] ->
   done_messages (summarize_end sm live) = done_messages live
   /\ done_messages live = done_messages st ++ appended acts)
  /\ (appended acts = [] ->
      done_messages live = done_messages st
      /\ done_messages (summarize_end sm live) = summarized_done_messages (join sm live)
      /\ (forall replacement, summarize sm (done_messages st) = Summary replacement ->
                              done_messages (summarize_end sm live) = replacement))
  /\ summarizer_thread (summarize_end sm live) = None
  /\ summarizing_messages (summarize_end sm live) = None
  /\ summarized_done_messages (summarize_end sm live) = [].
Proof.
  intros live.
  assert (S0 : snapshot_taken (done_messages st) (worker_snapshot st)).
  { split; [reflexivity | left; reflexivity]. }
  destruct (run_keeps_snapshot sm _ acts _ S0) as [S1 D]. fold live in S1, D.
  change (done_messages (worker_snapshot st)) with (done_messages st) in D.
  pose proof (summarize_end_after_snapshot sm _ live S1) as E.
  split; [|split; [|split; [|split]]].
  - intros Ha. split; [|exact D].
    rewrite E, decide_False; [reflexivity|].
    rewrite D. now apply app_not_self.
  - intros H. split; [|split].
    { rewrite D, H, app_nil_r. reflexivity. }
    { rewrite E, decide_True; [reflexivity|].
      rewrite D, H, app_nil_r. reflexivity. }
    intros replacement Hr. rewrite E, decide_True by (rewrite D, H, app_nil_r; reflexivity).
    destruct S1 as [Hs Ht]. unfold join.
    destruct Ht as [Ht | Ht]; rewrite Ht.
    + unfold worker_finish. rewrite Hs. simpl. rewrite Hr.
      destruct (verbose live); reflexivity.
    + (* the worker finished during [acts]: by induction on [acts] *)
      clear E D. revert Ht Hs. subst live. clear S0.
      assert (G : forall acts st0,
                 summarizing_messages st0 = Some (done_messages st) ->
                 (summarizer_thread st0 = Some Snapshotted
                  \/ summarizer_thread st0 = Some Finished
                     /\ summarized_done_messages st0 = replacement) ->
                 summarizer_thread (run sm st0 acts) = Some Finished ->
                 summarized_done_messages (run sm st0 acts) = replacement).
      { clear acts H. intros acts. unfold run.
        induction acts as [|a r IH]; intros st0 Hs0 Ht0 Hfin; simpl in *.
        - destruct Ht0 as [Ht0 | [_ Ht0]]; [congruence | exact Ht0].
        - apply IH; [| |exact Hfin].
          + destruct a as [m| |]; simpl; [exact Hs0 | |].
            * destruct Ht0 as [-> | [-> _]]; exact Hs0.
            * destruct Ht0 as [-> | [-> _]]; [|exact Hs0].
              now rewrite (proj1 (worker_finish_frame sm st0)).
          + destruct a as [m| |]; simpl.
            * destruct Ht0 as [Ht0 | Ht0]; [left | right]; exact Ht0.
            * destruct Ht0 as [Ht0 | [Ht0 Hr0]]; rewrite Ht0; [left | right]; auto.
            * destruct Ht0 as [Ht0 | [Ht0 Hr0]]; rewrite Ht0; [|right; auto].
              right. split; [apply worker_finish_frame|].
              unfold worker_finish. rewrite Hs0. simpl. rewrite Hr.
              destruct (verbose st0); reflexivity. }
      intros Ht Hs. apply G; [reflexivity | left; reflexivity | exact Ht].
  - destruct S1 as [_ [Ht | Ht]]; eapply summarize_end_resets; exact Ht.
  - destruct S1 as [_ [Ht | Ht]]; eapply summarize_end_resets; exact Ht.
  - destruct S1 as [_ [Ht | Ht]]; eapply summarize_end_resets; exact Ht.
Qed.

(** A summarizer that answers with one message, and a history. *)
Definition digest : list Message := [text_message "user" "summary of the chat so far"].

Definition summarizer (over_own_limit : bool) (text : TextOutcome) : Summarizer :=
  {| check_max_tokens := fun _ max_tokens =>
       match max_tokens with Some _ => true | None => over_own_limit end;
     summarize := fun _ => Summary digest;
     summarize_all_as_text := fun _ _ _ => text |}.

Definition history : list Message :=
  [text_message "user" "rename the module"; text_message "assistant" "done"].

Definition session (thread : option Thread) : State :=
  {| done_messages := history; summarizer_thread := thread;
     summarizing_messages := None; summarized_done_messages := [];
     enable_context_compaction := true;
     context_compaction_max_tokens := 1000;
     context_compaction_summary_tokens := 100;
     compaction_prompt := "Summarize the conversation.";
     verbose := false; io := [] |}.

Definition late : Message := text_message "user" "one more thing".

(** One message settles after the snapshot, before or after the worker
    ends: the summary is dropped.  None settles: the summary is swapped
    in. *)
Lemma summarize_end_witness :
  appended [WorkerFinish; Append late] <> []
  /\ done_messages
       (summarize_end (summarizer true (Text ""))
          (run (summarizer true (Text "")) (worker_snapshot (session (Some Started)))
             [WorkerFinish; Append late]))
     = history ++ [late]
  /\ done_messages
       (summarize_end (summarizer true (Text ""))
          (run (summarizer true (Text "")) (worker_snapshot (session (Some Started)))
             [WorkerFinish]))
     = digest.
Proof.
  pose proof (summarize_end_checks_snapshot (summarizer true (Text ""))
                (session (Some Started)) [WorkerFinish; Append late]) as (H1 & _).
  pose proof (summarize_end_checks_snapshot (summarizer true (Text ""))
                (session (Some Started)) [WorkerFinish]) as (_ & H2 & _).
  assert (N : appended [WorkerFinish; Append late] <> []) by discriminate.
  split; [exact N|]. split.
  - destruct (H1 N) as [E D]. rewrite E. exact D.
  - destruct (H2 eq_refl) as (_ & _ & R). apply R. reflexivity.
Defined.

Definition compaction_notice : event :=
  tool_output "Compacting chat history to make room for new messages...".

Definition failure_warnings (e : string) : list event :=
  [tool_warning ("Context compaction failed: " +:+ e);
   tool_warning "Proceeding with full history for now."].

(** What [summarize_all_as_text] reports as a failure: an exception, or
    an empty text (turned into a [ValueError] at line 126). *)
Definition failure (t : TextOutcome) : option string :=
  match t with
  | Raises e => Some e
  | Text EmptyString => Some "Summarization returned an empty result."
  | Text (String _ _) => None
  end.

Lemma summarize_start_spec sm st :
  summarize_start sm st
  = if check_max_tokens sm (done_messages st) None
    then
      set_thread (if verbose (summarize_end sm st)
                  then print (summarize_end sm st)
                         [tool_output "Starting to summarize chat history."]
                  else summarize_end sm st) (Some Started)
    else st.
Proof. unfold summarize_start. destruct (check_max_tokens _ _ _); reflexivity. Qed.

Lemma summarize_end_idle sm st : summarizer_thread st = None -> summarize_end sm st = st.
Proof. intros H. unfold summarize_end. now rewrite H. Qed.

Lemma summarize_end_io sm st : exists more, io (summarize_end sm st) = io st ++ more.
Proof.
  unfold summarize_end. destruct (summarizer_thread st) as [t|] eqn:Ht.
  - assert (J : exists more, io (join sm st) = io st ++ more).
    { unfold join. rewrite Ht.
      assert (W : forall s, exists more, io (worker_finish sm s) = io s ++ more).
      { intros s. unfold worker_finish.
        destruct (summarize sm (default [] (summarizing_messages s))) as [l|text|];
          destruct (verbose s); simpl; eauto using app_nil_r;
          try (eexists; symmetry; apply app_nil_r).
        eexists. rewrite <- app_assoc. reflexivity. }
      destruct t; [destruct (W (worker_snapshot st)) as [m Hm]; exists m; exact Hm
                  | apply W | exists []; symmetry; apply app_nil_r]. }
    destruct J as [more J]. exists more.
    destruct (decide _); exact J.
  - exists []. symmetry. apply app_nil_r.
Qed.

(** C6, as the code has it.  When compaction is triggered and the
    summary text is not empty, the whole done list is replaced by
    exactly two messages: a user message with the summary text and the
    assistant's acknowledgment.  On a failure (an exception or an empty
    summary) compaction itself leaves the done list alone, two warnings
    are emitted, and [summarize_start] is called: if the done list is
    not over the summarizer's own limit, nothing more happens and the
    done list is as before; if it is, an earlier background worker, if
    there is one, is first brought to its end by [summarize_end] (which
    may swap its summary in), and a new background worker is started.
    With no earlier worker the done list is as before compaction. *)
Theorem compaction_replaces_or_falls_back (sm : Summarizer) (st : State) :
  enable_context_compaction st = true ->
  check_max_tokens sm (done_messages st) (Some (context_compaction_max_tokens st)) = true ->
  let st' := compact_context_if_needed sm st in
  let warned e := print st (compaction_notice :: failure_warnings e) in
  match summarize_all_as_text sm (done_messages st) (compaction_prompt st)
          (context_compaction_summary_tokens st) with
  | Text (String c r) =>
      done_messages st'
      = [text_message "user" (String c r);
         text_message "assistant"
           "Ok, I will use this summary as the context for our conversation going forward."]
      /\ summarizer_thread st' = summarizer_thread st
  | t =>
      exists e, failure t = Some e
      /\ (exists more, io st' = io st ++ compaction_notice :: failure_warnings e ++ more)
      /\ if check_max_tokens sm (done_messages st) None
         then summarizer_thread st' = Some Started
              /\ done_messages st' = done_messages (summarize_end sm (warned e))
              /\ (summarizer_thread st = None -> done_messages st' = done_messages st)
         else st' = warned e
              /\ done_messages st' = done_messages st
              /\ summarizer_thread st' = summarizer_thread st
  end.
Proof.
  intros Hen Hmax st' warned. subst st'. unfold compact_context_if_needed.
  rewrite Hen, Hmax. simpl.
  assert (F : forall e,
             exists e', Some e = Some e'
             /\ (exists more,
                   io (compaction_failed sm (print st [compaction_notice]) e)
                   = io st ++ compaction_notice :: failure_warnings e' ++ more)
             /\ if check_max_tokens sm (done_messages st) None
                then summarizer_thread (compaction_failed sm (print st [compaction_notice]) e)
                     = Some Started
                     /\ done_messages (compaction_failed sm (print st [compaction_notice]) e)
                        = done_messages (summarize_end sm (warned e'))
                     /\ (summarizer_thread st = None ->
                         done_messages (compaction_failed sm (print st [compaction_notice]) e)
                         = done_messages st)
                else compaction_failed sm (print st [compaction_notice]) e = warned e'
                     /\ done_messages (compaction_failed sm (print st [compaction_notice]) e)
                        = done_messages st
                     /\ summarizer_thread (compaction_failed sm (print st [compaction_notice]) e)
                        = summarizer_thread st).
  { intros e. exists e. split; [reflexivity|].
    unfold compaction_failed. rewrite summarize_start_spec.
    assert (P : print (print st [compaction_notice]) (failure_warnings e) = warned e).
    { unfold warned, print. simpl. rewrite <- app_assoc. reflexivity. }
    unfold failure_warnings in P. rewrite P.
    change (done_messages (warned e)) with (done_messages st).
    destruct (check_max_tokens sm (done_messages st) None).
    - destruct (summarize_end_io sm (warned e)) as [more Hio].
      split; [|split; [|split]].
      + assert (Hw : io (warned e) = io st ++ compaction_notice :: failure_warnings e)
          by reflexivity.
        destruct (verbose (summarize_end sm (warned e)));
          unfold set_thread, print; cbn [io]; rewrite Hio, Hw.
        * exists (more ++ [tool_output "Starting to summarize chat history."]).
          rewrite <- !app_assoc. reflexivity.
        * exists more. rewrite <- !app_assoc. reflexivity.
      + destruct (verbose (summarize_end sm (warned e))); reflexivity.
      + destruct (verbose (summarize_end sm (warned e))); reflexivity.
      + intros Hidle. rewrite (summarize_end_idle sm (warned e)) by exact Hidle.
        destruct (verbose (warned e)); reflexivity.
    - split; [|repeat split].
      exists []. change (io (warned e)) with (io st ++ compaction_notice :: failure_warnings e).
      now rewrite app_nil_r. }
  destruct (summarize_all_as_text sm (done_messages st) (compaction_prompt st)
              (context_compaction_summary_tokens st)) as [[|c r]|e]; simpl.
  - apply F.
  - split; reflexivity.
  - apply F.
Qed.

(** Compaction fails on an empty summary while the history is under the
    summarizer's own limit. *)
Lemma compaction_witness :
  enable_context_compaction (session None) = true
  /\ check_max_tokens (summarizer false (Text "")) history (Some 1000) = true
  /\ exists e, failure (Text "") = Some e
     /\ (exists more,
           io (compact_context_if_needed (summarizer false (Text "")) (session None))
           = [] ++ compaction_notice :: failure_warnings e ++ more)
     /\ compact_context_if_needed (summarizer false (Text "")) (session None)
        = print (session None) (compaction_notice :: failure_warnings e)
     /\ done_messages (compact_context_if_needed (summarizer false (Text "")) (session None))
        = history
     /\ summarizer_thread
          (compact_context_if_needed (summarizer false (Text "")) (session None))
        = None.
Proof.
  split; [reflexivity|]. split; [reflexivity|].
  exact (compaction_replaces_or_falls_back (summarizer false (Text "")) (session None)
           eq_refl eq_refl).
Defined.

(** C6 as stated fails.  First: compaction fails on an empty summary
    while the done list is under the summarizer's own limit; no
    background summarization is started.  Second: compaction fails while
    an earlier background worker has not been collected; its summary is
    swapped in, so the done list is not what it was before compaction. *)
Lemma compaction_failure_without_fallback :
  (summarize_all_as_text (summarizer false (Text "")) history
     "Summarize the conversation." 100 = Text ""
   /\ summarizer_thread
        (compact_context_if_needed (summarizer false (Text "")) (session None))
      = None)
  /\ (done_messages (session (Some Started)) = history
      /\ done_messages
           (compact_context_if_needed (summarizer true (Raises "timeout"))
              (session (Some Started)))
         = digest
      /\ digest <> history).
Proof. repeat split; try reflexivity. discriminate. Qed.

End RuntimeSpec.

(** ** file_manager.py: the warning about too many files *)

Module FileManagerSpec.
Import Py Chat Session FileManager.

(** The two lines the warning consists of. *)
Definition the_warning (E : Env) : list event :=
  [tool_warning too_many_files_warning; tool_warning (edit_errors E)].

Lemma check_added_files_cases E c :
  (check_added_files E c = c
   /\ (warning_given c = true \/ size (abs_fnames c) < 4 \/ chat_tokens E c < 20 * 1024))
  \/ (check_added_files E c = set_warning_given (print c (the_warning E)) true
      /\ warning_given c = false /\ 4 <= size (abs_fnames c)
      /\ 20 * 1024 <= chat_tokens E c).
Proof.
  unfold check_added_files.
  destruct (warning_given c); [left; auto|].
  destruct (Nat.ltb_spec (size (abs_fnames c)) 4); [left; auto|].
  destruct (Nat.ltb_spec (chat_tokens E c) (20 * 1024)); [left; auto|].
  right. auto.
Qed.

(** Once the flag is set, no operation prints anything or clears it. *)
Lemma apply_after_warning E c o :
  warning_given c = true ->
  warning_given (apply E c o) = true /\ io (apply E c o) = io c.
Proof.
  intros H. destruct o as [rel_fname|fname| |fnames]; simpl.
  - unfold add_rel_fname, check_added_files. simpl. rewrite H. auto.
  - unfold drop_rel_fname. destruct (bool_decide _); auto.
  - unfold check_added_files. rewrite H. auto.
  - auto.
Qed.

Lemma life_after_warning E ops :
  forall c, warning_given c = true ->
            warning_given (life E c ops) = true /\ io (life E c ops) = io c.
Proof.
  unfold life. induction ops as [|o r IH]; intros c H; simpl; [auto|].
  destruct (apply_after_warning E c o H) as [H1 H2].
  destruct (IH _ H1) as [H3 H4]. split; [exact H3 | congruence].
Qed.

(** Before the flag is set, an operation prints nothing, or prints the
    warning and sets the flag. *)
Lemma apply_before_warning E c o :
  warning_given c = false ->
  (warning_given (apply E c o) = false /\ io (apply E c o) = io c)
  \/ (warning_given (apply E c o) = true /\ io (apply E c o) = io c ++ the_warning E).
Proof.
  intros H. destruct o as [rel_fname|fname| |fnames]; simpl.
  - unfold add_rel_fname.
    destruct (check_added_files_cases E
                (set_abs_fnames c (abs_fnames c ∪ {[abs_root_path E rel_fname]})))
      as [[-> _] | [-> _]]; [left | right]; auto.
  - unfold drop_rel_fname. destruct (bool_decide _); left; auto.
  - destruct (check_added_files_cases E c) as [[-> _] | [-> _]]; [left | right]; auto.
  - left; auto.
Qed.

Lemma life_warns_once E ops :
  forall c, warning_given c = false ->
            io (life E c ops) = io c \/ io (life E c ops) = io c ++ the_warning E.
Proof.
  induction ops as [|o r IH]; intros c H; [left; reflexivity|].
  change (life E c (o :: r)) with (life E (apply E c o) r).
  destruct (apply_before_warning E c o H) as [[H1 H2] | [H1 H2]].
  - rewrite <- H2. now apply IH.
  - right. rewrite (proj2 (life_after_warning E r _ H1)). exact H2.
Qed.

(** C10.  Once [check_added_files] has given the warning (the flag is
    set), every later call returns at once and changes nothing, whatever
    is added to the chat afterwards; so over the life of a file manager,
    from a state with the flag unset and through any sequence of
    operations, the warning is printed at most once.  No warning is
    given while fewer than 4 files are in chat or while their tokens
    stay under 20 * 1024; it is given when neither holds and the flag is
    unset. *)
Theorem too_many_files_warning_once (E : Env) :
  (forall c, warning_given c = true -> check_added_files E c = c)
  /\ (forall c ops, warning_given c = true ->
                    io (life E c ops) = io c /\ warning_given (life E c ops) = true)
  /\ (forall c ops, warning_given c = false ->
                    io (life E c ops) = io c \/ io (life E c ops) = io c ++ the_warning E)
  /\ (forall c, size (abs_fnames c) < 4 \/ chat_tokens E c < 20 * 1024 ->
                check_added_files E c = c)
  /\ (forall c, warning_given c = false -> 4 <= size (abs_fnames c) ->
                20 * 1024 <= chat_tokens E c ->
                check_added_files E c = set_warning_given (print c (the_warning E)) true).
Proof.
  split; [|split; [|split; [|split]]].
  - intros c H. unfold check_added_files. now rewrite H.
  - intros c ops H. destruct (life_after_warning E ops c H). auto.
  - intros c ops H. now apply life_warns_once.
  - intros c H. destruct (check_added_files_cases E c) as [[e _] | (_ & _ & H1 & H2)];
      [exact e | lia].
  - intros c H0 H1 H2.
    destruct (check_added_files_cases E c) as [[_ [H | H]] | [e _]];
      [congruence | lia | exact e].
Qed.

End FileManagerSpec.

(** ** editor.py *)

Module EditorSpec.
Import Py Chat Session FileManager Editor.

(** *** A session to run the code on *)

(** A repository in which notes.md is tracked and dirty, and nothing is
    ignored; [commit] answers as [outcome] says. *)
Definition repository (outcome : CommitOutcome) : Repo :=
  {| path_in_repo := fun _ p => String.eqb p "notes.md";
     git_ignored_file := fun _ _ => false;
     is_dirty := fun _ p => String.eqb p "notes.md";
     commit := fun _ _ => outcome |}.

(** The templates are those of the upstream prompts; the user answers
    every question as [answer] says. *)
Definition world (answer : bool) : Env :=
  {| abs_root_path := fun p => "/repo/" +:+ p;
     ask := fun _ _ _ => answer;
     touch_file := fun _ _ => true;
     is_image_file := fun _ => false;
     file_tokens := fun _ => 6 * 1000;
     edit_errors := "https://aider.chat/docs/troubleshooting/edit-errors.html";
     files_content_gpt_edits :=
       [Literal "I committed the changes with git hash "; Field "hash";
        Literal " & commit msg: "; Field "message"];
     files_content_gpt_no_edits :=
       "I didn't see any properly formatted edits in your reply?!";
     show_auto_commit_outcome := fun h m => [tool_output ("Commit " +:+ h +:+ " " +:+ m)] |}.

Definition coder (r : option Repo) (on_disk in_chat : gset string) : Coder :=
  {| repo := r; dry_run := false; dirty_commits := true; auto_commits := true;
     cur_messages := [text_message "user" "add a changelog"];
     git := []; files := on_disk; abs_fnames := in_chat;
     need_commit_before_edits := ∅; warning_given := false; io := [] |}.

(** *** allowed_to_edit on a path that does not exist *)

Definition with_ask (E : Env) (a : user) : Env :=
  {| abs_root_path := abs_root_path E; ask := a; touch_file := touch_file E;
     is_image_file := is_image_file E; file_tokens := file_tokens E;
     edit_errors := edit_errors E;
     files_content_gpt_edits := files_content_gpt_edits E;
     files_content_gpt_no_edits := files_content_gpt_no_edits E;
     show_auto_commit_outcome := show_auto_commit_outcome E |}.

(** For a path that is not on disk, the answer of the user plays no
    part: the coroutine of line 31 is never awaited. *)
Lemma create_new_file_never_asks (E : Env) (a : user) (p : string) (c : Coder) :
  abs_root_path E p ∉ files c ->
  allowed_to_edit (with_ask E a) p c = allowed_to_edit E p c.
Proof.
  intros H. unfold allowed_to_edit. simpl.
  destruct (bool_decide (abs_root_path E p ∈ abs_fnames c)); [reflexivity|].
  destruct (match repo c with Some r => git_ignored_file r (git c) p | None => false end);
    [reflexivity|].
  rewrite bool_decide_false by exact H. reflexivity.
Qed.

(** C3 on the code: the user declines every question; the path new.py
    is neither on disk nor in chat.  [allowed_to_edit] answers True all
    the same, without putting any question: the file is created and is
    in chat afterwards. *)
Theorem declined_file_is_created_anyway :
  let result := allowed_to_edit (world false) "new.py" (coder None ∅ ∅) in
  fst result = true
  /\ elements (files (snd result)) = ["/repo/new.py"]
  /\ elements (abs_fnames (snd result)) = ["/repo/new.py"]
  /\ io (snd result) = [].
Proof. vm_compute. repeat split; reflexivity. Qed.

(** The sibling path, for a file that exists and is not in chat, awaits
    the answer: declined, it answers None and changes neither the disk
    nor the chat. *)
Example declined_existing_file_is_skipped :
  let result := allowed_to_edit (world false) "old.py" (coder None {["/repo/old.py"]} ∅) in
  fst result = false
  /\ elements (abs_fnames (snd result)) = []
  /\ io (snd result)
     = [confirm_ask "Allow edits to file that has not been added to the chat?"
          (Some "old.py") false;
        tool_output "Skipping edits to old.py"].
Proof. vm_compute. repeat split; reflexivity. Qed.

(** *** auto_commit *)

(** The context the commit is given. *)
Definition commit_context (context : option string) (c : Coder) : string :=
  match context with
  | Some (String a r) => String a r
  | _ => get_context_from_history (cur_messages c)
  end.

Definition auto_request (edited : gset string) (context : option string) (c : Coder)
  : CommitRequest :=
  {| fnames := edited; context := Some (commit_context context c); aider_edits := true |}.

(** C9.  [auto_commit] returns nothing and leaves everything as it is,
    the log of commits included, when there is no repository, when
    auto-commits are off or in a dry run.  Otherwise it commits once,
    and: when the commit returns a hash and a message, it returns the
    files-edited notice formatted with them; when there was nothing to
    commit, it returns the no-edits notice; when the repository raises
    an error, it reports the error and returns nothing. *)
Theorem auto_commit_outcomes
    (E : Env) (edited : gset string) (context : option string) (c : Coder) :
  (repo c = None \/ auto_commits c = false \/ dry_run c = true ->
   auto_commit E edited context c = Returns (None, c))
  /\ (forall r, repo c = Some r -> auto_commits c = true -> dry_run c = false ->
      let request := auto_request edited context c in
      let committed := set_git c (git c ++ [git_commit request]) in
      match commit r (git c) request with
      | Committed commit_hash commit_message =>
          (forall text,
              format (files_content_gpt_edits E)
                [("hash", commit_hash); ("message", commit_message)] = Some text ->
              auto_commit E edited context c
              = Returns (Some text,
                         print committed
                           (show_auto_commit_outcome E commit_hash commit_message)))
          /\ (forall before between after,
                 files_content_gpt_edits E
                 = [Literal before; Field "hash"; Literal between; Field "message";
                    Literal after] ->
                 exists c',
                   auto_commit E edited context c
                   = Returns (Some (before +:+ commit_hash +:+ between
                                    +:+ commit_message +:+ after +:+ ""), c'))
      | NothingToCommit =>
          auto_commit E edited context c
          = Returns (Some (files_content_gpt_no_edits E), committed)
      | GitError text =>
          auto_commit E edited context c
          = Returns (None, print committed [tool_error ("Unable to commit: " +:+ text)])
      end).
Proof.
  split.
  - intros H. unfold auto_commit. destruct (repo c); [|reflexivity].
    destruct H as [H | [H | H]]; [discriminate | rewrite H | rewrite H].
    + reflexivity.
    + now rewrite orb_true_r.
  - intros r Hr Ha Hd request committed. unfold auto_commit.
    rewrite Hr, Ha, Hd. simpl.
    assert (Hc : match context with
                 | Some text => if truthy text then text
                                else get_context_from_history (cur_messages c)
                 | None => get_context_from_history (cur_messages c)
                 end = commit_context context c).
    { destruct context as [[|a s]|]; reflexivity. }
    rewrite Hc. fold (auto_request edited context c). fold request. fold committed.
    destruct (commit r (git c) request) as [h m| |text]; [|reflexivity|reflexivity].
    split.
    + intros text Hf. now rewrite Hf.
    + intros before between after Ht. rewrite Ht. simpl.
      eexists. reflexivity.
Qed.

Lemma auto_commit_witness :
  repo (coder (Some (repository (Committed "abc1234" "add changelog"))) ∅ ∅)
  = Some (repository (Committed "abc1234" "add changelog"))
  /\ exists c',
      auto_commit (world true) {["notes.md"]} None
        (coder (Some (repository (Committed "abc1234" "add changelog"))) ∅ ∅)
      = Returns
          (Some "I committed the changes with git hash abc1234 & commit msg: add changelog",
           c').
Proof.
  split; [reflexivity|].
  destruct (proj2 (auto_commit_outcomes (world true) {["notes.md"]} None
                     (coder (Some (repository (Committed "abc1234" "add changelog"))) ∅ ∅))
              (repository (Committed "abc1234" "add changelog")) eq_refl eq_refl eq_refl)
    as [H _].
  eexists. apply H. reflexivity.
Defined.

(** With nothing to commit the other notice is returned, and with an
    error of the repository nothing is. *)
Example auto_commit_other_outcomes :
  (exists c',
      auto_commit (world true) ∅ None (coder (Some (repository NothingToCommit)) ∅ ∅)
      = Returns (Some "I didn't see any properly formatted edits in your reply?!", c'))
  /\ (exists c',
         auto_commit (world true) ∅ None
           (coder (Some (repository (GitError "index.lock exists"))) ∅ ∅)
         = Returns (None, c')
         /\ io c' = [tool_error "Unable to commit: index.lock exists"]).
Proof. split; eexists; [|split]; reflexivity. Qed.

(** Five files of 6000 tokens each are added: the warning is printed
    when the fourth arrives, and not again. *)
Lemma too_many_files_warning_witness :
  warning_given (coder None ∅ ∅) = false
  /\ (io (life (world true) (coder None ∅ ∅)
            [AddRelFname "a.py"; AddRelFname "b.py"; AddRelFname "c.py";
             AddRelFname "d.py"; AddRelFname "e.py"; CheckAddedFiles])
      = io (coder None ∅ ∅)
      \/ io (life (world true) (coder None ∅ ∅)
               [AddRelFname "a.py"; AddRelFname "b.py"; AddRelFname "c.py";
                AddRelFname "d.py"; AddRelFname "e.py"; CheckAddedFiles])
         = io (coder None ∅ ∅) ++ FileManagerSpec.the_warning (world true)).
Proof.
  split; [reflexivity|].
  apply (FileManagerSpec.too_many_files_warning_once (world true)). reflexivity.
Defined.

Example five_files_one_warning :
  io (life (world true) (coder None ∅ ∅)
        [AddRelFname "a.py"; AddRelFname "b.py"; AddRelFname "c.py";
         AddRelFname "d.py"; AddRelFname "e.py"; CheckAddedFiles])
  = FileManagerSpec.the_warning (world true)
  /\ io (life (world true) (coder None ∅ ∅)
           [AddRelFname "a.py"; AddRelFname "b.py"; AddRelFname "c.py"])
     = [].
Proof. vm_compute. split; reflexivity. Qed.

(** *** prepare_to_edit *)

(** The questions put to the user about [p]. *)
Definition is_prompt_for (p : string) (ev : event) : bool :=
  match ev with
  | confirm_ask _ (Some q) _ => String.eqb q p
  | _ => false
  end.

Definition prompts_for (p : string) (log : list event) : nat :=
  List.length (List.filter (is_prompt_for p) log).

(** The commits asked of the repository. *)
Definition commits_in (g : list GitAction) : list CommitRequest :=
  flat_map (fun a => match a with git_commit r => [r] | git_add _ => [] end) g.

(** An edit is kept when it has no path or its path was authorized. *)
Definition authorized (seen : gmap string bool) (edit : Edit) : bool :=
  match path edit with
  | None => true
  | Some p => match seen !! p with Some true => true | _ => false end
  end.

(** [allowed_to_edit] called on the paths of a list, one after the
    other: the path and the answer of every call, and the state after
    the last. *)
Fixpoint decisions (E : Env) (paths : list string) (c : Coder)
  : list (string * bool) * Coder :=
  match paths with
  | [] => ([], c)
  | p :: r =>
      let (allowed, c1) := allowed_to_edit E p c in
      let (l, c2) := decisions E r c1 in
      ((p, allowed) :: l, c2)
  end.

(** The paths of a batch that are not among [known], each once, in the
    order of their first edit. *)
Fixpoint distinct_paths (edits : list Edit) (known : list string) : list string :=
  match edits with
  | [] => []
  | edit :: r =>
      match path edit with
      | None => distinct_paths r known
      | Some p =>
          if bool_decide (p ∈ known) then distinct_paths r known
          else p :: distinct_paths r (known ++ [p])
      end
  end.

(** The commit of [dirty_commit], when it makes one. *)
Definition pending_request (c : Coder) : CommitRequest :=
  {| fnames := need_commit_before_edits c; context := None; aider_edits := false |}.

Lemma prompts_for_app p l w : prompts_for p (l ++ w) = prompts_for p l + prompts_for p w.
Proof. unfold prompts_for. now rewrite List.filter_app, length_app. Qed.

Lemma commits_in_app g h : commits_in (g ++ h) = commits_in g ++ commits_in h.
Proof. unfold commits_in. apply flat_map_app. Qed.

(** What one call of [allowed_to_edit p] may change. *)
Record effects (p : string) (allowed : bool) (c c' : Coder) : Prop := mkEffects {
  same_repo : repo c' = repo c;
  same_dirty_commits : dirty_commits c' = dirty_commits c;
  same_commits : commits_in (git c') = commits_in (git c);
  flags_own_path :
    need_commit_before_edits c' = need_commit_before_edits c
    \/ (allowed = true
        /\ need_commit_before_edits c' = need_commit_before_edits c ∪ {[p]});
  asks_once :
    exists w, io c' = io c ++ w
              /\ forall q, prompts_for q w <= if decide (q = p) then 1 else 0 }.

(** Closes a bound on the questions in a list that holds none. *)
Ltac quiet :=
  let q := fresh "q" in
  intros q; unfold prompts_for; simpl; try destruct (decide _); simpl; lia.

Lemma effects_refl p allowed c : effects p allowed c c.
Proof.
  constructor; auto. exists []. split; [now rewrite app_nil_r|].
  quiet.
Qed.

Lemma effects_trans p allowed c1 c2 c3 w :
  effects p allowed c1 c2 ->
  repo c3 = repo c2 -> dirty_commits c3 = dirty_commits c2 ->
  commits_in (git c3) = commits_in (git c2) ->
  need_commit_before_edits c3 = need_commit_before_edits c2 ->
  io c3 = io c2 ++ w -> (forall q, prompts_for q w = 0) ->
  effects p allowed c1 c3.
Proof.
  intros [R D C N (w0 & I & P)] R' D' C' N' I' P'.
  constructor; try congruence.
  exists (w0 ++ w). split; [rewrite I', I, app_assoc; reflexivity|].
  intros q. rewrite prompts_for_app, P'. specialize (P q). lia.
Qed.

Lemma check_added_files_quiet E c :
  exists w, io (check_added_files E c) = io c ++ w
            /\ (forall q, prompts_for q w = 0)
            /\ repo (check_added_files E c) = repo c
            /\ dirty_commits (check_added_files E c) = dirty_commits c
            /\ git (check_added_files E c) = git c
            /\ need_commit_before_edits (check_added_files E c)
               = need_commit_before_edits c.
Proof.
  destruct (FileManagerSpec.check_added_files_cases E c) as [[-> _] | [-> _]].
  - exists []. rewrite app_nil_r. repeat split; reflexivity.
  - exists (FileManagerSpec.the_warning E). repeat split; reflexivity.
Qed.

Lemma check_for_dirty_commit_frame p c :
  exists w, io (check_for_dirty_commit p c) = io c ++ w
            /\ (forall q, prompts_for q w = 0)
            /\ repo (check_for_dirty_commit p c) = repo c
            /\ dirty_commits (check_for_dirty_commit p c) = dirty_commits c
            /\ git (check_for_dirty_commit p c) = git c
            /\ (need_commit_before_edits (check_for_dirty_commit p c)
                = need_commit_before_edits c
                \/ need_commit_before_edits (check_for_dirty_commit p c)
                   = need_commit_before_edits c ∪ {[p]}).
Proof.
  unfold check_for_dirty_commit.
  destruct (repo c) as [r|] eqn:Hr;
    [|exists []; rewrite app_nil_r; repeat split; auto].
  destruct (dirty_commits c) eqn:Hd;
    [|exists []; rewrite app_nil_r; repeat split; auto].
  destruct (is_dirty r (git c) p);
    [|exists []; rewrite app_nil_r; repeat split; auto].
  eexists. simpl. repeat split; auto.
Qed.

(** A step that asks nothing and flags at most [p], after [c2]. *)
Lemma effects_step p c1 c2 c3 w :
  effects p true c1 c2 ->
  need_commit_before_edits c2 = need_commit_before_edits c1 ->
  repo c3 = repo c2 -> dirty_commits c3 = dirty_commits c2 -> git c3 = git c2 ->
  (need_commit_before_edits c3 = need_commit_before_edits c2
   \/ need_commit_before_edits c3 = need_commit_before_edits c2 ∪ {[p]}) ->
  io c3 = io c2 ++ w -> (forall q, prompts_for q w = 0) ->
  effects p true c1 c3.
Proof.
  intros [R D C _ (w0 & I & P)] N2 R' D' G' N' I' P'.
  constructor.
  - congruence.
  - congruence.
  - rewrite G'. exact C.
  - destruct N' as [N' | N']; [left | right; split; [reflexivity|]]; congruence.
  - exists (w0 ++ w). split; [rewrite I', I, app_assoc; reflexivity|].
    intros q. rewrite prompts_for_app, P'. specialize (P q). lia.
Qed.

Lemma check_for_dirty_commit_effects p c :
  effects p true c (check_for_dirty_commit p c).
Proof.
  destruct (check_for_dirty_commit_frame p c) as (w & I & P & R & D & G & N).
  eapply effects_step; eauto using effects_refl.
Qed.

(** What line 46-47 and 60-61 do after staging, seen from [c0]. *)
Lemma add_to_chat_effects E p allowed full_path need_to_add c0 c :
  effects p allowed c0 c ->
  need_commit_before_edits c = need_commit_before_edits c0 ->
  effects p allowed c0 (add_to_chat E full_path (stage need_to_add full_path c))
  /\ need_commit_before_edits (add_to_chat E full_path (stage need_to_add full_path c))
     = need_commit_before_edits c0.
Proof.
  intros H N. unfold add_to_chat.
  set (c1 := set_abs_fnames (stage need_to_add full_path c)
               (abs_fnames (stage need_to_add full_path c) ∪ {[full_path]})).
  destruct (check_added_files_quiet E c1) as (w & I & P & R & D & G & Nd).
  assert (S1 : repo c1 = repo c /\ dirty_commits c1 = dirty_commits c
               /\ commits_in (git c1) = commits_in (git c)
               /\ need_commit_before_edits c1 = need_commit_before_edits c
               /\ io c1 = io c).
  { subst c1. unfold stage. destruct need_to_add; simpl; repeat split; try reflexivity.
    rewrite commits_in_app. simpl. now rewrite app_nil_r. }
  destruct S1 as (R1 & D1 & G1 & N1 & I1).
  split.
  - eapply effects_trans; [exact H | | | | | |exact P]; try congruence.
  - congruence.
Qed.

Lemma allowed_to_edit_effects E p c :
  effects p (fst (allowed_to_edit E p c)) c (snd (allowed_to_edit E p c)).
Proof.
  unfold allowed_to_edit.
  set (need_to_add := match repo c with
                      | Some r => negb (path_in_repo r (git c) p)
                      | None => false
                      end).
  destruct (bool_decide (abs_root_path E p ∈ abs_fnames c)).
  { simpl. apply check_for_dirty_commit_effects. }
  destruct (match repo c with Some r => git_ignored_file r (git c) p | None => false end).
  { simpl. constructor; simpl; auto. eexists. split; [reflexivity|].
    quiet. }
  destruct (bool_decide (abs_root_path E p ∈ files c)); simpl.
  - (* the file exists: the question is awaited *)
    set (c1 := print c [confirm_ask
                          "Allow edits to file that has not been added to the chat?"
                          (Some p)
                          (ask E (io c)
                             "Allow edits to file that has not been added to the chat?"
                             (Some p))]).
    assert (H1 : forall allowed, effects p allowed c c1).
    { intros allowed. constructor; simpl; auto. eexists. split; [reflexivity|].
      intros q. unfold prompts_for. simpl.
      destruct (decide (q = p)) as [->|ne].
      - rewrite String.eqb_refl. simpl. lia.
      - rewrite (proj2 (String.eqb_neq p q)) by congruence. simpl. lia. }
    destruct (ask E (io c) "Allow edits to file that has not been added to the chat?"
                (Some p)); simpl.
    + destruct (add_to_chat_effects E p true (abs_root_path E p) need_to_add c c1
                  (H1 true) eq_refl) as [H2 N2].
      set (c2 := add_to_chat E (abs_root_path E p) (stage need_to_add (abs_root_path E p) c1))
        in *.
      destruct (check_for_dirty_commit_frame p c2) as (w & I & P & R & D & G & N).
      eapply effects_step; eauto.
    + eapply effects_trans; [apply (H1 false) | | | | | |]; reflexivity.
  - (* the file does not exist: the coroutine is tested, not awaited *)
    destruct (dry_run c); simpl.
    + apply (add_to_chat_effects E p true (abs_root_path E p) false c c
               (effects_refl p true c) eq_refl).
    + destruct (touch_file E (files c) (abs_root_path E p)); simpl.
      * apply (add_to_chat_effects E p true (abs_root_path E p) need_to_add c
                 (set_files c (files c ∪ {[abs_root_path E p]}))); [|reflexivity].
        constructor; simpl; auto. exists []. split; [now rewrite app_nil_r|].
        quiet.
      * constructor; simpl; auto. eexists. split; [reflexivity|].
        quiet.
Qed.

Lemma asked_known (asked : list string) (p q : string) (l : list (option string)) :
  p ∈ asked ->
  (q ∈ asked \/ Some q ∈ l) <-> (q ∈ asked \/ Some q ∈ Some p :: l).
Proof.
  intros Hin. rewrite elem_of_cons. split; [tauto|].
  intros [H | [H | H]]; auto. inversion H; subst; auto.
Qed.

Lemma asked_new (asked : list string) (p q : string) (l : list (option string)) :
  (q ∈ asked ++ [p] \/ Some q ∈ l) <-> (q ∈ asked \/ Some q ∈ Some p :: l).
Proof.
  rewrite elem_of_cons, elem_of_app, list_elem_of_singleton. split.
  - intros [[H | ->] | H]; auto.
  - intros [H | [H | H]]; auto. inversion H; subst; auto.
Qed.

Lemma asked_no_path (asked : list string) (q : string) (l : list (option string)) :
  (q ∈ asked \/ Some q ∈ l) <-> (q ∈ asked \/ Some q ∈ None :: l).
Proof.
  rewrite elem_of_cons. split; [tauto|].
  intros [H | [H | H]]; auto. discriminate.
Qed.

(** The loop of [prepare_to_edit], from any point of a batch: [asked]
    lists the keys of [seen], without repetition. *)
Lemma prepare_loop_spec E edits :
  forall seen res asked c res' seen' asked' c',
    prepare_loop E edits seen res asked c = (res', seen', asked', c') ->
    (forall p, is_Some (seen !! p) <-> p ∈ asked) -> NoDup asked ->
    (forall p, is_Some (seen' !! p) <-> p ∈ asked')
    /\ NoDup asked'
    /\ (forall p b, seen !! p = Some b -> seen' !! p = Some b)
    /\ (forall p, p ∈ asked' <-> p ∈ asked \/ Some p ∈ map path edits)
    /\ res' = res ++ List.filter (authorized seen') edits
    /\ repo c' = repo c
    /\ dirty_commits c' = dirty_commits c
    /\ commits_in (git c') = commits_in (git c)
    /\ (forall p, p ∈ need_commit_before_edits c' ->
                  p ∈ need_commit_before_edits c
                  \/ (seen !! p = None /\ seen' !! p = Some true))
    /\ (forall q, prompts_for q (io c')
                  <= prompts_for q (io c)
                     + match seen !! q with Some _ => 0 | None => 1 end).
Proof.
  induction edits as [|edit r IH]; intros seen res asked c res' seen' asked' c' H Hk Hn.
  - simpl in H. inversion H; subst. rewrite app_nil_r.
    split_and!; auto.
    + intros p. simpl. rewrite elem_of_nil. tauto.
    + intros q. lia.
  - simpl in H. destruct (path edit) as [p|] eqn:Hp.
    + destruct (seen !! p) as [a|] eqn:Hs.
      * (* a path met before: the decision is read from [seen] *)
        apply IH in H; [|exact Hk|exact Hn].
        destruct H as (K & N & M & A & R & Rp & D & G & F & P).
        assert (Hin : p ∈ asked) by (apply Hk; rewrite Hs; eauto).
        split_and!; auto.
        -- intros q. rewrite A. simpl. rewrite Hp. now apply asked_known.
        -- rewrite R. simpl. unfold authorized at 2. rewrite Hp, (M _ _ Hs).
           destruct a; [rewrite <- app_assoc|]; reflexivity.
      * (* a new path: [allowed_to_edit] is called *)
        pose proof (allowed_to_edit_effects E p c) as Eff.
        destruct (allowed_to_edit E p c) as [a c1]. simpl in Eff.
        assert (Hout : p ∉ asked).
        { intros Hin. apply Hk in Hin. rewrite Hs in Hin. destruct Hin; discriminate. }
        apply IH in H.
        -- destruct H as (K & N & M & A & R & Rp & D & G & F & P).
           destruct Eff as [R1 D1 C1 N1 (w & I1 & P1)].
           assert (Ma : seen' !! p = Some a) by (apply M, lookup_insert_eq).
           split_and!; try congruence; auto.
           ++ intros q b Hq. apply M. rewrite lookup_insert_ne; [exact Hq|].
              intros <-. congruence.
           ++ intros q. rewrite A. simpl. rewrite Hp. apply asked_new.
           ++ rewrite R. simpl. unfold authorized at 2. rewrite Hp, Ma.
              destruct a; [rewrite <- app_assoc|]; reflexivity.
           ++ intros q Hq. apply F in Hq as [Hq | [Hq1 Hq2]].
              ** destruct N1 as [N1 | [-> N1]]; rewrite N1 in Hq; [left; exact Hq|].
                 apply elem_of_union in Hq as [Hq | Hq]; [left; exact Hq|].
                 apply elem_of_singleton in Hq. subst q. right. auto.
              ** right. split; [|exact Hq2].
                 destruct (decide (p = q)) as [->|ne];
                   [rewrite lookup_insert_eq in Hq1; discriminate|].
                 rewrite lookup_insert_ne in Hq1 by exact ne. exact Hq1.
           ++ intros q. specialize (P q). specialize (P1 q).
              rewrite I1, prompts_for_app in P.
              destruct (decide (q = p)) as [->|ne].
              ** rewrite lookup_insert_eq in P. rewrite Hs. lia.
              ** rewrite lookup_insert_ne in P by congruence.
                 destruct (seen !! q); lia.
        -- intros q. rewrite lookup_insert, elem_of_app, list_elem_of_singleton.
           destruct (decide (p = q)) as [->|ne].
           ++ split; [auto | eauto].
           ++ rewrite Hk. split; [auto|]. intros [H' | H']; [exact H' | congruence].
        -- apply NoDup_app. split_and!; [exact Hn | | apply NoDup_singleton].
           intros x Hx Hx'. apply list_elem_of_singleton in Hx'. congruence.
    + (* an edit without a path is kept *)
      apply IH in H; [|exact Hk|exact Hn].
      destruct H as (K & N & M & A & R & Rp & D & G & F & P).
      split_and!; auto.
      * intros q. rewrite A. simpl. rewrite Hp. apply asked_no_path.
      * rewrite R. simpl. unfold authorized at 2. rewrite Hp, <- app_assoc. reflexivity.
Qed.

(** The calls of the loop: [allowed_to_edit] is called on the new paths
    of the batch, each once and in the order of their first edit, every
    call in the state the call before it left; [seen] records the
    answers of these calls and nothing else. *)
Lemma prepare_loop_calls E edits :
  forall seen res asked c res' seen' asked' c',
    prepare_loop E edits seen res asked c = (res', seen', asked', c') ->
    (forall p, is_Some (seen !! p) <-> p ∈ asked) ->
    asked' = asked ++ distinct_paths edits asked
    /\ c' = snd (decisions E (distinct_paths edits asked) c)
    /\ map fst (fst (decisions E (distinct_paths edits asked) c))
       = distinct_paths edits asked
    /\ (forall p b,
          seen' !! p = Some b
          <-> seen !! p = Some b
              \/ (p, b) ∈ fst (decisions E (distinct_paths edits asked) c)).
Proof.
  induction edits as [|edit r IH]; intros seen res asked c res' seen' asked' c' H Hk.
  - simpl in H. inversion H; subst. simpl. rewrite app_nil_r.
    split_and!; auto. intros p b. rewrite elem_of_nil. tauto.
  - simpl in H. cbn [distinct_paths]. destruct (path edit) as [p|] eqn:Hp.
    + destruct (seen !! p) as [a|] eqn:Hs.
      * assert (Hin : p ∈ asked) by (apply Hk; rewrite Hs; eauto).
        rewrite bool_decide_eq_true_2 by exact Hin.
        apply IH in H; [exact H | exact Hk].
      * assert (Hout : p ∉ asked).
        { intros Hin. apply Hk in Hin. rewrite Hs in Hin. destruct Hin; discriminate. }
        rewrite bool_decide_eq_false_2 by exact Hout. cbn [decisions].
        destruct (allowed_to_edit E p c) as [a c1].
        apply IH in H.
        -- destruct H as (A & C & K & M).
           destruct (decisions E (distinct_paths r (asked ++ [p])) c1) as [l c2].
           cbn [fst snd map] in *. split_and!.
           ++ rewrite A, <- app_assoc. reflexivity.
           ++ exact C.
           ++ rewrite K. reflexivity.
           ++ intros q b. rewrite M, elem_of_cons. split.
              ** intros [Hq | Hq]; [|auto].
                 destruct (decide (p = q)) as [<-|ne].
                 --- rewrite lookup_insert_eq in Hq. injection Hq as <-. auto.
                 --- rewrite lookup_insert_ne in Hq by exact ne. auto.
              ** intros [Hq | [Hq | Hq]]; [| |auto].
                 --- left. rewrite lookup_insert_ne; [exact Hq|]. intros <-. congruence.
                 --- injection Hq as -> ->. left. apply lookup_insert_eq.
        -- intros q. rewrite lookup_insert, elem_of_app, list_elem_of_singleton.
           destruct (decide (p = q)) as [->|ne].
           ++ split; [auto | eauto].
           ++ rewrite Hk. split; [auto|]. intros [H' | H']; [exact H' | congruence].
    + apply IH in H; [exact H | exact Hk].
Qed.

(** [dirty_commit] makes a commit. *)
Definition commit_is_due (c : Coder) : bool :=
  negb (bool_decide (need_commit_before_edits c = ∅)) && dirty_commits c
  && match repo c with Some _ => true | None => false end.

Lemma dirty_commit_spec c :
  match dirty_commit c with
  | Returns c' =>
      need_commit_before_edits c' = need_commit_before_edits c
      /\ git c' = git c ++ (if commit_is_due c then [git_commit (pending_request c)] else [])
  | Throws text =>
      commit_is_due c = true
      /\ exists r, repo c = Some r /\ commit r (git c) (pending_request c) = GitError text
  end.
Proof.
  unfold dirty_commit, commit_is_due.
  destruct (bool_decide (need_commit_before_edits c = ∅)); simpl;
    [now rewrite app_nil_r|].
  destruct (dirty_commits c); simpl; [|now rewrite app_nil_r].
  destruct (repo c) as [r|]; [|now rewrite app_nil_r].
  fold (pending_request c).
  destruct (commit r (git c) (pending_request c)) eqn:Hc; simpl; eauto.
Qed.

(** C8.  In a batch, [allowed_to_edit] is called on every path of the
    edits exactly once: [asked] lists the calls; it holds the distinct
    paths of the edits in the order of their first edit; every call is
    made in the state the call before it left, [c1] is the state after
    the last, and [seen] holds for every path the answer of its call and
    nothing else.  The user is asked about a path at most once; the
    edits returned are exactly those without a path or whose path was
    authorized by its call; no commit is made while the paths are
    authorized, and then at most one, which covers the whole pending set
    (the paths flagged in this batch, all of them authorized); the
    pending set is empty when [prepare_to_edit] returns.  If the
    repository raises an error in that commit, [prepare_to_edit] does
    not return. *)
Theorem prepare_to_edit_batch (E : Env) (edits : list Edit) (c : Coder) :
  exists seen asked c1,
    prepare_loop E edits ∅ [] [] (set_need_commit c ∅)
    = (List.filter (authorized seen) edits, seen, asked, c1)
    /\ NoDup asked
    /\ (forall p, p ∈ asked <-> Some p ∈ map path edits)
    /\ (forall p, is_Some (seen !! p) <-> p ∈ asked)
    /\ asked = distinct_paths edits []
    /\ map fst (fst (decisions E asked (set_need_commit c ∅))) = asked
    /\ (forall p b,
          seen !! p = Some b
          <-> (p, b) ∈ fst (decisions E asked (set_need_commit c ∅)))
    /\ c1 = snd (decisions E asked (set_need_commit c ∅))
    /\ (forall p, prompts_for p (io c1) <= prompts_for p (io c) + 1)
    /\ (forall p, p ∈ need_commit_before_edits c1 -> seen !! p = Some true)
    /\ commits_in (git c1) = commits_in (git c)
    /\ match prepare_to_edit E edits c with
       | Returns (res, c') =>
           res = List.filter (authorized seen) edits
           /\ need_commit_before_edits c' = ∅
           /\ commits_in (git c')
              = commits_in (git c)
                ++ (if commit_is_due c1 then [pending_request c1] else [])
       | Throws text =>
           exists r, repo c1 = Some r
                     /\ commit r (git c1) (pending_request c1) = GitError text
       end.
Proof.
  destruct (prepare_loop E edits ∅ [] [] (set_need_commit c ∅))
    as [[[res seen] asked] c1] eqn:L.
  pose proof (prepare_loop_spec E edits _ _ _ _ _ _ _ _ L) as S.
  destruct S as (K & N & M & A & R & Rp & D & G & F & P).
  { intros p. rewrite lookup_empty, elem_of_nil. split; [intros [x Hx]; discriminate | tauto]. }
  { apply NoDup_nil_2. }
  simpl in R. subst res.
  pose proof (prepare_loop_calls E edits _ _ _ _ _ _ _ _ L) as Calls.
  destruct Calls as (Ca & Cc & Ck & Cm).
  { intros p. rewrite lookup_empty, elem_of_nil. split; [intros [x Hx]; discriminate | tauto]. }
  cbn [app] in Ca. rewrite <- Ca in Cc, Ck, Cm.
  exists seen, asked, c1. split_and!; auto.
  - intros p. rewrite A, elem_of_nil. tauto.
  - intros p b. rewrite Cm, lookup_empty. split; [|auto].
    intros [H|H]; [discriminate | exact H].
  - intros p Hp. apply F in Hp as [Hp | [_ Hp]]; [|exact Hp].
    simpl in Hp. apply elem_of_empty in Hp. destruct Hp.
  - unfold prepare_to_edit. rewrite L.
    pose proof (dirty_commit_spec c1) as Dc.
    destruct (dirty_commit c1) as [c2|text].
    + destruct Dc as [_ Dg]. split_and!; auto.
      change (git (set_need_commit c2 ∅)) with (git c2).
      rewrite Dg, commits_in_app, G. simpl.
      destruct (commit_is_due c1); reflexivity.
    + destruct Dc as [_ Dc]. exact Dc.
Qed.

(** A batch: two edits of notes.md (in chat, with uncommitted changes);
    a shell command, without a path; an edit of old.py, which exists and
    is not in chat, and which the user declines.  [allowed_to_edit] is
    called once on notes.md and once on old.py; both edits of notes.md
    and the shell command are kept; one commit is made, of notes.md. *)
Example a_batch_of_edits :
  let edits := [ {| path := Some "notes.md"; body := "first" |};
                 {| path := None; body := "make test" |};
                 {| path := Some "old.py"; body := "second" |};
                 {| path := Some "notes.md"; body := "third" |} ] in
  let c := coder (Some (repository (Committed "abc1234" "notes")))
             {["/repo/notes.md"; "/repo/old.py"]} {["/repo/notes.md"]} in
  snd (fst (prepare_loop (world false) edits ∅ [] [] (set_need_commit c ∅)))
  = ["notes.md"; "old.py"]
  /\ match prepare_to_edit (world false) edits c with
     | Returns (res, c') =>
         map body res = ["first"; "make test"; "third"]
         /\ elements (need_commit_before_edits c') = []
         /\ map (fun r => elements (fnames r)) (commits_in (git c')) = [["notes.md"]]
     | Throws _ => False
     end.
Proof. vm_compute. repeat split; reflexivity. Qed.

End EditorSpec.

(** * Further properties of the code *)

(** ** _find_occurrences *)

Module OccurrencesSpec.
Import Py Text Mentions.

(** [pattern] starts at position [i] of [content]. *)
Definition occurs_at (content pattern : string) (i : nat) : bool :=
  startswith (drop i content) pattern.

Lemma drop_drop (a b : nat) (s : string) : drop b (drop a s) = drop (a + b) s.
Proof.
  revert s; induction a as [|a IH]; intros s; simpl.
  - reflexivity.
  - destruct s as [|c r]; simpl.
    + destruct b; reflexivity.
    + apply IH.
Qed.

Lemma length_drop (n : nat) (s : string) :
  String.length (drop n s) = String.length s - n.
Proof.
  revert s; induction n as [|n IH]; intros [|c r]; simpl; try lia.
  apply IH.
Qed.

Lemma find_in_spec (sub s : string) (pos : nat) :
  match find_in sub s pos with
  | Some i =>
      exists k, i = pos + k /\ k <= String.length s
                /\ startswith (drop k s) sub = true
                /\ forall j, j < k -> startswith (drop j s) sub = false
  | None => forall j, j <= String.length s -> startswith (drop j s) sub = false
  end.
Proof.
  revert pos; induction s as [|c r IH]; intros pos.
  - cbn [find_in]. destruct (startswith "" sub) eqn:E.
    + exists 0. split_and!; [lia | simpl; lia | exact E | intros; lia].
    + intros j Hj. destruct j; exact E.
  - cbn [find_in]. destruct (startswith (String c r) sub) eqn:E.
    + exists 0. split_and!; [lia | simpl; lia | exact E | intros; lia].
    + specialize (IH (S pos)). destruct (find_in sub r (S pos)) as [i|].
      * destruct IH as (k & -> & Hk & Hs & Hl).
        exists (S k). split_and!; [lia | simpl; lia | exact Hs |].
        intros [|j] Hj; [exact E | apply Hl; lia].
      * intros [|j] Hj; [exact E | apply IH; simpl in Hj; lia].
Qed.

Lemma find_spec (content pattern : string) (start : nat) :
  match find content pattern start with
  | Some i =>
      start <= i <= String.length content /\ occurs_at content pattern i = true
      /\ forall j, start <= j < i -> occurs_at content pattern j = false
  | None =>
      forall j, start <= j <= String.length content -> occurs_at content pattern j = false
  end.
Proof.
  unfold find, occurs_at. destruct (Nat.ltb_spec (String.length content) start) as [H|H].
  - intros j Hj; lia.
  - pose proof (find_in_spec pattern (drop start content) start) as F.
    destruct (find_in pattern (drop start content) start) as [i|].
    + destruct F as (k & -> & Hk & Hs & Hl). rewrite length_drop in Hk.
      rewrite drop_drop in Hs. split_and!; [lia | lia | exact Hs |].
      intros j Hj. replace j with (start + (j - start)) by lia.
      rewrite <- drop_drop. apply Hl; lia.
    + intros j Hj. replace j with (start + (j - start)) by lia.
      rewrite <- drop_drop. apply F. rewrite length_drop; lia.
Qed.

Lemma filter_none {A} (P : A -> bool) (l : list A) :
  (forall x, In x l -> P x = false) -> List.filter P l = [].
Proof.
  induction l as [|a l IH]; intros H; simpl; [reflexivity|].
  rewrite (H a) by (left; reflexivity). apply IH. intros x Hx; apply H; right; exact Hx.
Qed.

(** The matches the loop records: the positions at which the pattern
    starts and whose window holds the context. *)
Definition wanted (content pattern : string) (near_context : option string) (i : nat) : bool :=
  occurs_at content pattern i && recorded content pattern near_context i.

Lemma occurrences_loop_spec (content pattern : string) (near_context : option string)
    (fuel start : nat) (occurrences : list nat) :
  S (String.length content) - start < fuel ->
  occurrences_loop fuel content pattern near_context start occurrences
  = Some (occurrences
          ++ List.filter (wanted content pattern near_context)
               (seq start (S (String.length content) - start))).
Proof.
  revert start occurrences; induction fuel as [|fuel IH]; intros start acc Hf; [lia|].
  cbn [occurrences_loop]. pose proof (find_spec content pattern start) as F.
  destruct (find content pattern start) as [i|].
  - destruct F as (Hi & Ho & Hl).
    rewrite IH by lia.
    replace (S (String.length content) - start)
      with ((i - start) + (1 + (S (String.length content) - (i + 1)))) by lia.
    rewrite !seq_app, !List.filter_app.
    rewrite (filter_none _ (seq start (i - start))).
    2:{ intros x Hx. apply in_seq in Hx. unfold wanted. rewrite Hl by lia. reflexivity. }
    replace (start + (i - start)) with i by lia.
    replace (i + 1) with (S i) by lia. cbn [seq List.filter app].
    unfold wanted at 2. rewrite Ho. cbn [andb].
    replace (1 + (S (String.length content) - S i)) with (S (String.length content - i)) by lia.
    destruct (recorded content pattern near_context i).
    + rewrite <- app_assoc. simpl. repeat f_equal; lia.
    + simpl. repeat f_equal; lia.
  - rewrite filter_none; [rewrite app_nil_r; reflexivity|].
    intros x Hx. apply in_seq in Hx. unfold wanted. rewrite F by lia. reflexivity.
Qed.

(** X1.  [_find_occurrences] returns, in ascending order and once each,
    exactly the positions from 0 to the length of the content at which
    the pattern starts (overlapping matches included) and, when a
    non-empty context is given, whose window of 200 characters on both
    sides holds the context. *)
Theorem find_occurrences_all_matches (content pattern : string)
    (near_context : option string) :
  _find_occurrences content pattern near_context
  = Some (List.filter (wanted content pattern near_context)
            (seq 0 (S (String.length content)))).
Proof.
  unfold _find_occurrences. rewrite occurrences_loop_spec by lia.
  rewrite Nat.sub_0_r. reflexivity.
Qed.

Lemma startswith_empty (s : string) : startswith s "" = true.
Proof. destruct s; reflexivity. Qed.

Lemma after_prefix_length' (p s r : string) :
  after_prefix p s = Some r -> String.length s = String.length p + String.length r.
Proof.
  revert s; induction p as [|a p IH]; intros s H; simpl in H.
  - injection H as ->. reflexivity.
  - destruct s as [|b s]; [discriminate|].
    destruct (Ascii.eqb a b); [|discriminate]. simpl. f_equal. apply IH, H.
Qed.

Lemma filter_all {A} (P : A -> bool) (l : list A) :
  (forall x, In x l -> P x = true) -> List.filter P l = l.
Proof.
  induction l as [|a l IH]; intros H; simpl; [reflexivity|].
  rewrite (H a) by (left; reflexivity). f_equal. apply IH.
  intros x Hx; apply H; right; exact Hx.
Qed.

(** X2.  Two edges of [_find_occurrences]: the empty pattern is found at
    every position, the end of the content included, and a pattern
    longer than the content is found nowhere. *)
Theorem find_occurrences_edges :
  (forall content,
      _find_occurrences content "" None = Some (seq 0 (S (String.length content))))
  /\ (forall content pattern near_context,
         String.length content < String.length pattern ->
         _find_occurrences content pattern near_context = Some []).
Proof.
  split.
  - intros content. unfold _find_occurrences. rewrite occurrences_loop_spec by lia.
    rewrite Nat.sub_0_r. cbn [app]. f_equal.
    apply filter_all. intros x _. unfold wanted, occurs_at, recorded.
    rewrite startswith_empty. reflexivity.
  - intros content pattern nc H. unfold _find_occurrences.
    rewrite occurrences_loop_spec by lia. cbn [app]. f_equal.
    apply filter_none. intros x _. unfold wanted, occurs_at, startswith.
    destruct (after_prefix pattern (drop x content)) as [r|] eqn:E; [|reflexivity].
    apply after_prefix_length' in E. rewrite length_drop in E. lia.
Qed.

End OccurrencesSpec.

(** ** get_ident_filename_matches and get_file_mentions *)

Module MentionsSpec.
Import Py Text Mentions.

(** The key under which a file is indexed, if it is. *)
Definition key (E : Env) (fname : string) : option string :=
  if negb (truthy fname) || String.eqb fname "." then None
  else
    match stem E fname with
    | None => None
    | Some s => if (5 <=? String.length (lower s))%nat then Some (lower s) else None
    end.

Lemma index_file_key (E : Env) (m : gmap string (gset string)) (fname : string) :
  index_file E m fname
  = match key E fname with
    | Some base => <[base := default ∅ (m !! base) ∪ {[fname]}]> m
    | None => m
    end.
Proof.
  unfold index_file, key. destruct (negb (truthy fname) || String.eqb fname "."); [reflexivity|].
  destruct (stem E fname) as [s|]; [|reflexivity].
  destruct (5 <=? String.length (lower s))%nat; reflexivity.
Qed.

Lemma index_files_spec (E : Env) (l : list string) (m : gmap string (gset string))
    (base f : string) :
  f ∈ default ∅ (fold_left (index_file E) l m !! base)
  <-> f ∈ default ∅ (m !! base) \/ (f ∈ l /\ key E f = Some base).
Proof.
  revert m; induction l as [|a l IH]; intros m; cbn [fold_left].
  - split; [auto|]. intros [H|[H _]]; [exact H|]. inversion H.
  - rewrite IH, index_file_key. destruct (key E a) as [b|] eqn:K.
    + destruct (decide (b = base)) as [->|Hb].
      * rewrite lookup_insert_eq. cbn [default from_option id]. rewrite elem_of_union, elem_of_singleton.
        rewrite elem_of_cons. split.
        -- intros [[H| ->]|[H1 H2]]; auto.
        -- intros [H|[[->|H1] H2]]; auto.
      * rewrite lookup_insert_ne by exact Hb. rewrite elem_of_cons. split.
        -- intros [H|[H1 H2]]; auto.
        -- intros [H|[[->|H1] H2]]; auto. congruence.
    + rewrite elem_of_cons. split.
      * intros [H|[H1 H2]]; auto.
      * intros [H|[[->|H1] H2]]; auto. congruence.
Qed.

Lemma match_idents_spec (m : gmap string (gset string)) (idents : list string)
    (matches : gset string) (f : string) :
  f ∈ fold_left (match_ident m) idents matches
  <-> f ∈ matches
      \/ exists ident, ident ∈ idents /\ 5 <= String.length ident
                       /\ f ∈ default ∅ (m !! lower ident).
Proof.
  revert matches; induction idents as [|a l IH]; intros matches; cbn [fold_left].
  - split; [auto|]. intros [H|(i & H & _)]; [exact H|]. inversion H.
  - rewrite IH. unfold match_ident at 1.
    destruct (Nat.ltb_spec (String.length a) 5) as [Ha|Ha].
    + split.
      * intros [H|(i & H1 & H2)]; [auto|]. right. exists i. rewrite elem_of_cons. auto.
      * intros [H|(i & H1 & H2 & H3)]; [auto|]. apply elem_of_cons in H1 as [->|H1]; [lia|].
        right. exists i. auto.
    + rewrite elem_of_union. split.
      * intros [[H|H]|(i & H1 & H2)]; [auto| |].
        -- right. exists a. rewrite elem_of_cons. auto.
        -- right. exists i. rewrite elem_of_cons. auto.
      * intros [H|(i & H1 & H2 & H3)]; [auto|]. apply elem_of_cons in H1 as [->|H1]; [auto|].
        right. exists i. auto.
Qed.

(** X3.  [get_ident_filename_matches] returns exactly the files of the
    repository, other than the empty name and the dot, whose stem has at
    least five characters and is, up to case, one of the identifiers of
    at least five characters; a file whose path raises ValueError never
    matches. *)
Theorem ident_filename_matches_spec (E : Env) (idents : list string) (fname : string) :
  fname ∈ get_ident_filename_matches E idents
  <-> fname ∈ get_all_relative_files E /\ fname <> "" /\ fname <> "."
      /\ exists s ident,
           stem E fname = Some s /\ 5 <= String.length (lower s)
           /\ ident ∈ idents /\ 5 <= String.length ident /\ lower ident = lower s.
Proof.
  unfold get_ident_filename_matches. rewrite match_idents_spec. split.
  - intros [H|(ident & Hi & Hl & H)]; [set_solver|].
    apply index_files_spec in H as [H|[H K]]; [rewrite lookup_empty in H; set_solver|].
    apply elem_of_elements in H. split; [exact H|]. unfold key in K.
    destruct fname as [|c r]; [discriminate|]. split; [discriminate|]. cbn [truthy negb orb] in K.
    destruct (String.eqb_spec (String c r) ".") as [Hd|Hd]; [discriminate|]. split; [exact Hd|].
    destruct (stem E (String c r)) as [s|]; [|discriminate].
    destruct (Nat.leb_spec 5 (String.length (lower s))) as [H5|H5]; [|discriminate].
    exists s, ident. injection K as K. auto.
  - intros (Hf & Hne & Hd & s & ident & Hs & H5 & Hi & Hl & He). right.
    exists ident. split_and!; [exact Hi | exact Hl |].
    apply index_files_spec. right. split; [apply elem_of_elements, Hf|].
    unfold key. destruct fname as [|c r]; [congruence|]. cbn [truthy negb orb].
    destruct (String.eqb_spec (String c r) ".") as [Hd'|Hd']; [congruence|].
    rewrite Hs. destruct (Nat.leb_spec 5 (String.length (lower s))) as [H5'|H5']; [|lia].
    congruence.
Qed.

(** The stems and the identifiers are compared as [str.lower] leaves
    them: the file named U+00C9 COLE.py matches the identifier U+00E9
    cole. *)
Example ident_matches_fold_latin1 :
  get_ident_filename_matches
    {| get_all_relative_files := {[ String "201" "COLE.py" ]};
       get_addable_relative_files := ∅;
       get_inchat_relative_files := [];
       abs_read_only_fnames := [];
       abs_read_only_stubs_fnames := [];
       get_rel_fname := fun f => f;
       basename := fun f => f;
       stem := fun f => if String.eqb f (String "201" "COLE.py")
                        then Some (String "201" "COLE") else None |}
    [String "233" "cole"]
  = {[ String "201" "COLE.py" ]}.
Proof. vm_compute. reflexivity. Qed.

Lemma among_spec (x : string) (l : list string) : among x l = true <-> x ∈ l.
Proof.
  unfold among. rewrite existsb_exists. split.
  - intros (y & Hy & E). apply String.eqb_eq in E as ->. apply list_elem_of_In, Hy.
  - intros H. exists x. split; [apply list_elem_of_In, H | apply String.eqb_refl].
Qed.

Lemma among_false (x : string) (l : list string) : among x l = false <-> x ∉ l.
Proof.
  rewrite <- among_spec. destruct (among x l); split; intros H; congruence.
Qed.

(** The two parts of the state of the first loop go their own ways. *)
Definition note_path (words : list string) (mentioned : gset string) (rel_fname : string)
  : gset string :=
  if among (normalized rel_fname) (map normalized words)
  then mentioned ∪ {[rel_fname]} else mentioned.

Definition note_basename (E : Env) (m : gmap string (list string)) (rel_fname : string)
  : gmap string (list string) :=
  if not_a_plain_word (basename E rel_fname)
  then <[basename E rel_fname := default [] (m !! basename E rel_fname) ++ [rel_fname]]> m
  else m.

Lemma scan_addable_split (E : Env) (words l : list string) (mentioned : gset string)
    (m : gmap string (list string)) :
  fold_left (scan_addable E words) l (mentioned, m)
  = (fold_left (note_path words) l mentioned, fold_left (note_basename E) l m).
Proof.
  revert mentioned m; induction l as [|a l IH]; intros mentioned m; [reflexivity|].
  cbn [fold_left]. unfold scan_addable at 2. rewrite IH. reflexivity.
Qed.

Lemma note_path_spec (words l : list string) (mentioned : gset string) (r : string) :
  r ∈ fold_left (note_path words) l mentioned
  <-> r ∈ mentioned \/ (r ∈ l /\ normalized r ∈ map normalized words).
Proof.
  revert mentioned; induction l as [|a l IH]; intros mentioned; cbn [fold_left].
  - split; [auto|]. intros [H|[H _]]; [exact H | inversion H].
  - rewrite IH. unfold note_path at 1. rewrite elem_of_cons.
    destruct (among (normalized a) (map normalized words)) eqn:A.
    + apply among_spec in A. rewrite elem_of_union, elem_of_singleton. split.
      * intros [[H| ->]|[H1 H2]]; auto.
      * intros [H|[[->|H1] H2]]; auto.
    + apply among_false in A. split.
      * intros [H|[H1 H2]]; auto.
      * intros [H|[[->|H1] H2]]; auto. contradiction.
Qed.

(** The files of a list with a given basename. *)
Definition bucket (E : Env) (l : list string) (fname : string) : list string :=
  List.filter (fun r => String.eqb (basename E r) fname) l.

Lemma note_basename_spec (E : Env) (l : list string) (m : gmap string (list string))
    (fname : string) :
  fold_left (note_basename E) l m !! fname
  = match bucket E l fname with
    | [] => m !! fname
    | b => if not_a_plain_word fname then Some (default [] (m !! fname) ++ b)
           else m !! fname
    end.
Proof.
  revert m; induction l as [|a l IH]; intros m; cbn [fold_left]; [reflexivity|].
  rewrite IH. unfold note_basename. unfold bucket at 2. cbn [List.filter].
  fold (bucket E l fname).
  destruct (String.eqb_spec (basename E a) fname) as [<-|Hn].
  - destruct (not_a_plain_word (basename E a));
      destruct (bucket E l (basename E a));
      rewrite ?lookup_insert_eq; cbn [default from_option id]; rewrite <- ?app_assoc;
      reflexivity.
  - destruct (not_a_plain_word (basename E a));
      rewrite ?lookup_insert_ne by exact Hn; reflexivity.
Qed.

Lemma scan_basename_spec (words existing : list string)
    (items : list (string * list string)) (mentioned : gset string) (r : string) :
  r ∈ fold_left (scan_basename words existing) items mentioned
  <-> r ∈ mentioned
      \/ exists fname, ((fname, [r]) ∈ items) /\ (fname ∉ existing) /\ fname ∈ words.
Proof.
  revert mentioned; induction items as [|[f rs] items IH]; intros mentioned; cbn [fold_left].
  - split; [auto|]. intros [H|(f & H & _)]; [exact H | inversion H].
  - rewrite IH. unfold scan_basename at 1.
    assert (Hskip : (r ∈ mentioned
                     \/ exists fname, ((fname, [r]) ∈ items) /\ (fname ∉ existing) /\ fname ∈ words)
                    -> r ∈ mentioned
                       \/ exists fname, ((fname, [r]) ∈ (f, rs) :: items)
                                        /\ (fname ∉ existing) /\ fname ∈ words).
    { intros [H|(g & H1 & H2)]; [auto|]. right. exists g. rewrite elem_of_cons. auto. }
    destruct (among f existing) eqn:X.
    + apply among_spec in X. split; [exact Hskip|].
      intros [H|(g & H1 & H2 & H3)]; [auto|]. apply elem_of_cons in H1 as [H1|H1].
      * injection H1 as -> _. contradiction.
      * right. exists g. auto.
    + apply among_false in X.
      destruct rs as [|r0 [|r1 rs]].
      * split; [exact Hskip|]. intros [H|(g & H1 & H2 & H3)]; [auto|].
        apply elem_of_cons in H1 as [H1|H1]; [discriminate|]. right. exists g. auto.
      * destruct (among f words) eqn:A.
        -- apply among_spec in A. rewrite elem_of_union, elem_of_singleton. split.
           ++ intros [[H| ->]|H]; [auto | | apply Hskip; auto].
              right. exists f. rewrite elem_of_cons. auto.
           ++ intros [H|(g & H1 & H2 & H3)]; [auto|].
              apply elem_of_cons in H1 as [H1|H1]; [injection H1 as -> ->; auto|].
              right. exists g. auto.
        -- apply among_false in A. split; [exact Hskip|].
           intros [H|(g & H1 & H2 & H3)]; [auto|].
           apply elem_of_cons in H1 as [H1|H1]; [injection H1 as -> ->; contradiction|].
           right. exists g. auto.
      * split; [exact Hskip|]. intros [H|(g & H1 & H2 & H3)]; [auto|].
        apply elem_of_cons in H1 as [H1|H1]; [discriminate|]. right. exists g. auto.
Qed.

Lemma filter_singleton {A} (P : A -> bool) (l : list A) (r : A) :
  NoDup l ->
  List.filter P l = [r] <-> r ∈ l /\ P r = true /\ forall x, x ∈ l -> P x = true -> x = r.
Proof.
  intros N. split.
  - intros H.
    assert (M : forall x, In x (List.filter P l) <-> x = r).
    { intros x. rewrite H. simpl. split; [intros [->|[]]; reflexivity | auto]. }
    split_and!.
    + apply list_elem_of_In. apply (filter_In P r l). apply M. reflexivity.
    + apply (filter_In P r l). apply M. reflexivity.
    + intros x Hx Px. apply M. apply filter_In. split; [apply list_elem_of_In, Hx | exact Px].
  - induction N as [|a l Ha N IH]; intros (Hr & Pr & U); [inversion Hr|].
    cbn [List.filter]. destruct (P a) eqn:Pa.
    + assert (a = r) as -> by (apply U; [left | exact Pa]).
      f_equal. apply OccurrencesSpec.filter_none. intros x Hx.
      destruct (P x) eqn:Px; [|reflexivity]. apply list_elem_of_In in Hx.
      assert (x = r) as -> by (apply U; [right; exact Hx | exact Px]). contradiction.
    + apply IH. apply elem_of_cons in Hr as [->|Hr]; [congruence|].
      split_and!; [exact Hr | exact Pr |]. intros x Hx Px. apply U; [right; exact Hx | exact Px].
Qed.

(** X4.  [get_file_mentions] returns exactly the addable files (all the
    files of the repository when [ignore_current] is set) that the
    content mentions in one of two ways: the whole relative path is a
    word of the content, up to the direction of the slashes; or the
    basename is a word of the content, holds a slash, a backslash, a
    dot, an underscore or a hyphen, is the basename of no other addable
    file, and is not the basename of a file already in the chat or read
    only.  Words are split at white space, lose trailing punctuation and
    then quotes on both sides. *)
Theorem file_mentions_spec (E : Env) (content : string) (ignore_current : bool)
    (rel_fname : string) :
  rel_fname ∈ get_file_mentions E content ignore_current
  <-> rel_fname ∈ addable_rel_fnames E ignore_current
      /\ (normalized rel_fname ∈ map normalized (words_of content)
          \/ (basename E rel_fname ∈ words_of content
              /\ not_a_plain_word (basename E rel_fname) = true
              /\ (basename E rel_fname ∉ existing_basenames E ignore_current)
              /\ forall other, other ∈ addable_rel_fnames E ignore_current ->
                               basename E other = basename E rel_fname -> other = rel_fname)).
Proof.
  unfold get_file_mentions.
  set (addable := addable_rel_fnames E ignore_current).
  set (existing := existing_basenames E ignore_current).
  rewrite scan_addable_split, scan_basename_spec, note_path_spec.
  assert (B : forall fname,
             ((fname, [rel_fname])
                ∈ map_to_list (fold_left (note_basename E) (elements addable) ∅))
             <-> not_a_plain_word fname = true /\ rel_fname ∈ addable
                 /\ basename E rel_fname = fname
                 /\ forall other, other ∈ addable -> basename E other = fname
                                  -> other = rel_fname).
  { intros fname. rewrite elem_of_map_to_list, note_basename_spec, lookup_empty.
    cbn [default from_option id app].
    pose proof (filter_singleton (fun r => String.eqb (basename E r) fname)
                  (elements addable) rel_fname (NoDup_elements addable)) as S.
    fold (bucket E (elements addable) fname) in S.
    split.
    - intros H. destruct (bucket E (elements addable) fname) as [|b t] eqn:Bk; [discriminate|].
      destruct (not_a_plain_word fname); [|discriminate].
      assert (H' : b :: t = [rel_fname]) by congruence.
      apply S in H' as (H1 & H2 & H3).
      split_and!; [reflexivity | apply elem_of_elements, H1 | apply String.eqb_eq, H2 |].
      intros o Ho Eo. apply H3; [apply elem_of_elements, Ho | apply String.eqb_eq, Eo].
    - intros (H0 & H1 & H2 & H3).
      assert (Bk : bucket E (elements addable) fname = [rel_fname]).
      { apply S. split_and!; [apply elem_of_elements, H1 | apply String.eqb_eq, H2 |].
        intros o Ho Eo. apply H3; [apply elem_of_elements, Ho | apply String.eqb_eq, Eo]. }
      rewrite Bk, H0. reflexivity. }
  split.
  - intros [[H|[H1 H2]]|(fname & H1 & H2 & H3)].
    + set_solver.
    + split; [apply elem_of_elements, H1 | left; exact H2].
    + apply B in H1 as (S & Ha & <- & U). split; [exact Ha|]. right. auto.
  - intros (Ha & [H|(H1 & H2 & H3 & H4)]).
    + left. right. split; [apply elem_of_elements, Ha | exact H].
    + right. exists (basename E rel_fname). split_and!; [|exact H3|exact H1].
      apply B. auto.
Qed.

Lemma file_mentions_addable (E : Env) (content : string) (ignore_current : bool)
    (rel_fname : string) :
  rel_fname ∈ get_file_mentions E content ignore_current ->
  rel_fname ∈ addable_rel_fnames E ignore_current.
Proof.
  unfold get_file_mentions. rewrite scan_addable_split, scan_basename_spec, note_path_spec.
  intros [[H|[H _]]|(fname & H & _)].
  - set_solver.
  - apply elem_of_elements, H.
  - apply elem_of_map_to_list in H. rewrite note_basename_spec, lookup_empty in H.
    cbn [default from_option id app] in H.
    destruct (bucket E _ fname) as [|b t] eqn:B; [discriminate|].
    destruct (not_a_plain_word fname); [|discriminate].
    assert (In rel_fname (bucket E (elements (addable_rel_fnames E ignore_current)) fname))
      as I by (rewrite B; injection H as ->; left; reflexivity).
    apply filter_In in I as [I _]. apply elem_of_elements, list_elem_of_In, I.
Qed.

(** X5.  When the coder's addable files are those of the file manager,
    [get_file_mentions], asked not to ignore the chat, never returns a
    file that is in the chat already, or read only, or a read-only stub:
    what it returns is among the files of the repository. *)
Theorem mentions_leave_out_the_chat (E : Env) (M : Listing.Manager) (content : string)
    (rel_fname : string) :
  get_addable_relative_files E = Listing.get_addable_relative_files M ->
  rel_fname ∈ get_file_mentions E content false ->
  rel_fname ∈ Listing.get_all_relative_files M
  /\ (forall fname,
         fname ∈ Listing.abs_fnames M ∪ Listing.abs_read_only_fnames M
                 ∪ Listing.abs_read_only_stubs_fnames M ->
         Listing.get_rel_fname M fname <> rel_fname).
Proof.
  intros A H. apply file_mentions_addable in H. unfold addable_rel_fnames in H.
  rewrite A in H. unfold Listing.get_addable_relative_files in H.
  apply elem_of_difference in H as [H S]. apply elem_of_difference in H as [H R].
  apply elem_of_difference in H as [H C]. split; [exact H|].
  intros fname Hf Heq. apply elem_of_union in Hf as [Hf|Hf]; [apply elem_of_union in Hf as [Hf|Hf]|].
  - apply C. unfold Listing.get_inchat_relative_files. apply elem_of_map. exists fname. auto.
  - apply R. apply elem_of_map. exists fname. auto.
  - apply S. apply elem_of_map. exists fname. auto.
Qed.

(** A repository of three files, of which one is in the chat. *)
Definition shelf : Listing.Manager :=
  {| Listing.abs_fnames := {["/repo/app.py"]};
     Listing.abs_read_only_fnames := ∅;
     Listing.abs_read_only_stubs_fnames := ∅;
     Listing.tracked := Some ["app.py"; "docs/guide.md"; "tests/test_app.py"];
     Listing.get_rel_fname := fun f => drop 6 f |}.

Definition desk : Env :=
  {| get_all_relative_files := Listing.get_all_relative_files shelf;
     get_addable_relative_files := Listing.get_addable_relative_files shelf;
     get_inchat_relative_files := elements (Listing.get_inchat_relative_files shelf);
     abs_read_only_fnames := [];
     abs_read_only_stubs_fnames := [];
     get_rel_fname := Listing.get_rel_fname shelf;
     basename := fun f => match f with
                          | "docs/guide.md" => "guide.md"
                          | "tests/test_app.py" => "test_app.py"
                          | _ => f
                          end;
     stem := fun f => Some f |}.

Lemma mentions_leave_out_the_chat_witness :
  "docs/guide.md" ∈ Listing.get_all_relative_files shelf
  /\ (forall fname,
         fname ∈ Listing.abs_fnames shelf ∪ Listing.abs_read_only_fnames shelf
                 ∪ Listing.abs_read_only_stubs_fnames shelf ->
         Listing.get_rel_fname shelf fname <> "docs/guide.md").
Proof.
  apply (mentions_leave_out_the_chat desk shelf "see guide.md and app.py, please").
  - reflexivity.
  - vm_compute. set_solver.
Defined.

End MentionsSpec.

(** ** The path cache, the chat files and their content *)

Module ContentSpec.
Import Py Chat Session.

(** X6.  [abs_root_path] is memoized and its cache is never reset: a
    second call for the same path returns the first answer and leaves
    the cache as it is, even when the root has changed in between (the
    second call resolves with [resolve']); other paths are not
    touched. *)
Theorem abs_root_path_memoized (resolve resolve' : string -> string)
    (cache : gmap string string) (path : string) :
  Content.abs_root_path resolve' (snd (Content.abs_root_path resolve cache path)) path
  = Content.abs_root_path resolve cache path
  /\ snd (Content.abs_root_path resolve cache path) !! path
     = Some (fst (Content.abs_root_path resolve cache path))
  /\ forall other, other <> path ->
       snd (Content.abs_root_path resolve cache path) !! other = cache !! other.
Proof.
  unfold Content.abs_root_path. destruct (cache !! path) as [res|] eqn:C; cbn [fst snd].
  - rewrite C. auto.
  - rewrite lookup_insert_eq. split_and!; [reflexivity | reflexivity |].
    intros other H. apply lookup_insert_ne. congruence.
Qed.

Lemma check_added_files_abs_fnames (E : Session.Env) (c : Coder) :
  abs_fnames (FileManager.check_added_files E c) = abs_fnames c.
Proof.
  unfold FileManager.check_added_files. repeat case_match; reflexivity.
Qed.

Lemma drop_present (E : Session.Env) (fname : string) (c : Coder) :
  abs_root_path E fname ∈ abs_fnames c ->
  FileManager.drop_rel_fname E fname c
  = (true, set_abs_fnames c (abs_fnames c ∖ {[abs_root_path E fname]})).
Proof.
  intros H. unfold FileManager.drop_rel_fname. rewrite bool_decide_eq_true_2 by exact H.
  reflexivity.
Qed.

Lemma drop_absent (E : Session.Env) (fname : string) (c : Coder) :
  abs_root_path E fname ∉ abs_fnames c ->
  FileManager.drop_rel_fname E fname c = (false, c).
Proof.
  intros H. unfold FileManager.drop_rel_fname. rewrite bool_decide_eq_false_2 by exact H.
  reflexivity.
Qed.

(** X7.  Adding a file and dropping it again: the drop returns True and
    the chat holds what it held before, less that file; a second drop
    returns nothing and changes nothing. *)
Theorem add_then_drop (E : Session.Env) (rel_fname : string) (c : Coder) :
  exists c',
    FileManager.drop_rel_fname E rel_fname (FileManager.add_rel_fname E rel_fname c)
    = (true, c')
    /\ abs_fnames c' = abs_fnames c ∖ {[abs_root_path E rel_fname]}
    /\ FileManager.drop_rel_fname E rel_fname c' = (false, c').
Proof.
  eexists. split; [|split].
  - apply drop_present. unfold FileManager.add_rel_fname.
    rewrite check_added_files_abs_fnames. cbn [abs_fnames set_abs_fnames]. set_solver.
  - cbn [abs_fnames set_abs_fnames]. unfold FileManager.add_rel_fname.
    rewrite check_added_files_abs_fnames. cbn [abs_fnames set_abs_fnames]. set_solver.
  - apply drop_absent. cbn [abs_fnames set_abs_fnames]. set_solver.
Qed.

(** What reading one file prints: what [io.read_text] prints, and the
    warning when the file is dropped. *)
Definition reading (E : Content.Env) (fname : string) : list event :=
  fst (Content.read_text E fname)
  ++ match snd (Content.read_text E fname) with
     | Some _ => []
     | None =>
         [tool_warning ("Dropping " +:+ Content.get_rel_fname E fname +:+ " from the chat.")]
     end.

Definition unreadable (E : Content.Env) (fname : string) : bool :=
  match snd (Content.read_text E fname) with Some _ => false | None => true end.

Lemma contents_of_spec (E : Content.Env) (l : list string) (c : Coder) :
  fst (Content.contents_of E l c)
  = omap (fun f => pair f <$> snd (Content.read_text E f)) l
  /\ abs_fnames (snd (Content.contents_of E l c))
     = abs_fnames c ∖ list_to_set (List.filter (unreadable E) l)
  /\ io (snd (Content.contents_of E l c)) = io c ++ flat_map (reading E) l.
Proof.
  revert c; induction l as [|f l IH]; intros c.
  - cbn. split_and!; [reflexivity | set_solver | rewrite app_nil_r; reflexivity].
  - cbn [Content.contents_of]. unfold Content.next_content.
    cbn [omap List.filter flat_map list_omap]. unfold reading at 1, unreadable at 1.
    destruct (Content.read_text E f) as [printed [content|]]; cbn [fst snd fmap option_fmap option_map].
    + specialize (IH (print c printed)).
      destruct (Content.contents_of E l (print c printed)) as [ys c'].
      cbn [fst snd] in *. destruct IH as (-> & -> & ->). cbn [abs_fnames io print].
      rewrite app_nil_r, <- app_assoc. auto.
    + specialize (IH (set_abs_fnames
                        (print (print c printed)
                           [tool_warning ("Dropping " +:+ Content.get_rel_fname E f
                                          +:+ " from the chat.")])
                        (abs_fnames c ∖ {[f]}))).
      cbn [abs_fnames print] in IH |- *.
      destruct (Content.contents_of E l _) as [ys c'].
      cbn [fst snd] in *. destruct IH as (-> & -> & ->). cbn [abs_fnames io print set_abs_fnames].
      split_and!; [reflexivity | set_solver | rewrite <- !app_assoc; reflexivity].
Qed.

(** X8.  [get_abs_fnames_content], run to its end, yields the files of
    the chat that can be read, each with its text, and removes the
    others from the chat with one warning each: afterwards every file of
    the chat is readable. *)
Theorem abs_fnames_content_drops_unreadable (E : Content.Env) (c : Coder) :
  (forall fname content,
      (fname, content) ∈ fst (Content.get_abs_fnames_content E c)
      <-> fname ∈ abs_fnames c /\ snd (Content.read_text E fname) = Some content)
  /\ (forall fname,
         fname ∈ abs_fnames (snd (Content.get_abs_fnames_content E c))
         <-> fname ∈ abs_fnames c /\ snd (Content.read_text E fname) <> None)
  /\ io (snd (Content.get_abs_fnames_content E c))
     = io c ++ flat_map (reading E) (elements (abs_fnames c)).
Proof.
  unfold Content.get_abs_fnames_content.
  destruct (contents_of_spec E (elements (abs_fnames c)) c) as (Hy & Ha & Hio).
  rewrite Hy, Ha, Hio. split_and!; [| |reflexivity].
  - intros fname content. rewrite list_elem_of_omap. split.
    + intros (f & Hf & H). apply elem_of_elements in Hf.
      destruct (snd (Content.read_text E f)) as [t|] eqn:R; [|discriminate].
      injection H as <- <-. auto.
    + intros (Hf & R). exists fname. rewrite R. split; [apply elem_of_elements, Hf | reflexivity].
  - intros fname. rewrite elem_of_difference, elem_of_list_to_set.
    rewrite list_elem_of_In, filter_In, <- list_elem_of_In, elem_of_elements.
    unfold unreadable. destruct (snd (Content.read_text E fname)); split.
    + intros [H _]. split; [exact H | discriminate].
    + intros [H _]. split; [exact H|]. intros [_ ?]; discriminate.
    + intros [H N]. exfalso. apply N. auto.
    + intros [_ N]. congruence.
Qed.

Lemma skipn_firstn_split {A} (a b : nat) (l : list A) :
  a <= b -> firstn b l = firstn a l ++ firstn (b - a) (skipn a l).
Proof.
  intros H. replace b with (a + (b - a)) at 1 by lia. generalize (b - a) as k. clear H.
  revert l; induction a as [|a IH]; intros l k; [reflexivity|].
  destruct l as [|x l]; simpl.
  - destruct k; reflexivity.
  - f_equal. apply IH.
Qed.

(** X9.  The two chunks kept of a large file of [n] lines, with [h] the
    threshold divided by 80: when the threshold is below 80 the first
    chunk is empty and the last chunk is the whole file; otherwise, when
    the file has at least [2 * h] lines, the chunks are its first [h]
    and last [h] lines and [n - 2 * h] lines in between are left out;
    and when it has fewer, nothing is left out and the lines from
    [n - h] to [h] are in both chunks. *)
Theorem chunks_of_large_file (threshold : nat) (lines : list string) :
  let h := threshold / 80 in
  let n := List.length lines in
  (threshold < 80 -> Content.chunks threshold lines = ([], lines))
  /\ (80 <= threshold -> 2 * h <= n ->
      exists middle,
        lines = fst (Content.chunks threshold lines) ++ middle
                ++ snd (Content.chunks threshold lines)
        /\ List.length (fst (Content.chunks threshold lines)) = h
        /\ List.length (snd (Content.chunks threshold lines)) = h
        /\ List.length middle = n - 2 * h)
  /\ (80 <= threshold -> n < 2 * h ->
      exists both,
        fst (Content.chunks threshold lines) = firstn (n - h) lines ++ both
        /\ snd (Content.chunks threshold lines) = both ++ skipn h lines
        /\ lines = firstn (n - h) lines ++ both ++ skipn h lines
        /\ List.length both = Nat.min h n - (n - h)).
Proof.
  intros h n.
  assert (Hh : threshold / 40 / 2 = h).
  { unfold h. rewrite Nat.Div0.div_div. reflexivity. }
  unfold Content.chunks. rewrite Hh. cbn [fst snd]. split_and!.
  - intros H. assert (h = 0) as -> by (unfold h; apply Nat.div_small; lia). reflexivity.
  - intros H1 H2.
    assert (0 < h) by (unfold h; apply Nat.div_str_pos; lia).
    unfold Content.last_lines. destruct h as [|h'] eqn:Eh; [lia|]. rewrite <- Eh in *.
    exists (firstn (n - 2 * h) (skipn h lines)). fold n. split_and!.
    + rewrite <- (firstn_skipn h lines) at 1. f_equal.
      rewrite <- (firstn_skipn (n - 2 * h) (skipn h lines)) at 1. f_equal.
      rewrite skipn_skipn. f_equal. lia.
    + rewrite length_firstn. fold n. lia.
    + rewrite length_skipn. fold n. lia.
    + rewrite length_firstn, length_skipn. fold n. lia.
  - intros H1 H2.
    assert (0 < h) by (unfold h; apply Nat.div_str_pos; lia).
    unfold Content.last_lines. destruct h as [|h'] eqn:Eh; [lia|]. rewrite <- Eh in *.
    fold n. exists (firstn (h - (n - h)) (skipn (n - h) lines)). split_and!.
    + apply skipn_firstn_split. lia.
    + rewrite <- (firstn_skipn (h - (n - h)) (skipn (n - h) lines)) at 1. f_equal.
      rewrite skipn_skipn. destruct (Nat.le_gt_cases h n).
      * f_equal. lia.
      * rewrite !skipn_all2 by (fold n; lia). reflexivity.
    + rewrite <- (firstn_skipn (n - h) lines) at 1. f_equal.
      rewrite <- (firstn_skipn (h - (n - h)) (skipn (n - h) lines)) at 1. f_equal.
      rewrite skipn_skipn. destruct (Nat.le_gt_cases h n).
      * f_equal. lia.
      * rewrite !skipn_all2 by (fold n; lia). reflexivity.
    + rewrite length_firstn, length_skipn. fold n. lia.
Qed.

(** The block of a file in the prompt when nothing is truncated. *)
Definition whole_block (E : Content.Env) (y : string * string) : string :=
  if Content.is_image_file E (fst y) then EmptyString
  else (nl +:+ Content.get_rel_fname E (fst y) +:+ (nl +:+ fst (Content.fence E) +:+ nl))
       +:+ snd y +:+ (snd (Content.fence E) +:+ nl).

Lemma file_block_chat (E : Content.Env) (fname content : string) (c : Coder) :
  abs_fnames (snd (Content.file_block E fname content c)) = abs_fnames c.
Proof.
  unfold Content.file_block.
  destruct (Content.is_image_file E fname); [reflexivity|].
  destruct (Content.context_management_enabled E); [|reflexivity].
  destruct (_ <? _)%nat; reflexivity.
Qed.

Lemma next_content_chat (E : Content.Env) (fname : string) (c c0 : Coder) :
  abs_fnames c = abs_fnames c0 ->
  fst (Content.next_content E fname c) = fst (Content.next_content E fname c0)
  /\ abs_fnames (snd (Content.next_content E fname c))
     = abs_fnames (snd (Content.next_content E fname c0)).
Proof.
  intros H. unfold Content.next_content.
  destruct (Content.read_text E fname) as [printed [content|]];
    cbn [fst snd abs_fnames print set_abs_fnames]; rewrite ?H; auto.
Qed.

Lemma files_content_loop_chat (E : Content.Env) (l : list string) (prompt : string)
    (c c0 : Coder) :
  abs_fnames c = abs_fnames c0 ->
  abs_fnames (snd (Content.files_content_loop E l prompt c))
  = abs_fnames (snd (Content.contents_of E l c0)).
Proof.
  revert prompt c c0; induction l as [|f l IH]; intros prompt c c0 H; [exact H|].
  cbn [Content.files_content_loop Content.contents_of].
  destruct (next_content_chat E f c c0 H) as [Y A].
  destruct (Content.next_content E f c) as [y c1].
  destruct (Content.next_content E f c0) as [y0 c2]. cbn [fst snd] in Y, A. subst y0.
  destruct y as [[fname content]|].
  - destruct (Content.file_block E fname content c1) as [block c3] eqn:B.
    pose proof (file_block_chat E fname content c1) as F. rewrite B in F. cbn [snd] in F.
    rewrite (IH (prompt +:+ block) c3 c2) by congruence.
    destruct (Content.contents_of E l c2); reflexivity.
  - rewrite (IH prompt c1 c2) by congruence.
    destruct (Content.contents_of E l c2); reflexivity.
Qed.

Lemma file_block_whole (E : Content.Env) (fname content : string) (c : Coder) :
  Content.context_management_enabled E = false ->
  Content.file_block E fname content c = (whole_block E (fname, content), c).
Proof.
  intros H. unfold Content.file_block, whole_block. rewrite H. cbn [fst snd].
  destruct (Content.is_image_file E fname); reflexivity.
Qed.

Lemma files_content_loop_whole (E : Content.Env) (l : list string) (prompt : string)
    (c : Coder) :
  Content.context_management_enabled E = false ->
  Content.files_content_loop E l prompt c
  = (fold_left String.append (map (whole_block E) (fst (Content.contents_of E l c))) prompt,
     snd (Content.contents_of E l c)).
Proof.
  intros H. revert prompt c; induction l as [|f l IH]; intros prompt c; [reflexivity|].
  cbn [Content.files_content_loop Content.contents_of].
  destruct (Content.next_content E f c) as [[[fname content]|] c1].
  - rewrite (file_block_whole E fname content c1 H), IH.
    destruct (Content.contents_of E l c1) as [ys c2]. reflexivity.
  - rewrite IH. destruct (Content.contents_of E l c1) as [ys c2]. reflexivity.
Qed.

(** X10.  [get_files_content] reads the chat as
    [get_abs_fnames_content] does, whatever its argument is: the files
    that cannot be read leave the chat.  With context management off,
    nothing else happens: the prompt is made of one block for every
    readable file that is no image, with the relative name, the fences
    and the text as it was read, and the transcript holds what reading
    the files printed. *)
Theorem files_content_reads_the_chat (E : Content.Env) (fnames : option (gset string))
    (c : Coder) :
  abs_fnames (snd (Content.get_files_content E fnames c))
  = abs_fnames (snd (Content.get_abs_fnames_content E c))
  /\ (Content.context_management_enabled E = false ->
      Content.get_files_content E fnames c
      = (fold_left String.append
           (map (whole_block E) (fst (Content.get_abs_fnames_content E c))) EmptyString,
         snd (Content.get_abs_fnames_content E c))).
Proof.
  unfold Content.get_files_content, Content.get_abs_fnames_content. split.
  - apply files_content_loop_chat. reflexivity.
  - intros H. apply files_content_loop_whole, H.
Qed.

End ContentSpec.

(** ** More on allowed_to_edit and the commit context *)

Module EditingSpec.
Import Py Chat Session FileManager Editor.

Lemma check_added_files_frame (E : Env) (c : Coder) :
  abs_fnames (check_added_files E c) = abs_fnames c
  /\ files (check_added_files E c) = files c
  /\ git (check_added_files E c) = git c
  /\ dry_run (check_added_files E c) = dry_run c.
Proof.
  destruct (FileManagerSpec.check_added_files_cases E c) as [[-> _] | [-> _]]; auto.
Qed.

Lemma check_for_dirty_commit_keeps (p : string) (c : Coder) :
  abs_fnames (check_for_dirty_commit p c) = abs_fnames c
  /\ files (check_for_dirty_commit p c) = files c
  /\ git (check_for_dirty_commit p c) = git c.
Proof.
  unfold check_for_dirty_commit. repeat case_match; auto.
Qed.

Lemma add_to_chat_keeps (E : Env) (full_path : string) (c : Coder) :
  abs_fnames (add_to_chat E full_path c) = abs_fnames c ∪ {[full_path]}
  /\ files (add_to_chat E full_path c) = files c
  /\ git (add_to_chat E full_path c) = git c.
Proof.
  unfold add_to_chat.
  destruct (check_added_files_frame E (set_abs_fnames c (abs_fnames c ∪ {[full_path]})))
    as (-> & -> & -> & _). auto.
Qed.

Lemma stage_keeps (need_to_add : bool) (full_path : string) (c : Coder) :
  abs_fnames (stage need_to_add full_path c) = abs_fnames c
  /\ files (stage need_to_add full_path c) = files c
  /\ git (stage need_to_add full_path c)
     = git c ++ (if need_to_add then [git_add full_path] else []).
Proof.
  unfold stage. destruct need_to_add; cbn [abs_fnames files git set_git];
    rewrite ?app_nil_r; auto.
Qed.

Lemma print_print (c : Coder) (a b : list event) : print (print c a) b = print c (a ++ b).
Proof. unfold print. cbn. rewrite <- app_assoc. reflexivity. Qed.

(** X11.  [allowed_to_edit] either returns True, and then the file is in
    the chat, which has grown by that file at most; or it returns
    nothing, and then it has only written to the transcript (a line at
    least): the chat, the disk and the repository are as they were. *)
Theorem allowed_to_edit_grants_or_reports (E : Env) (path : string) (c : Coder) :
  (fst (allowed_to_edit E path c) = true
   /\ abs_root_path E path ∈ abs_fnames (snd (allowed_to_edit E path c))
   /\ abs_fnames c ⊆ abs_fnames (snd (allowed_to_edit E path c))
   /\ abs_fnames (snd (allowed_to_edit E path c)) ⊆ abs_fnames c ∪ {[abs_root_path E path]})
  \/ (fst (allowed_to_edit E path c) = false
      /\ exists printed, printed <> [] /\ snd (allowed_to_edit E path c) = print c printed).
Proof.
  unfold allowed_to_edit.
  set (full_path := abs_root_path E path).
  set (need_to_add := match repo c with
                      | Some r => negb (path_in_repo r (git c) path)
                      | None => false
                      end).
  destruct (bool_decide (full_path ∈ abs_fnames c)) eqn:B.
  { left. cbn [fst snd]. apply bool_decide_eq_true in B.
    destruct (check_for_dirty_commit_keeps path c) as (-> & _). set_solver. }
  destruct (match repo c with Some r => git_ignored_file r (git c) path | None => false end).
  { right. cbn [fst snd]. split; [reflexivity|]. eexists. split; [|reflexivity]. discriminate. }
  destruct (bool_decide (full_path ∈ files c)); cbn [negb object_truth].
  - unfold await. cbn [question subject io_confirm_ask].
    destruct (ask E (io c) _ (Some path)); cbn [negb fst snd].
    + left. rewrite (proj1 (check_for_dirty_commit_keeps _ _)).
      rewrite (proj1 (add_to_chat_keeps _ _ _)), (proj1 (stage_keeps _ _ _)).
      cbn [abs_fnames print]. set_solver.
    + right. split; [reflexivity|]. rewrite print_print. eexists. split; [|reflexivity].
      discriminate.
  - destruct (dry_run c); cbn [negb fst snd].
    + left. rewrite (proj1 (add_to_chat_keeps _ _ _)). set_solver.
    + destruct (touch_file E (files c) full_path); cbn [negb fst snd].
      * left. rewrite (proj1 (add_to_chat_keeps _ _ _)), (proj1 (stage_keeps _ _ _)).
        cbn [abs_fnames set_files]. set_solver.
      * right. split; [reflexivity|]. eexists. split; [|reflexivity]. discriminate.
Qed.

Ltac frame_files :=
  rewrite ?(proj1 (proj2 (check_for_dirty_commit_keeps _ _)));
  rewrite ?(proj1 (proj2 (add_to_chat_keeps _ _ _)));
  rewrite ?(proj1 (proj2 (stage_keeps _ _ _)));
  cbn [files print set_files].

Ltac frame_git :=
  rewrite ?(proj2 (proj2 (check_for_dirty_commit_keeps _ _)));
  rewrite ?(proj2 (proj2 (add_to_chat_keeps _ _ _)));
  rewrite ?(proj2 (proj2 (stage_keeps _ _ _)));
  cbn [git print set_files].

(** X12.  What [allowed_to_edit] does to the disk and to the index.  It
    creates at most the file itself, and only outside a dry run, for a
    file that did not exist.  It stages at most the file itself, once,
    and only when it returns True for a path outside the repository's
    files.  It never commits. *)
Theorem allowed_to_edit_disk_and_index (E : Env) (path : string) (c : Coder) :
  (files (snd (allowed_to_edit E path c)) = files c
   \/ (dry_run c = false /\ (abs_root_path E path ∉ files c)
       /\ touch_file E (files c) (abs_root_path E path) = true
       /\ files (snd (allowed_to_edit E path c)) = files c ∪ {[abs_root_path E path]}))
  /\ (git (snd (allowed_to_edit E path c)) = git c
      \/ (fst (allowed_to_edit E path c) = true
          /\ git (snd (allowed_to_edit E path c)) = git c ++ [git_add (abs_root_path E path)]
          /\ exists r, repo c = Some r /\ path_in_repo r (git c) path = false)).
Proof.
  assert (N : (match repo c with
               | Some r => negb (path_in_repo r (git c) path)
               | None => false
               end) = true ->
              exists r, repo c = Some r /\ path_in_repo r (git c) path = false).
  { intros H. destruct (repo c) as [r|]; [|discriminate]. exists r.
    split; [reflexivity|]. destruct (path_in_repo r (git c) path); [discriminate|reflexivity]. }
  unfold allowed_to_edit.
  set (full_path := abs_root_path E path).
  destruct (bool_decide (full_path ∈ abs_fnames c)).
  { cbn [fst snd]. frame_files. frame_git. auto. }
  destruct (match repo c with Some r => git_ignored_file r (git c) path | None => false end).
  { cbn [fst snd files git print]. auto. }
  destruct (bool_decide (full_path ∈ files c)) eqn:F; cbn [negb object_truth].
  - unfold await. cbn [question subject io_confirm_ask].
    destruct (ask E (io c) _ (Some path)); cbn [negb fst snd]; frame_files; frame_git;
      [|auto].
    split; [left; reflexivity|].
    destruct (match repo c with
              | Some r => negb (path_in_repo r (git c) path)
              | None => false
              end) eqn:Need.
    + right. split_and!; [reflexivity | reflexivity | apply N; reflexivity].
    + left. apply app_nil_r.
  - apply bool_decide_eq_false in F.
    destruct (dry_run c); cbn [negb fst snd]; frame_files; frame_git; [auto|].
    destruct (touch_file E (files c) full_path); cbn [negb fst snd files git print];
      [|auto].
    frame_files. frame_git. split; [right; auto|].
    destruct (match repo c with
              | Some r => negb (path_in_repo r (git c) path)
              | None => false
              end) eqn:Need.
    + right. split_and!; [reflexivity | reflexivity | apply N; reflexivity].
    + left. apply app_nil_r.
Qed.

(** X13.  Staging is not held back by a dry run: whatever [dry_run]
    says, once the user allows edits to a file that exists, is not in
    the chat, is not ignored and is not among the repository's files,
    the file is staged. *)
Theorem dry_run_still_stages (E : Env) (path : string) (c : Coder) (r : Repo) :
  repo c = Some r ->
  path_in_repo r (git c) path = false ->
  git_ignored_file r (git c) path = false ->
  abs_root_path E path ∉ abs_fnames c ->
  abs_root_path E path ∈ files c ->
  ask E (io c) "Allow edits to file that has not been added to the chat?" (Some path) = true ->
  fst (allowed_to_edit E path c) = true
  /\ git (snd (allowed_to_edit E path c)) = git c ++ [git_add (abs_root_path E path)].
Proof.
  intros R P G A F Q. unfold allowed_to_edit. rewrite R, P, G.
  rewrite bool_decide_eq_false_2 by exact A. rewrite bool_decide_eq_true_2 by exact F.
  cbn [negb]. unfold await. cbn [question subject io_confirm_ask]. rewrite Q.
  cbn [negb fst snd]. frame_git. auto.
Qed.

(** A dry run on a repository that does not track draft.md, which is on
    disk. *)
Definition rehearsal : Coder :=
  {| repo := Some (EditorSpec.repository NothingToCommit); dry_run := true;
     dirty_commits := true; auto_commits := true; cur_messages := [];
     git := []; files := {["/repo/draft.md"]}; abs_fnames := ∅;
     need_commit_before_edits := ∅; warning_given := false; io := [] |}.

Lemma dry_run_still_stages_witness :
  dry_run rehearsal = true
  /\ fst (allowed_to_edit (EditorSpec.world true) "draft.md" rehearsal) = true
  /\ git (snd (allowed_to_edit (EditorSpec.world true) "draft.md" rehearsal))
     = [git_add "/repo/draft.md"].
Proof.
  split; [reflexivity|].
  apply (dry_run_still_stages (EditorSpec.world true) "draft.md" rehearsal
           (EditorSpec.repository NothingToCommit)); try reflexivity; vm_compute; set_solver.
Defined.

Lemma append_assoc (a b d : string) : (a +:+ b) +:+ d = a +:+ (b +:+ d).
Proof.
  induction a as [|x a IH]; [reflexivity|].
  change (String x ((a +:+ b) +:+ d) = String x (a +:+ (b +:+ d))). rewrite IH. reflexivity.
Qed.

(** X14.  The commit context of a history is built message by message:
    the context of two histories put end to end is the two contexts put
    end to end. *)
Theorem context_from_history_app (history more : list Message) :
  get_context_from_history (history ++ more)
  = get_context_from_history history +:+ get_context_from_history more.
Proof.
  induction history as [|msg history IH]; [reflexivity|].
  cbn [app get_context_from_history]. rewrite IH. symmetry. apply append_assoc.
Qed.

End EditingSpec.

(** ** More on the tool calls *)

Module ToolCallsSpec.
Import Py Chat ToolUse RoutingSpec.

(** The dispatch of a response: the calls it holds, expanded and routed,
    when some server is given a call. *)
Definition dispatch (E : Env) (c : Coder) (tool_call_response : option Response)
  : option ServerToolCalls :=
  match original_tool_calls tool_call_response with
  | Some calls =>
      nonempty (_gather_server_tool_calls (mcp_servers c) (mcp_tools c)
                  (expand_tool_calls (split_concatenated_json E) calls))
  | None => None
  end.

(** X15.  [process_tool_calls] returns True exactly when the response
    gives some server a call, the number of tool calls is below the
    limit and the user, shown the calls, agrees to run them; then the
    responses of the servers are appended to the current messages, and
    in every other case the current messages are left as they are. *)
Theorem process_tool_calls_runs_iff (E : Env) (ask : user) (c : Coder)
    (tool_call_response : option Response) :
  (fst (process_tool_calls E ask c tool_call_response) = true
   <-> exists d, dispatch E c tool_call_response = Some d
                 /\ num_tool_calls c < max_tool_calls c
                 /\ ask (io c ++ _print_tool_call_info (verbose c) d) "Run tools?" None = true)
  /\ (forall d, dispatch E c tool_call_response = Some d ->
        fst (process_tool_calls E ask c tool_call_response) = true ->
        cur_messages (snd (process_tool_calls E ask c tool_call_response))
        = cur_messages c ++ fst (_execute_tool_calls E d))
  /\ (fst (process_tool_calls E ask c tool_call_response) = false ->
      cur_messages (snd (process_tool_calls E ask c tool_call_response)) = cur_messages c).
Proof.
  unfold process_tool_calls, dispatch.
  destruct (original_tool_calls tool_call_response) as [calls|].
  2:{ cbn [fst snd]. split_and!; [|discriminate|reflexivity].
      split; [discriminate | intros (d & H & _); discriminate]. }
  destruct (nonempty _) as [d|].
  2:{ destruct (_ <=? _)%nat; cbn [fst snd]; (split_and!; [|discriminate|reflexivity]);
        (split; [discriminate | intros (d & H & _); discriminate]). }
  destruct (Nat.ltb_spec (num_tool_calls c) (max_tool_calls c)) as [L|L].
  2:{ destruct (_ <=? _)%nat; cbn [fst snd]; (split_and!; [| |reflexivity]);
        try (intros ? _ ?; discriminate);
        (split; [discriminate | intros (d' & _ & H & _); lia]). }
  cbn [io print]. destruct (ask _ "Run tools?" None) eqn:A.
  - destruct (_execute_tool_calls E d) as [tool_responses printed] eqn:X.
    cbn [fst snd cur_messages append_messages print]. split_and!.
    + split; [|reflexivity]. intros _. exists d. auto.
    + intros d' H _. injection H as <-. rewrite X. reflexivity.
    + discriminate.
  - cbn [fst snd cur_messages print]. split_and!.
    + split; [discriminate|]. intros (d' & H & _ & A'). injection H as <-. congruence.
    + intros d' _ H. discriminate.
    + reflexivity.
Qed.

(** X16.  Once the number of tool calls has reached the limit, nothing
    is run and the user is not asked: when the response holds tool
    calls, whether a server advertises them or not, the only effect is
    the warning that names the limit. *)
Theorem process_tool_calls_at_the_limit (E : Env) (ask : user) (c : Coder)
    (tool_call_response : option Response) :
  max_tool_calls c <= num_tool_calls c ->
  process_tool_calls E ask c tool_call_response
  = (false,
     match original_tool_calls tool_call_response with
     | Some _ =>
         print c [tool_warning ("Only " +:+ str_of_nat (max_tool_calls c)
                                +:+ " tool calls allowed, stopping.")]
     | None => c
     end).
Proof.
  intros L. unfold process_tool_calls.
  destruct (original_tool_calls tool_call_response) as [calls|]; [|reflexivity].
  destruct (Nat.ltb_spec (num_tool_calls c) (max_tool_calls c)) as [L'|L']; [lia|].
  destruct (Nat.leb_spec (max_tool_calls c) (num_tool_calls c)) as [L''|L'']; [|lia].
  destruct (nonempty _); reflexivity.
Qed.

(** A coder that has used its two tool calls. *)
Definition spent : Coder :=
  {| mcp_servers := [alpha]; mcp_tools := [("alpha", [tool "search"])];
     num_tool_calls := 2; max_tool_calls := 2; verbose := false;
     cur_messages := []; io := [] |}.

Definition silent : Env :=
  {| split_concatenated_json := fun s => [s];
     dumps := fun _ => "{}";
     connect := fun _ => Return tt;
     call_openai_tool := fun _ _ _ => Return [TextContent "found"];
     execute_local_tool_calls := None |}.

Lemma process_tool_calls_at_the_limit_witness :
  process_tool_calls silent (fun _ _ _ => true) spent
    (Some {| choices := [{| message_tool_calls := Some [call "c1" "search"] |}] |})
  = (false, print spent [tool_warning "Only 2 tool calls allowed, stopping."]).
Proof.
  apply (process_tool_calls_at_the_limit silent (fun _ _ _ => true) spent
           (Some {| choices := [{| message_tool_calls := Some [call "c1" "search"] |}] |})).
  vm_compute. lia.
Defined.

(** *** The expansion of concatenated arguments *)

Lemma enumerate_from_spec {A} (l : list A) (k i : nat) (x : A) :
  (i, x) ∈ enumerate_from k l <-> k <= i /\ l !! (i - k) = Some x.
Proof.
  revert k; induction l as [|a l IH]; intros k; cbn [enumerate_from].
  - split; [intros H; inversion H | intros [_ H]; discriminate].
  - rewrite elem_of_cons, IH. split.
    + intros [H|[H1 H2]].
      * injection H as -> ->. rewrite Nat.sub_diag. auto.
      * split; [lia|]. replace (i - k) with (S (i - S k)) by lia. exact H2.
    + intros [H1 H2]. destruct (decide (i = k)) as [->|Hne].
      * rewrite Nat.sub_diag in H2. injection H2 as ->. auto.
      * right. split; [lia|]. replace (i - k) with (S (i - S k)) in H2 by lia. exact H2.
Qed.

(** X17.  The shape of an expansion, whatever the splitter does.  A call
    whose arguments are blank, or start with neither a brace nor a
    bracket, is passed on as it is, and so is a call the splitter does
    not cut in two.  Every call of the expansion has the name and the
    type of the original and is the original itself or the derived call
    of a chunk that is not blank, at its index; and there are no more
    calls than chunks, or one. *)
Theorem expand_tool_call_shape (split : string -> list string) (tool_call : ToolCall) :
  let args_string := strip (arguments (function tool_call)) in
  (args_string = ""
   \/ (startswith args_string "{" = false /\ startswith args_string "[" = false)
   \/ List.length (split args_string) <= 1 ->
   expand_tool_call split tool_call = [tool_call])
  /\ (forall tc, tc ∈ expand_tool_call split tool_call ->
        name (function tc) = name (function tool_call)
        /\ type tc = type tool_call
        /\ (tc = tool_call
            \/ exists i chunk, split args_string !! i = Some chunk
                               /\ strip chunk <> ""
                               /\ tc = derived_call tool_call i chunk))
  /\ List.length (expand_tool_call split tool_call)
     <= Nat.max 1 (List.length (split args_string)).
Proof.
  intros args_string. unfold expand_tool_call. fold args_string. split_and!.
  - intros [->|[[-> ->]|H]]; [reflexivity | | ].
    + rewrite orb_true_r. reflexivity.
    + destruct (_ || _); [reflexivity|].
      destruct (Nat.leb_spec (List.length (split args_string)) 1); [reflexivity | lia].
  - intros tc. destruct (_ || _).
    { intros H. apply list_elem_of_singleton in H as ->. auto. }
    destruct (_ <=? _)%nat.
    { intros H. apply list_elem_of_singleton in H as ->. auto. }
    rewrite list_elem_of_In, in_flat_map. intros ([i chunk] & Hi & H). cbn [fst snd] in H.
    destruct (strip chunk) eqn:S; cbn [truthy negb] in H; [destruct H|].
    destruct H as [<-|[]]. split_and!; [reflexivity | reflexivity |]. right.
    exists i, chunk. apply list_elem_of_In, enumerate_from_spec in Hi as [_ Hi].
    rewrite Nat.sub_0_r in Hi. rewrite S. split_and!; [exact Hi | discriminate | reflexivity].
  - destruct (_ || _); [cbn [List.length]; lia|].
    destruct (_ <=? _)%nat; [cbn [List.length]; lia|].
    assert (forall l k,
               List.length
                 (flat_map
                    (fun ic : nat * string =>
                       if negb (truthy (strip (snd ic))) then []
                       else [derived_call tool_call (fst ic) (snd ic)])
                    (enumerate_from k l)) <= List.length l) as B; [|specialize (B (split args_string) 0); unfold enumerate; lia].
    induction l as [|chunk l IH]; intros k; cbn [enumerate_from flat_map List.length]; [lia|].
    rewrite length_app. specialize (IH (S k)). cbn [fst snd].
    destruct (negb (truthy (strip chunk))); cbn [List.length] in *; lia.
Qed.

(** The number a string of digits stands for. *)
Fixpoint number_of (s : string) : nat :=
  match s with
  | EmptyString => 0
  | String c r => (nat_of_ascii c - 48) * 10 ^ String.length r + number_of r
  end.

Lemma number_of_str_aux (fuel n : nat) (acc : string) :
  n < fuel ->
  number_of (str_of_nat_aux fuel n acc) = n * 10 ^ String.length acc + number_of acc.
Proof.
  revert n acc; induction fuel as [|fuel IH]; intros n acc H; [lia|].
  cbn [str_of_nat_aux].
  assert (D : number_of (String (digit_char (n mod 10)) acc)
              = (n mod 10) * 10 ^ String.length acc + number_of acc).
  { cbn [number_of]. unfold digit_char. rewrite nat_ascii_embedding.
    - replace (48 + n mod 10 - 48) with (n mod 10) by lia. reflexivity.
    - pose proof (Nat.mod_upper_bound n 10). lia. }
  pose proof (Nat.div_mod_eq n 10) as M.
  destruct (n / 10) as [|q] eqn:Q.
  - rewrite D. f_equal. f_equal. lia.
  - rewrite IH by lia. rewrite D. cbn [String.length Nat.pow]. nia.
Qed.

Lemma str_of_nat_inj (i j : nat) : str_of_nat i = str_of_nat j -> i = j.
Proof.
  intros H. apply (f_equal number_of) in H. unfold str_of_nat in H.
  rewrite !number_of_str_aux in H by lia. cbn in H. lia.
Qed.

Lemma append_cancel (a x y : string) : a +:+ x = a +:+ y -> x = y.
Proof.
  induction a as [|c a IH]; intros H; [exact H|].
  apply IH. change (String c (a +:+ x) = String c (a +:+ y)) in H. congruence.
Qed.

Lemma derived_ids_from (tool_call : ToolCall) (json_chunks : list string) (k : nat) :
  NoDup (map id
           (flat_map
              (fun ic : nat * string =>
                 if negb (truthy (strip (snd ic))) then []
                 else [derived_call tool_call (fst ic) (snd ic)])
              (enumerate_from k json_chunks)))
  /\ forall x, x ∈ map id
                    (flat_map
                       (fun ic : nat * string =>
                          if negb (truthy (strip (snd ic))) then []
                          else [derived_call tool_call (fst ic) (snd ic)])
                       (enumerate_from k json_chunks)) ->
               exists i, k <= i /\ x = id tool_call +:+ "-" +:+ str_of_nat i.
Proof.
  revert k; induction json_chunks as [|chunk l IH]; intros k; cbn [enumerate_from flat_map].
  - split; [apply NoDup_nil_2 | intros x H; inversion H].
  - destruct (IH (S k)) as [N M]. cbn [fst snd].
    destruct (negb (truthy (strip chunk))); cbn [app map].
    + split; [exact N|]. intros x H. destruct (M x H) as (i & Hi & ->). exists i. split; [lia|auto].
    + split.
      * apply NoDup_cons. split; [|exact N]. intros H. destruct (M _ H) as (i & Hi & E).
        cbn [derived_call id] in E. apply append_cancel, append_cancel, str_of_nat_inj in E. lia.
      * intros x H. apply elem_of_cons in H as [->|H].
        -- exists k. split; [lia | reflexivity].
        -- destruct (M x H) as (i & Hi & ->). exists i. split; [lia|auto].
Qed.

(** X18.  The calls that come from one call have identifiers that differ
    from one another: a derived call carries the identifier of the
    original, a hyphen and the index of its chunk in decimal. *)
Theorem expanded_ids_differ (split : string -> list string) (tool_call : ToolCall) :
  NoDup (map id (expand_tool_call split tool_call)).
Proof.
  unfold expand_tool_call. destruct (_ || _); [apply NoDup_singleton|].
  destruct (_ <=? _)%nat; [apply NoDup_singleton|].
  apply derived_ids_from.
Qed.

(** *** The arguments of a call when it is executed *)

Definition chunk_warning (tool_call : ToolCall) (chunk : string) : event :=
  tool_warning ("Could not parse JSON chunk for tool "
                +:+ name (function tool_call) +:+ ": " +:+ chunk).

Lemma parse_chunks_none (tool_call : ToolCall) (json_chunks : list string) :
  (forall chunk, chunk ∈ json_chunks -> Json.loads chunk = None) ->
  parse_chunks tool_call json_chunks = ([], map (chunk_warning tool_call) json_chunks).
Proof.
  induction json_chunks as [|chunk l IH]; intros H; [reflexivity|].
  cbn [parse_chunks map]. rewrite IH by (intros x Hx; apply H; right; exact Hx).
  rewrite (H chunk) by left. reflexivity.
Qed.

(** X19.  When the arguments of a call are not blank and none of their
    chunks is valid JSON, the tool is not called at all: the session
    sees no call, the user is warned once for every chunk, and the
    response to the call is the empty text, as for a success. *)
Theorem unparsed_arguments_call_nothing (E : Env) (server : McpServer)
    (tool_call : ToolCall) (session : list ToolCall) :
  strip (arguments (function tool_call)) <> "" ->
  (forall chunk,
      chunk ∈ split_concatenated_json E (strip (arguments (function tool_call))) ->
      Json.loads chunk = None) ->
  exec_tool_call E server tool_call session
  = (tool_message (id tool_call) "", session,
     map (chunk_warning tool_call)
       (split_concatenated_json E (strip (arguments (function tool_call))))).
Proof.
  intros Hne Hnone. unfold exec_tool_call, parsed_args.
  destruct (strip (arguments (function tool_call))) as [|a r] eqn:S; [congruence|].
  cbn [truthy negb]. rewrite parse_chunks_none by exact Hnone. reflexivity.
Qed.

Definition prose : ToolCall :=
  {| id := "c1"; type := "function";
     function := {| name := "search"; arguments := "look it up" |} |}.

Lemma unparsed_arguments_witness :
  exec_tool_call silent alpha prose []
  = (tool_message "c1" "", [],
     [tool_warning "Could not parse JSON chunk for tool search: look it up"]).
Proof.
  apply (unparsed_arguments_call_nothing silent alpha prose []).
  - vm_compute. discriminate.
  - intros chunk H. vm_compute in H. apply list_elem_of_singleton in H as ->.
    vm_compute. reflexivity.
Defined.

(** X20.  When the arguments of a call are blank, the tool is called
    once, with the empty object as its arguments, and no chunk is
    parsed. *)
Theorem blank_arguments_call_once (E : Env) (server : McpServer)
    (tool_call : ToolCall) (session : list ToolCall) :
  strip (arguments (function tool_call)) = "" ->
  snd (fst (exec_tool_call E server tool_call session))
  = session ++ [{| id := id tool_call; type := type tool_call;
                   function := {| name := name (function tool_call);
                                  arguments := dumps E (Json.JObject []) |} |}].
Proof.
  intros S. unfold exec_tool_call, parsed_args. rewrite S. cbn [truthy negb call_each].
  destruct (call_openai_tool E server session _) as [items|e]; [|reflexivity].
  destruct (content_parts items []); reflexivity.
Qed.

Lemma blank_arguments_witness :
  snd (fst (exec_tool_call silent alpha
              {| id := "c2"; type := "function";
                 function := {| name := "search"; arguments := "  " |} |} []))
  = [{| id := "c2"; type := "function";
        function := {| name := "search"; arguments := "{}" |} |}].
Proof.
  apply (blank_arguments_call_once silent alpha
           {| id := "c2"; type := "function";
              function := {| name := "search"; arguments := "  " |} |} []).
  reflexivity.
Defined.

(** *** The servers that failed to start *)

Lemma get_all_server_tools_spec (load : McpServer -> result (list Tool))
    (mcp_servers : list McpServer) (n : string) (server_tools : list Tool) :
  (n, server_tools) ∈ fst (McpInit.get_all_server_tools load mcp_servers)
  <-> exists server, server ∈ mcp_servers /\ load server = Return server_tools
                     /\ n = server_name server.
Proof.
  induction mcp_servers as [|s l IH]; cbn [McpInit.get_all_server_tools].
  - cbn [fst]. split; [intros H; inversion H | intros (x & H & _); inversion H].
  - unfold McpInit.get_server_tools.
    destruct (McpInit.get_all_server_tools load l) as [results printed'].
    cbn [fst] in IH. destruct (load s) as [tools|e] eqn:L; cbn [fst].
    + rewrite elem_of_cons, IH. split.
      * intros [H|(x & H1 & H2)].
        -- injection H as -> ->. exists s. rewrite elem_of_cons. auto.
        -- exists x. rewrite elem_of_cons. auto.
      * intros (x & H1 & H2 & H3). apply elem_of_cons in H1 as [->|H1].
        -- left. congruence.
        -- right. exists x. auto.
    + rewrite IH. split.
      * intros (x & H1 & H2). exists x. rewrite elem_of_cons. auto.
      * intros (x & H1 & H2 & H3). apply elem_of_cons in H1 as [->|H1]; [congruence|].
        exists x. auto.
Qed.

Lemma advertisers_named (mcp_servers : list McpServer) (mcp_tools : list (string * list Tool))
    (tool_call : ToolCall) (s : McpServer) :
  s ∈ advertisers mcp_servers mcp_tools tool_call ->
  exists n server_tools, (n, server_tools) ∈ mcp_tools /\ s ∈ mcp_servers
                         /\ server_name s = n.
Proof.
  unfold advertisers. rewrite list_elem_of_In, in_flat_map.
  intros ([n ts] & Hn & H). apply in_flat_map in H as (t & _ & H). cbn [fst] in H.
  destruct (name_matches t tool_call); [|destruct H].
  unfold named_server in H. destruct (List.find _ mcp_servers) as [s'|] eqn:F; [|destruct H].
  destruct H as [<-|[]]. apply find_some in F as [F1 F2]. apply String.eqb_eq in F2.
  exists n, ts. split_and!; [apply list_elem_of_In, Hn | apply list_elem_of_In, F1 | exact F2].
Qed.

Lemma same_name_same_server (l : list McpServer) (a b : McpServer) :
  NoDup (map server_name l) -> a ∈ l -> b ∈ l -> server_name a = server_name b -> a = b.
Proof.
  induction l as [|x l IH]; intros N Ha Hb E; [inversion Ha|].
  cbn [map] in N. apply NoDup_cons in N as [Nx N].
  apply elem_of_cons in Ha as [->|Ha]; apply elem_of_cons in Hb as [->|Hb].
  - reflexivity.
  - exfalso. apply Nx. rewrite E. apply list_elem_of_fmap. exists b. auto.
  - exfalso. apply Nx. rewrite <- E. apply list_elem_of_fmap. exists a. auto.
  - apply IH; assumption.
Qed.

(** X21.  Initialization and routing together: when the configured
    servers have names that differ, every server that is given a call
    has loaded its tools at initialization; a server whose
    initialization failed is given none. *)
Theorem failed_server_gets_no_call (load : McpServer -> result (list Tool)) (c : Coder)
    (tool_calls : list ToolCall) (d : ServerToolCalls) (server : McpServer) :
  NoDup (map server_name (mcp_servers c)) ->
  _gather_server_tool_calls (mcp_servers c)
    (mcp_tools (McpInit.initialize_mcp_tools load c)) tool_calls = Some d ->
  server ∈ map fst d ->
  server ∈ mcp_servers c /\ exists server_tools, load server = Return server_tools.
Proof.
  intros N G H. unfold _gather_server_tool_calls in G.
  destruct (mcp_tools (McpInit.initialize_mcp_tools load c)) as [|t ts] eqn:T; [discriminate|].
  rewrite <- T in G. injection G as <-. rewrite scan_tool_calls_extend in H.
  apply (keys_extend _ [] (NoDup_nil_2)) in H as [H|H]; [inversion H|].
  apply routed_servers in H as (tc & _ & H).
  apply advertisers_named in H as (n & server_tools & Hn & Hs & E).
  split; [exact Hs|]. exists server_tools.
  assert (Hn' : (n, server_tools) ∈ fst (McpInit.get_all_server_tools load (mcp_servers c))).
  { unfold McpInit.initialize_mcp_tools in Hn.
    destruct (mcp_servers c) as [|s0 l0] eqn:M; [cbn in Hn; inversion Hn|]. rewrite <- M in *.
    destruct (McpInit.get_all_server_tools load (mcp_servers c)) as [tools printed].
    cbn [mcp_tools fst] in *. exact Hn. }
  apply get_all_server_tools_spec in Hn' as (s' & Hs' & L & E').
  assert (server = s') as -> by (apply (same_name_same_server (mcp_servers c)); congruence).
  exact L.
Qed.

(** Two servers, of which beta fails to start. *)
Definition startup (server : McpServer) : result (list Tool) :=
  if String.eqb (server_name server) "alpha" then Return [tool "search"]
  else Raise (OtherException "connection refused").

Definition fresh : Coder :=
  {| mcp_servers := [alpha; beta]; mcp_tools := [];
     num_tool_calls := 0; max_tool_calls := 25; verbose := false;
     cur_messages := []; io := [] |}.

Lemma failed_server_witness :
  alpha ∈ mcp_servers fresh /\ exists server_tools, startup alpha = Return server_tools.
Proof.
  apply (failed_server_gets_no_call startup fresh [call "c1" "search"]
           [(alpha, [call "c1" "search"])] alpha).
  - vm_compute. repeat constructor; set_solver.
  - vm_compute. reflexivity.
  - vm_compute. set_solver.
Defined.

(** X22.  After initialization, the flattened tool list holds exactly
    the tools loaded from the configured servers that started. *)
Theorem tool_list_after_initialization (load : McpServer -> result (list Tool)) (c : Coder)
    (tool : Tool) :
  tool ∈ McpInit.get_tool_list (McpInit.initialize_mcp_tools load c)
  <-> exists server server_tools,
        server ∈ mcp_servers c /\ load server = Return server_tools
        /\ tool ∈ server_tools.
Proof.
  unfold McpInit.get_tool_list. rewrite list_elem_of_In, in_flat_map.
  assert (T : forall n ts,
             (n, ts) ∈ mcp_tools (McpInit.initialize_mcp_tools load c)
             <-> (n, ts) ∈ fst (McpInit.get_all_server_tools load (mcp_servers c))).
  { intros n ts. unfold McpInit.initialize_mcp_tools.
    destruct (mcp_servers c) as [|s0 l0] eqn:M; [reflexivity|]. rewrite <- M.
    destruct (McpInit.get_all_server_tools load (mcp_servers c)); reflexivity. }
  split.
  - intros ([n ts] & H1 & H2). apply list_elem_of_In, T, get_all_server_tools_spec in H1.
    destruct H1 as (server & Hs & L & _). exists server, ts.
    split_and!; [exact Hs | exact L | apply list_elem_of_In, H2].
  - intros (server & ts & Hs & L & Ht). exists (server_name server, ts).
    split; [|apply list_elem_of_In, Ht]. apply list_elem_of_In, T, get_all_server_tools_spec.
    exists server. auto.
Qed.

End ToolCallsSpec.

(** ** A background summary from start to end *)

Module SummarySpec.
Import Py Chat Runtime.

(** X23.  A background summary that nothing interferes with.  With no
    worker pending and a history over the summarizer's limit,
    [summarize_start] followed by [summarize_end] leaves no worker and
    empty buffers, and the history is: the summary, when the summarizer
    returns one; the history itself, with the warning shown, when the
    summarizer raises ValueError; and, when the worker dies of another
    exception, whatever the summary buffer held before, which is the
    empty list after [__init__] and after every [summarize_end]. *)
Theorem background_summary_outcomes (sm : Summarizer) (st : State) :
  summarizer_thread st = None ->
  check_max_tokens sm (done_messages st) None = true ->
  done_messages (summarize_end sm (summarize_start sm st))
  = match summarize sm (done_messages st) with
    | Summary messages => messages
    | ValueError _ => done_messages st
    | WorkerDies => summarized_done_messages st
    end
  /\ (forall text, summarize sm (done_messages st) = ValueError text ->
        tool_warning text ∈ io (summarize_end sm (summarize_start sm st)))
  /\ summarizer_thread (summarize_end sm (summarize_start sm st)) = None
  /\ summarizing_messages (summarize_end sm (summarize_start sm st)) = None
  /\ summarized_done_messages (summarize_end sm (summarize_start sm st)) = [].
Proof.
  intros T C.
  assert (S1 : summarize_start sm st
               = set_thread (if verbose st
                             then print st [tool_output "Starting to summarize chat history."]
                             else st) (Some Started)).
  { unfold summarize_start. rewrite C. cbn [negb]. unfold summarize_end. rewrite T.
    reflexivity. }
  rewrite S1. clear S1.
  set (st2 := if verbose st
              then print st [tool_output "Starting to summarize chat history."] else st).
  assert (D : done_messages st2 = done_messages st) by (subst st2; destruct (verbose st); reflexivity).
  assert (B : summarized_done_messages st2 = summarized_done_messages st)
    by (subst st2; destruct (verbose st); reflexivity).
  unfold summarize_end, join. cbn [summarizer_thread set_thread].
  unfold worker_finish, worker_snapshot.
  cbn [summarizing_messages set_thread set_summarizing default from_option id done_messages
       verbose].
  rewrite D. destruct (summarize sm (done_messages st)) as [l|text|] eqn:S.
  - destruct (verbose st2);
      cbn [summarizer_thread set_thread print done_messages set_summarizing set_summarized
           summarizing_messages summarized_done_messages];
      (destruct (decide _) as [_|N]; [|exfalso; apply N; congruence]);
      (split_and!; [reflexivity | discriminate | reflexivity | reflexivity | reflexivity]).
  - assert (W : forall suffix : list event,
               tool_warning text ∈ (io st2 ++ [tool_warning text]) ++ suffix).
    { intros suffix. apply elem_of_app. left. apply elem_of_app. right. left. }
    destruct (verbose st2);
      cbn [summarizer_thread set_thread print done_messages set_summarizing set_summarized
           summarizing_messages summarized_done_messages io];
      (destruct (decide _) as [_|N]; [|exfalso; apply N; congruence]);
      cbn [summarizer_thread set_thread print done_messages set_summarizing set_summarized
           summarizing_messages summarized_done_messages io set_done];
      (split_and!; [reflexivity | | reflexivity | reflexivity | reflexivity]);
      intros text' E; injection E as <-.
    + apply W.
    + rewrite <- (app_nil_r (io st2 ++ _)). apply W.
  - cbn [summarizer_thread set_thread print done_messages set_summarizing set_summarized
         summarizing_messages summarized_done_messages].
    destruct (decide _) as [_|N]; [|exfalso; apply N; congruence].
    cbn [summarizer_thread set_thread print done_messages set_summarizing set_summarized
         summarizing_messages summarized_done_messages io set_done].
    split_and!; [exact B | discriminate | reflexivity | reflexivity | reflexivity].
Qed.

(** A summarizer that can find no model to summarize with. *)
Definition failing : Summarizer :=
  {| check_max_tokens := fun _ _ => true;
     summarize := fun _ => ValueError "summarizer unexpectedly failed for all models";
     summarize_all_as_text := fun _ _ _ => Raises "unavailable" |}.

Lemma background_summary_witness :
  done_messages (summarize_end failing (summarize_start failing (RuntimeSpec.session None)))
  = RuntimeSpec.history.
Proof.
  apply (background_summary_outcomes failing (RuntimeSpec.session None));
    reflexivity.
Defined.

End SummarySpec.
